(** * Forta detection bots: the [DataFetcher] client and the large-position rule

    A shallow embedding of
    - [native-ice-phishing/src/fetcher.ts] (class [DataFetcher]), and
    - [Alpaca-Finance-Agents/Large-Position-Alert/src/agent.ts],
    together with the properties of their caching, retry and fallback
    behaviour.

    Conventions of the embedding:
    - an [async] method is a computation in the monad [M]: it threads the
      [World] (the five LRU caches of the instance, the process-wide
      [ErrorCache] and the trace of remote calls and timers) and completes
      either normally or by throwing;
    - the remote side (RPC provider, explorer, signature database, label
      service) is an oracle [Env]: the answer to a request may depend on how
      many remote calls were issued before it, so a call can fail and then
      succeed;
    - a JavaScript value that may be [undefined] is an [option]. *)

From Stdlib Require Import List String Ascii ZArith Bool Lia Arith.
From Stdlib Require Import DecimalString DecimalZ Permutation.
Import ListNotations.

Local Open Scope string_scope.
Local Open Scope Z_scope.

(** ** Remote outcomes *)

(** What the code reads from a caught exception: [err.toString()] and
    [util.inspect(err, ...)]. *)
Record Error := mkError {
  err_toString : string;
  util_inspect : string
}.

(** An awaited remote call either resolves or rejects. *)
Inductive Outcome (A : Type) : Type :=
| Ok (a : A)
| Err (e : Error).
Arguments Ok {A} a.
Arguments Err {A} e.

(** A completion of a method: a returned value or a propagated exception. *)
Inductive Completion (A : Type) : Type :=
| Normal (a : A)
| Thrown (e : Error).
Arguments Normal {A} a.
Arguments Thrown {A} e.

(** ** The lru-cache structure

    [entries] is ordered from the most recently used to the least recently
    used entry. [has] does not touch the order, [get] and [set] move the key
    to the front, and [set] of a new key into a full cache drops the last
    entry. *)
Module LRU.
Section WithValue.
Context {V : Type}.

Record t := mk { max : Z; entries : list (string * V) }.

Definition create (max : Z) : t := mk max [].

Fixpoint find (k : string) (l : list (string * V)) : option V :=
  match l with
  | [] => None
  | (k', v) :: l' => if String.eqb k' k then Some v else find k l'
  end.

Fixpoint remove (k : string) (l : list (string * V)) : list (string * V) :=
  match l with
  | [] => []
  | (k', v) :: l' =>
      if String.eqb k' k then remove k l' else (k', v) :: remove k l'
  end.

Definition has (k : string) (c : t) : bool :=
  match find k (entries c) with Some _ => true | None => false end.

(** The value without the recency update. *)
Definition peek (k : string) (c : t) : option V := find k (entries c).

Definition get (k : string) (c : t) : option V * t :=
  match find k (entries c) with
  | Some v => (Some v, mk (max c) ((k, v) :: remove k (entries c)))
  | None => (None, c)
  end.

Definition set (k : string) (v : V) (c : t) : t :=
  if has k c then mk (max c) ((k, v) :: remove k (entries c))
  else if max c <=? Z.of_nat (List.length (entries c))
       then mk (max c) ((k, v) :: removelast (entries c))
       else mk (max c) ((k, v) :: entries c).
End WithValue.
Arguments t V : clear implicits.
End LRU.

(** ** Explorer data *)

(** A transaction record of the explorer's [txlist] answers; every field is
    a JSON string. *)
Record Tx := mkTx {
  tx_hash : string;
  tx_from : string;
  tx_to : string;
  tx_value : string;
  tx_blockNumber : string
}.

(** The explorer's answer [{ message, result }], for answers whose [result]
    is an array. An answer of another shape is not modelled: where it makes
    the code throw inside a [try], it counts as a rejection ([Err]). *)
Record Response (A : Type) := mkResponse {
  message : string;
  result : list A
}.
Arguments mkResponse {A} message result.
Arguments message {A} r.
Arguments result {A} r.

(** ** Remote requests, the trace and the oracle *)

Inductive Request :=
| ProviderGetCode (address : string)
| ProviderGetStorageAt (address : string) (slot blockNumber : Z)
| ProviderGetTransactionCount (address : string)
| ContractOwner (address : string) (blockTag : Z)
| ContractGetOwner (address : string) (blockTag : Z)
| FetchText (url : string)
| FetchLabels (url : string)
| FetchAccount (address : string) (chainId offset : Z)
| FetchAccountInternalTxs (address : string) (chainId offset : Z)
| FetchSourceCode (address : string) (chainId : Z)
| FetchLogs (address : string) (blockNumber chainId : Z).

(** What a method does that the outside can see: a remote call, or waiting
    on [setTimeout(resolve, ms)]. *)
Inductive Event :=
| Remote (r : Request)
| Sleep (ms : Z).

(** The remote side. The first argument of every oracle is the number of
    remote calls issued before this one. [etherscanApis] tells whether
    [./config] has an entry for the chain id: the URL builders destructure
    [etherscanApis[chainId]] and throw when it has none. The explorer URL
    also carries an API key picked with [Math.random] by
    [getBlockExplorerKey]; the key is not part of [Request]. *)
Record Env := mkEnv {
  provider_getCode : nat -> string -> Outcome string;
  provider_getStorageAt : nat -> string -> Z -> Z -> Outcome string;
  provider_getTransactionCount : nat -> string -> Outcome Z;
  contract_owner : nat -> string -> Z -> Outcome string;
  contract_getOwner : nat -> string -> Z -> Outcome string;
  fetch_text : nat -> string -> Outcome string;
  fetch_labels : nat -> string -> Outcome (list string);
  etherscanApis : Z -> bool;
  fetch_account : nat -> string -> Z -> Z -> Outcome (Response Tx);
  fetch_internalTxs : nat -> string -> Z -> Z -> Outcome (Response Tx);
  fetch_sourceCode : nat -> string -> Z -> Outcome (Response string);
  fetch_logs : nat -> string -> Z -> Z -> Outcome (Response string)
}.

(** ** The error collector *)

(** The finding built by [createErrorAlert(message, source, stackTrace)] of
    [./findings], kept as its three arguments. *)
Record ErrorAlert := createErrorAlert {
  ea_message : string;
  ea_source : string;
  ea_stackTrace : string
}.

(** ** The world a [DataFetcher] runs in *)

(** [trace] holds the newest event first. *)
Record World := mkWorld {
  eoaCache : LRU.t bool;
  codeCache : LRU.t string;
  functionCache : LRU.t string;
  nonceCache : LRU.t Z;
  ownerCache : LRU.t string;
  ErrorCache : list ErrorAlert;
  trace : list Event
}.

(** The constructor of [DataFetcher], in a process that has recorded no
    error and issued no call yet. *)
Definition new_DataFetcher : World :=
  mkWorld (LRU.create 50000) (LRU.create 10000) (LRU.create 10000)
          (LRU.create 50000) (LRU.create 10000) [] [].

Definition with_eoaCache (c : LRU.t bool) (w : World) : World :=
  mkWorld c (codeCache w) (functionCache w) (nonceCache w) (ownerCache w)
          (ErrorCache w) (trace w).
Definition with_codeCache (c : LRU.t string) (w : World) : World :=
  mkWorld (eoaCache w) c (functionCache w) (nonceCache w) (ownerCache w)
          (ErrorCache w) (trace w).
Definition with_functionCache (c : LRU.t string) (w : World) : World :=
  mkWorld (eoaCache w) (codeCache w) c (nonceCache w) (ownerCache w)
          (ErrorCache w) (trace w).
Definition with_nonceCache (c : LRU.t Z) (w : World) : World :=
  mkWorld (eoaCache w) (codeCache w) (functionCache w) c (ownerCache w)
          (ErrorCache w) (trace w).
Definition with_ownerCache (c : LRU.t string) (w : World) : World :=
  mkWorld (eoaCache w) (codeCache w) (functionCache w) (nonceCache w) c
          (ErrorCache w) (trace w).
Definition with_ErrorCache (l : list ErrorAlert) (w : World) : World :=
  mkWorld (eoaCache w) (codeCache w) (functionCache w) (nonceCache w)
          (ownerCache w) l (trace w).
Definition with_trace (t : list Event) (w : World) : World :=
  mkWorld (eoaCache w) (codeCache w) (functionCache w) (nonceCache w)
          (ownerCache w) (ErrorCache w) t.

Definition is_remote (e : Event) : bool :=
  match e with Remote _ => true | Sleep _ => false end.

Definition is_sleep (e : Event) : bool :=
  match e with Remote _ => false | Sleep _ => true end.

(** Number of remote calls issued so far. *)
Fixpoint calls_in (t : list Event) : nat :=
  match t with
  | [] => O
  | Remote _ :: t' => S (calls_in t')
  | Sleep _ :: t' => calls_in t'
  end.

Definition calls (w : World) : nat := calls_in (trace w).

(** Number of timers awaited so far. *)
Fixpoint sleeps_in (t : list Event) : nat :=
  match t with
  | [] => O
  | Remote _ :: t' => sleeps_in t'
  | Sleep _ :: t' => S (sleeps_in t')
  end.

Definition sleeps (w : World) : nat := sleeps_in (trace w).

(** ** The monad of methods *)

Definition M (A : Type) : Type := World -> Completion A * World.

Definition ret {A} (a : A) : M A := fun w => (Normal a, w).

Definition throw {A} (e : Error) : M A := fun w => (Thrown e, w).

Definition bind {A B} (m : M A) (k : A -> M B) : M B :=
  fun w =>
    match m w with
    | (Normal a, w') => k a w'
    | (Thrown e, w') => (Thrown e, w')
    end.

Declare Scope fetcher_scope.
Delimit Scope fetcher_scope with fetcher.
Notation "x <- m ;; k" := (bind m (fun x => k))
  (at level 61, m at next level, right associativity) : fetcher_scope.
Notation "m ;; k" := (bind m (fun _ => k))
  (at level 61, right associativity) : fetcher_scope.
Local Open Scope fetcher_scope.

(** [await] of a remote call: the call is recorded and the oracle answers
    for its position in the sequence of calls. A rejection is handed to the
    caller as [Err], for the [catch] clause around the call. *)
Definition await {A} (r : Request) (oracle : nat -> Outcome A)
  : M (Outcome A) :=
  fun w => (Normal (oracle (calls w)), with_trace (Remote r :: trace w) w).

(** [await new Promise((resolve) => setTimeout(resolve, ms))]. *)
Definition setTimeout (ms : Z) : M unit :=
  fun w => (Normal tt, with_trace (Sleep ms :: trace w) w).

(** Modelled from the spec: [ErrorCache.add] of [./error.cache], which is not
    among the sources; the spec describes the collector as process-wide and
    append-only. *)
Definition ErrorCache_add (a : ErrorAlert) : M unit :=
  fun w => (Normal tt, with_ErrorCache (ErrorCache w ++ [a]) w).

Definition when (b : bool) (m : M unit) : M unit := if b then m else ret tt.

(** Reading and writing one of the caches of the instance. *)
Definition cache_has {V} (cache : World -> LRU.t V) (k : string) : M bool :=
  fun w => (Normal (LRU.has k (cache w)), w).

Definition cache_get {V} (cache : World -> LRU.t V)
    (update : LRU.t V -> World -> World) (k : string) : M (option V) :=
  fun w => (Normal (fst (LRU.get k (cache w))),
            update (snd (LRU.get k (cache w))) w).

Definition cache_set {V} (cache : World -> LRU.t V)
    (update : LRU.t V -> World -> World) (k : string) (v : V) : M unit :=
  fun w => (Normal tt, update (LRU.set k v (cache w)) w).

(** The [TypeError] of reading a property of [undefined]. *)
Definition TypeError : Error :=
  mkError "TypeError: Cannot read properties of undefined" "TypeError".

(** A JavaScript string is truthy when it is not empty. *)
Definition truthy (s : string) : bool := negb (s =? "")%string.

(** ** [DataFetcher]: the provider-backed methods *)

Section DataFetcher.
Variable env : Env.

(** Constants imported from [./utils]. *)
Variables toTxCountThreshold fromTxCountThreshold : Z.

(** The builtin [parseInt] on the explorer's strings; [None] is [NaN]. *)
Variable parseInt : string -> option Z.

Definition maxTries : nat := 3.

(** The [while (tries < maxTries)] loop of [getCode]. [left] is
    [maxTries - tries], so the loop condition holds exactly when [left] is
    a successor. The result is the final value of [code]. *)
Fixpoint getCode_loop (address : string) (left : nat) : M (option string) :=
  match left with
  | O => ret None
  | S left' =>
      r <- await (ProviderGetCode address)
                 (fun n => provider_getCode env n address) ;;
      match r with
      | Ok code => ret (Some code)
      | Err err =>
          let tries := (maxTries - left')%nat in
          when (tries =? maxTries)%nat
               (ErrorCache_add
                  (createErrorAlert (err_toString err) "fetcher.getCode"
                                    (util_inspect err))) ;;
          setTimeout 1000 ;;
          getCode_loop address left'
      end
  end.

Definition getCode (address : string) : M (option string) :=
  hit <- cache_has codeCache address ;;
  if hit then cache_get codeCache with_codeCache address
  else
    code <- getCode_loop address maxTries ;;
    match code with
    | Some c =>
        when (truthy c && negb (c =? "0x")%string)
             (cache_set codeCache with_codeCache address c) ;;
        ret code
    | None => ret code
    end.

Fixpoint getStorageSlot_loop (address : string) (slot blockNumber : Z)
    (left : nat) : M (option string) :=
  match left with
  | O => ret None
  | S left' =>
      r <- await (ProviderGetStorageAt address slot blockNumber)
                 (fun n => provider_getStorageAt env n address slot
                                                 blockNumber) ;;
      match r with
      | Ok storageSlot => ret (Some storageSlot)
      | Err err =>
          let tries := (maxTries - left')%nat in
          when (tries =? maxTries)%nat
               (ErrorCache_add
                  (createErrorAlert (err_toString err)
                                    "fetcher.getStorageSlot"
                                    (util_inspect err))) ;;
          setTimeout 1000 ;;
          getStorageSlot_loop address slot blockNumber left'
      end
  end.

Definition getStorageSlot (address : string) (slot blockNumber : Z)
  : M (option string) :=
  getStorageSlot_loop address slot blockNumber maxTries.

Definition isEoa (address : string) : M (option bool) :=
  hit <- cache_has eoaCache address ;;
  if hit then cache_get eoaCache with_eoaCache address
  else
    code <- getCode address ;;
    match code with
    | None => ret None
    | Some c =>
        if negb (truthy c) then ret None
        else
          let isEoa := (c =? "0x")%string in
          cache_set eoaCache with_eoaCache address isEoa ;;
          ret (Some isEoa)
    end.

(** The label source of [getLabel] and its URL. *)
Definition LABELS_SOURCE (chainId : Z) : string :=
  if chainId =? 1 then "etherscan"
  else if chainId =? 137 then "polygon" else "fantom".

Definition label_url (address : string) (chainId : Z) : string :=
  "https://api.forta.network/labels/state?entities=" ++ address
  ++ "&sourceIds=" ++ LABELS_SOURCE chainId ++ "-tags&limit=1".

(** The [for (let i = 0; i < maxRetries; i++)] loop of [getLabel]; the
    answer is the list of [events[k].label.label]. [None] means that the
    loop ran out. *)
Fixpoint getLabel_loop (url : string) (left : nat) : M (option string) :=
  match left with
  | O => ret None
  | S left' =>
      r <- await (FetchLabels url) (fun n => fetch_labels env n url) ;;
      match r with
      | Ok events =>
          ret (Some (match events with [] => "" | label :: _ => label end))
      | Err _ =>
          setTimeout 1000 ;;
          getLabel_loop url left'
      end
  end.

Definition getLabel (address : string) (chainId : Z) : M string :=
  if negb (existsb (Z.eqb chainId) [1; 137; 250]) then ret ""
  else
    r <- getLabel_loop (label_url address chainId) 3 ;;
    match r with
    | Some label => ret label
    | None => ret ""
    end.

(** [nonce] starts as 100000 and is overwritten by a successful call, which
    also fills the cache. *)
Fixpoint getNonce_loop (address : string) (nonce : Z) (left : nat) : M Z :=
  match left with
  | O => ret nonce
  | S left' =>
      r <- await (ProviderGetTransactionCount address)
                 (fun n => provider_getTransactionCount env n address) ;;
      match r with
      | Ok nonce' =>
          cache_set nonceCache with_nonceCache address nonce' ;;
          ret nonce'
      | Err err =>
          let tries := (maxTries - left')%nat in
          when (tries =? maxTries)%nat
               (ErrorCache_add
                  (createErrorAlert (err_toString err) "fetcher.getNonce"
                                    (util_inspect err))) ;;
          setTimeout 1000 ;;
          getNonce_loop address nonce left'
      end
  end.

(** A cache hit yields the cached number. *)
Definition getNonce (address : string) : M (option Z) :=
  hit <- cache_has nonceCache address ;;
  if hit then cache_get nonceCache with_nonceCache address
  else
    nonce <- getNonce_loop address 100000 maxTries ;;
    ret (Some nonce).

Definition signatureDbUrl : string :=
  "https://raw.githubusercontent.com/ethereum-lists/4bytes/master/signatures/".

(** The loop of [getSignature]: the third failure is thrown before the
    timer is reached. *)
Fixpoint getSignature_loop (url : string) (left : nat) : M (option string) :=
  match left with
  | O => ret None
  | S left' =>
      r <- await (FetchText url) (fun n => fetch_text env n url) ;;
      match r with
      | Ok response => ret (Some response)
      | Err err =>
          let tries := (maxTries - left')%nat in
          if (tries =? maxTries)%nat then throw err
          else
            setTimeout 1000 ;;
            getSignature_loop url left'
      end
  end.

Definition getSignature (bytes : string) : M (option string) :=
  hit <- cache_has functionCache bytes ;;
  if hit then cache_get functionCache with_functionCache bytes
  else
    let url := signatureDbUrl ++ substring 2 8 bytes in
    response <- getSignature_loop url maxTries ;;
    match response with
    | Some r =>
        if truthy r && negb (prefix "404" r) then
          cache_set functionCache with_functionCache bytes r ;;
          ret (Some r)
        else ret None
    | None => ret None
    end.

(** The cache key [`${address} - ${block}`]. *)
Definition owner_key (address : string) (block : Z) : string :=
  address ++ " - " ++ NilEmpty.string_of_int (Z.to_int block).

(** [getOwner], for a well-formed contract address: the call of [owner()]
    and, when it is rejected, the call of [getOwner()]. For another string
    [ethers] rejects both accessors before anything is sent. *)
Definition getOwner (address : string) (block : Z) : M (option string) :=
  let key := owner_key address block in
  hit <- cache_has ownerCache key ;;
  if hit then cache_get ownerCache with_ownerCache key
  else
    r1 <- await (ContractOwner address block)
                (fun n => contract_owner env n address block) ;;
    owner <- match r1 with
             | Ok owner => ret owner
             | Err _ =>
                 r2 <- await (ContractGetOwner address block)
                             (fun n => contract_getOwner env n address
                                                         block) ;;
                 match r2 with
                 | Ok owner => ret owner
                 | Err _ => ret ""
                 end
             end ;;
    cache_set ownerCache with_ownerCache key owner ;;
    ret (Some owner).

(** ** [DataFetcher]: the explorer-backed methods *)

Definition maxRetries : nat := 3.

(** The test on [result.message] that sends an answer back for a retry. *)
Definition soft_failure (message : string) : bool :=
  prefix "NOTOK" message
  || prefix "Query Timeout" message
  || prefix "No transactions found" message.

(** [getEtherscanAddressUrl], [getEtherscanAddressInternalTxsUrl],
    [getSourceCodeUrl] and [getLogsUrl] followed by
    [await (await fetch(url)).json()], as they stand inside a [try]: a chain
    id without configuration makes the URL builder throw, which the [catch]
    sees like a rejected fetch and for which no call is issued. The address
    URLs ask for [offset + 1] records. *)
Definition fetchAccount (address : string) (chainId offset : Z)
  : M (Outcome (Response Tx)) :=
  if etherscanApis env chainId then
    await (FetchAccount address chainId (offset + 1))
          (fun n => fetch_account env n address chainId (offset + 1))
  else ret (Err TypeError).

Definition fetchAccountInternalTxs (address : string) (chainId offset : Z)
  : M (Outcome (Response Tx)) :=
  if etherscanApis env chainId then
    await (FetchAccountInternalTxs address chainId (offset + 1))
          (fun n => fetch_internalTxs env n address chainId (offset + 1))
  else ret (Err TypeError).

Definition fetchSourceCode (address : string) (chainId : Z)
  : M (Outcome (Response string)) :=
  if etherscanApis env chainId then
    await (FetchSourceCode address chainId)
          (fun n => fetch_sourceCode env n address chainId)
  else ret (Err TypeError).

Definition fetchLogs (address : string) (blockNumber chainId : Z)
  : M (Outcome (Response string)) :=
  if etherscanApis env chainId then
    await (FetchLogs address blockNumber chainId)
          (fun n => fetch_logs env n address blockNumber chainId)
  else ret (Err TypeError).

(** The [for (let attempt = 1; attempt <= maxRetries; attempt++)] loop that
    every explorer-backed method repeats around its fetch, with [left] being
    [maxRetries - attempt + 1]. [Some result] is the [break] with a usable
    answer; [None] is the [return] of the method's fallback on the final
    attempt. No timer is awaited between the attempts. *)
Fixpoint explorer_loop {A} (fetch : M (Outcome (Response A))) (left : nat)
  : M (option (Response A)) :=
  match left with
  | O => ret None
  | S left' =>
      let attempt := (maxRetries - left')%nat in
      r <- fetch ;;
      match r with
      | Ok res =>
          if soft_failure (message res) then
            if (attempt =? maxRetries)%nat then ret None
            else explorer_loop fetch left'
          else ret (Some res)
      | Err _ =>
          if (attempt =? maxRetries)%nat then ret None
          else explorer_loop fetch left'
      end
  end.

(** [[isFirstInteraction, hasHighNumberOfTotalTxs]]; [None] is
    [[null, null]]. *)
Definition getAddressInfo (txTo txFrom : string) (chainId : Z) (hash : string)
  : M (option (bool * bool)) :=
  r <- explorer_loop (fetchAccount txTo chainId toTxCountThreshold)
                     maxRetries ;;
  match r with
  | None => ret None
  | Some res =>
      let numberOfInteractions :=
        List.length
          (filter (fun tx =>
                     (tx_to tx =? txFrom)%string
                     || ((tx_from tx =? txFrom)%string
                         && negb (tx_hash tx =? hash)%string))
                  (result res)) in
      let isFirstInteraction := (numberOfInteractions =? 0)%nat in
      let hasHighNumberOfTotalTxs :=
        toTxCountThreshold <? Z.of_nat (List.length (result res)) in
      ret (Some (isFirstInteraction, hasHighNumberOfTotalTxs))
  end.

(** The inner [for] of [haveInteractedAgain] for one victim: it stops with
    [true] as soon as the count passes 1. *)
Fixpoint interactedTwice (attacker victim : string) (txs : list Tx)
    (numberOfInteractions : nat) : bool :=
  match txs with
  | [] => false
  | tx :: txs' =>
      let n := if (tx_to tx =? attacker)%string
                  && (tx_from tx =? victim)%string
               then S numberOfInteractions else numberOfInteractions in
      if (1 <? n)%nat then true
      else interactedTwice attacker victim txs' n
  end.

Definition haveInteractedAgain (attacker : string) (victims : list string)
    (chainId : Z) : M bool :=
  r <- explorer_loop (fetchAccount attacker chainId 9999) maxRetries ;;
  match r with
  | None => ret true
  | Some res =>
      ret (existsb (fun victim =>
                      interactedTwice attacker victim (result res) 0)
                   victims)
  end.

(** [xs.includes(x)] on strings. *)
Definition includes (x : string) (xs : list string) : bool :=
  existsb (String.eqb x) xs.

(** [Array.from(new Set(xs))]: the first occurrence of each element, in
    order. *)
Definition uniq (xs : list string) : list string :=
  fold_left (fun acc x => if includes x acc then acc else (acc ++ [x])%list) xs [].

(** A JavaScript object used as a map from strings: an association list in
    insertion order, in which an assignment to an existing key keeps the
    key's place. *)
Definition Obj (V : Type) : Type := list (string * V).

Fixpoint obj_get {V} (k : string) (o : Obj V) : option V :=
  match o with
  | [] => None
  | (k', v) :: o' => if String.eqb k' k then Some v else obj_get k o'
  end.

Fixpoint obj_set {V} (k : string) (v : V) (o : Obj V) : Obj V :=
  match o with
  | [] => [(k, v)]
  | (k', v') :: o' =>
      if String.eqb k' k then (k, v) :: o' else (k', v') :: obj_set k v o'
  end.

(** The ["to"] addresses of a victim's history that are neither the attacker
    nor the victim. *)
Definition toAddresses_of (attacker victim : string) (txs : list Tx)
  : list string :=
  map tx_to
      (filter (fun tx => negb (includes (tx_to tx) [attacker; victim])) txs).

(** One round of the callbacks of [victims.map(async (victim) => ...)]
    under [Promise.all]: the attempt number [attempt] of every victim in
    [pending], in the order of [victims]. Every callback runs up to its
    first [await], so the first fetch of every victim is issued before any
    retry; the responses are taken to settle in the order in which the
    requests were issued, so that the victims whose attempt failed issue
    their next attempt in the same order. The result carries the victims that
    go on to the next attempt and the captured variables
    [haveInteractedWithSameAddress] and [victimInteractions]: a victim whose
    final attempt fails sets the former and leaves the latter alone. *)
Fixpoint fetch_round (attacker : string) (chainId : Z) (attempt : nat)
    (pending : list string) (flag : bool)
    (victimInteractions : Obj (list string))
  : M (list string * (bool * Obj (list string))) :=
  match pending with
  | [] => ret ([], (flag, victimInteractions))
  | victim :: pending' =>
      r <- fetchAccount victim chainId 100 ;;
      let retry :=
        if (attempt =? maxRetries)%nat then
          fetch_round attacker chainId attempt pending' true
                      victimInteractions
        else
          st <- fetch_round attacker chainId attempt pending' flag
                            victimInteractions ;;
          ret (victim :: fst st, snd st) in
      match r with
      | Ok res =>
          if soft_failure (message res) then retry
          else
            let toAddresses := toAddresses_of attacker victim (result res) in
            fetch_round attacker chainId attempt pending' flag
                        (obj_set victim (uniq toAddresses) victimInteractions)
      | Err _ => retry
      end
  end.

(** The rounds of [Promise.all], with [left] being
    [maxRetries - attempt + 1]. For a chain id without configuration the
    URL builder throws synchronously, each callback runs through its three
    attempts on its own and no call is issued; the rounds give the same
    result. *)
Fixpoint fetch_victims (attacker : string) (chainId : Z) (left : nat)
    (pending : list string) (flag : bool)
    (victimInteractions : Obj (list string))
  : M (bool * Obj (list string)) :=
  match left with
  | O => ret (flag, victimInteractions)
  | S left' =>
      let attempt := (maxRetries - left')%nat in
      st <- fetch_round attacker chainId attempt pending flag
                        victimInteractions ;;
      fetch_victims attacker chainId left' (fst st) (fst (snd st))
                    (snd (snd st))
  end.

(** The body of [toAddresses.forEach] that fills [frequencyMap]. *)
Definition add_victim (victim : string) (frequencyMap : Obj (list string))
    (toAddress : string) : Obj (list string) :=
  let frequencyMap :=
    match obj_get toAddress frequencyMap with
    | Some _ => frequencyMap
    | None => obj_set toAddress [] frequencyMap
    end in
  match obj_get toAddress frequencyMap with
  | Some called_by =>
      if includes victim called_by then frequencyMap
      else obj_set toAddress (called_by ++ [victim])%list frequencyMap
  | None => frequencyMap
  end.

Definition build_frequencyMap (victimInteractions : Obj (list string))
  : Obj (list string) :=
  fold_left (fun frequencyMap entry =>
               fold_left (add_victim (fst entry)) (snd entry) frequencyMap)
            victimInteractions [].

(** [Math.ceil(victims.length / 2)]. *)
Definition majorityThreshold (victims : list string) : Z :=
  (Z.of_nat (List.length victims) + 1) / 2.

Definition haveInteractedWithSameAddress (attacker : string)
    (victims : list string) (chainId : Z) : M bool :=
  st <- fetch_victims attacker chainId maxRetries victims false [] ;;
  let frequencyMap := build_frequencyMap (snd st) in
  ret (fst st
       || existsb (fun entry =>
                     majorityThreshold victims
                     <=? Z.of_nat (List.length (snd entry)))
                  frequencyMap).

Definition isRecentlyInvolvedInTransfer (address hash : string)
    (chainId blockNumber : Z) : M bool :=
  r <- explorer_loop (fetchAccount address chainId 1000) maxRetries ;;
  match r with
  | None => ret true
  | Some res =>
      ret (existsb
             (fun tx =>
                negb (tx_hash tx =? hash)%string
                && negb (tx_value tx =? "0")%string
                && match parseInt (tx_blockNumber tx) with
                   | Some b => (blockNumber - 10 <=? b) && (b <? blockNumber)
                   | None => false
                   end)
             (result res))
  end.

(** [l.slice(start, stop)] for [0 <= start <= stop]. *)
Definition slice {A} (start stop : nat) (l : list A) : list A :=
  firstn (stop - start) (skipn start l).

(** [l.findIndex(p)], with [-1] when nothing matches. *)
Fixpoint findIndex {A} (p : A -> bool) (l : list A) : Z :=
  match l with
  | [] => -1
  | x :: l' =>
      if p x then 0
      else let i := findIndex p l' in if i =? -1 then -1 else i + 1
  end.

(** The elements of a list with their indices, as the callbacks of
    [forEach] and [some] receive them. *)
Definition indexed {A} (l : list A) : list (nat * A) :=
  combine (seq 0 (List.length l)) l.

Definition hasZeroValue (prevEntries : list Tx) : bool :=
  existsb (fun prevEntry => (tx_value prevEntry =? "0")%string) prevEntries.

Definition hasDuplicateFrom (prevEntries : list Tx) : bool :=
  existsb (fun jp =>
             negb (findIndex (fun otherPrevEntry =>
                                (tx_from otherPrevEntry
                                 =? tx_from (snd jp))%string)
                             prevEntries
                   =? Z.of_nat (fst jp)))
          (indexed prevEntries).

(** The callback of [result.result.forEach((entry, i) => ...)] in
    [hasValidEntries]: does the entry at index [i] set the flag? *)
Definition valid_entry (entries : list Tx) (hash : string) (ie : nat * Tx)
  : bool :=
  (tx_hash (snd ie) =? hash)%string
  && (3 <=? fst ie)%nat
  && (let prevEntries := slice (fst ie - 3) (fst ie) entries in
      negb (hasZeroValue prevEntries) && negb (hasDuplicateFrom prevEntries)).

Definition hasValidEntries (address : string) (chainId : Z) (hash : string)
  : M bool :=
  r <- explorer_loop (fetchAccount address chainId toTxCountThreshold)
                     maxRetries ;;
  match r with
  | None => ret false
  | Some res =>
      ret (existsb (valid_entry (result res) hash) (indexed (result res)))
  end.

(** The rest of a list after its first element that satisfies [p]. *)
Fixpoint dropUntil {A} (p : A -> bool) (l : list A) : option (list A) :=
  match l with
  | [] => None
  | x :: l' => if p x then Some l' else dropUntil p l'
  end.

(** The two nested downward loops of [getAddresses], followed by
    [latestTo ??= ""]: from the last entry with the target hash, the nearest
    earlier entry sent by [address] gives its ["to"]. *)
Definition latestTo_of (address hash : string) (txs : list Tx) : string :=
  match dropUntil (fun tx => (tx_hash tx =? hash)%string) (rev txs) with
  | None => ""
  | Some earlier =>
      match find (fun tx => (tx_from tx =? address)%string) earlier with
      | Some tx => tx_to tx
      | None => ""
      end
  end.

(** [[fundingAddress, latestTo]]; [None] is [[null, null]]. The first URL is
    built before the loop and outside any [try], and [result.result[0]] is
    read without a check. *)
Definition getAddresses (address : string) (chainId : Z) (hash : string)
  : M (option (string * string)) :=
  if negb (etherscanApis env chainId) then throw TypeError
  else
    r <- explorer_loop (fetchAccount address chainId fromTxCountThreshold)
                       maxRetries ;;
    match r with
    | None => ret None
    | Some res =>
        let latestTo := latestTo_of address hash (result res) in
        match result res with
        | [] => throw TypeError
        | first :: _ =>
            if (tx_to first =? address)%string then
              ret (Some (tx_from first, latestTo))
            else
              r' <- explorer_loop (fetchAccountInternalTxs address chainId 1)
                                  maxRetries ;;
              match r' with
              | None => ret None
              | Some res' =>
                  match result res' with
                  | [] => throw TypeError
                  | first' :: _ => ret (Some (tx_from first', latestTo))
                  end
              end
        end
    end.

(** The answer of the source-code endpoint is the list of the
    [SourceCode] fields. *)
Definition getSourceCode (address : string) (chainId : Z) : M string :=
  r <- explorer_loop (fetchSourceCode address chainId) maxRetries ;;
  match r with
  | None => ret ""
  | Some res =>
      match result res with
      | [] => throw TypeError
      | SourceCode :: _ => ret SourceCode
      end
  end.

Definition getNumberOfLogs (address : string) (blockNumber chainId : Z)
  : M Z :=
  r <- explorer_loop (fetchLogs address blockNumber chainId) maxRetries ;;
  match r with
  | None => ret 10
  | Some res => ret (Z.of_nat (List.length (result res)))
  end.

Definition isValueUnique (address : string) (chainId : Z)
    (hash value : string) : M bool :=
  r <- explorer_loop (fetchAccount address chainId 100) maxRetries ;;
  match r with
  | None => ret false
  | Some res =>
      ret (negb (existsb (fun tx =>
                            negb (tx_hash tx =? hash)%string
                            && (tx_value tx =? value)%string)
                         (result res)))
  end.

End DataFetcher.

(** ** The operations of a [DataFetcher], as data

    [getFunctions] and [getEvents] only decode bytecode with the [evm]
    package; they issue no remote call and touch no cache, and are left
    out. *)
Inductive Op :=
| GetCode (address : string)
| GetStorageSlot (address : string) (slot blockNumber : Z)
| IsEoa (address : string)
| GetLabel (address : string) (chainId : Z)
| GetNonce (address : string)
| GetSignature (bytes : string)
| GetAddressInfo (txTo txFrom : string) (chainId : Z) (hash : string)
| HaveInteractedAgain (attacker : string) (victims : list string) (chainId : Z)
| HaveInteractedWithSameAddress (attacker : string) (victims : list string)
                                (chainId : Z)
| IsRecentlyInvolvedInTransfer (address hash : string) (chainId blockNumber : Z)
| HasValidEntries (address : string) (chainId : Z) (hash : string)
| GetAddresses (address : string) (chainId : Z) (hash : string)
| GetSourceCode (address : string) (chainId : Z)
| GetNumberOfLogs (address : string) (blockNumber chainId : Z)
| GetOwner (address : string) (block : Z)
| IsValueUnique (address : string) (chainId : Z) (hash value : string).

Definition is_GetSignature (op : Op) : bool :=
  match op with GetSignature _ => true | _ => false end.

Definition is_GetOwner (op : Op) : bool :=
  match op with GetOwner _ _ => true | _ => false end.

Definition is_thrown {A} (c : Completion A) : bool :=
  match c with Thrown _ => true | Normal _ => false end.

(** Running a method for its effect on the world. *)
Definition discard {A} (m : M A) : M unit := bind m (fun _ => ret tt).

Section Exec.
Variable env : Env.
Variables toTxCountThreshold fromTxCountThreshold : Z.
Variable parseInt : string -> option Z.

Definition exec (op : Op) : M unit :=
  match op with
  | GetCode a => discard (getCode env a)
  | GetStorageSlot a s b => discard (getStorageSlot env a s b)
  | IsEoa a => discard (isEoa env a)
  | GetLabel a c => discard (getLabel env a c)
  | GetNonce a => discard (getNonce env a)
  | GetSignature b => discard (getSignature env b)
  | GetAddressInfo t f c h =>
      discard (getAddressInfo env toTxCountThreshold t f c h)
  | HaveInteractedAgain a vs c => discard (haveInteractedAgain env a vs c)
  | HaveInteractedWithSameAddress a vs c =>
      discard (haveInteractedWithSameAddress env a vs c)
  | IsRecentlyInvolvedInTransfer a h c b =>
      discard (isRecentlyInvolvedInTransfer env parseInt a h c b)
  | HasValidEntries a c h =>
      discard (hasValidEntries env toTxCountThreshold a c h)
  | GetAddresses a c h => discard (getAddresses env fromTxCountThreshold a c h)
  | GetSourceCode a c => discard (getSourceCode env a c)
  | GetNumberOfLogs a b c => discard (getNumberOfLogs env a b c)
  | GetOwner a b => discard (getOwner env a b)
  | IsValueUnique a c h v => discard (isValueUnique env a c h v)
  end.

(** A sequence of operations on one instance; an exception ends one
    operation, not the process. *)
Fixpoint exec_all (ops : list Op) (w : World) : World :=
  match ops with
  | [] => w
  | op :: ops' => exec_all ops' (snd (exec op w))
  end.

End Exec.

(** ** Failed calls *)

Definition is_err {A} (o : Outcome A) : bool :=
  match o with Err _ => true | Ok _ => false end.

(** An explorer attempt fails by rejection or by a soft-failure message. *)
Definition attempt_failed {A} (o : Outcome (Response A)) : bool :=
  match o with
  | Err _ => true
  | Ok res => soft_failure (message res)
  end.

(** Did the [n]-th remote call fail, if it was the request [r]? *)
Definition failed_call (env : Env) (n : nat) (r : Request) : bool :=
  match r with
  | ProviderGetCode a => is_err (provider_getCode env n a)
  | ProviderGetStorageAt a s b => is_err (provider_getStorageAt env n a s b)
  | ProviderGetTransactionCount a =>
      is_err (provider_getTransactionCount env n a)
  | ContractOwner a b => is_err (contract_owner env n a b)
  | ContractGetOwner a b => is_err (contract_getOwner env n a b)
  | FetchText url => is_err (fetch_text env n url)
  | FetchLabels url => is_err (fetch_labels env n url)
  | FetchAccount a c o => attempt_failed (fetch_account env n a c o)
  | FetchAccountInternalTxs a c o =>
      attempt_failed (fetch_internalTxs env n a c o)
  | FetchSourceCode a c => attempt_failed (fetch_sourceCode env n a c)
  | FetchLogs a b c => attempt_failed (fetch_logs env n a b c)
  end.

(** Every remote call of the trace [t] issued as call number [n0] or later
    failed. *)
Fixpoint failed_since (env : Env) (n0 : nat) (t : list Event) : Prop :=
  match t with
  | [] => True
  | Remote r :: t' =>
      ((n0 <= calls_in t')%nat -> failed_call env (calls_in t') r = true)
      /\ failed_since env n0 t'
  | Sleep _ :: t' => failed_since env n0 t'
  end.

(** An operation ran into exhaustion: it issued at least one remote call and
    all the calls it issued failed. *)
Definition exhausted (env : Env) (w w' : World) : Prop :=
  (calls w < calls w')%nat /\ failed_since env (calls w) (trace w').

(** ** What an exhausted operation is expected to have done *)

(** Three attempts in a row, and three attempts each followed by a one-second
    timer (newest event first). *)
Definition three (r : Request) : list Event :=
  [Remote r; Remote r; Remote r].

Definition three_spaced (r : Request) : list Event :=
  [Sleep 1000; Remote r; Sleep 1000; Remote r; Sleep 1000; Remote r].


(** The events of one round over [pending] (newest first): one fetch per
    victim, none for a chain id without configuration. *)
Definition round_events (env : Env) (chainId : Z) (pending : list string)
  : list Event :=
  if etherscanApis env chainId then
    map (fun v => Remote (FetchAccount v chainId (100 + 1))) (rev pending)
  else [].

(** The usable answer of an attempt. *)
Definition answer {A} (o : Outcome (Response A)) : option (Response A) :=
  match o with Ok res => Some res | Err _ => None end.

(** The world after [evs] (newest first) happened. *)
Definition after (evs : list Event) (w : World) : World :=
  with_trace (evs ++ trace w) w.

(** The world after [a] was added to the error collector. *)
Definition add_error (a : ErrorAlert) (w : World) : World :=
  with_ErrorCache (ErrorCache w ++ [a]) w.

(** The record that the final failed attempt of [source] leaves. *)
Definition alert_of (source : string) (err : Error) : ErrorAlert :=
  createErrorAlert (err_toString err) source (util_inspect err).

(** The URL that [getSignature] fetches. *)
Definition signature_url (bytes : string) : string :=
  signatureDbUrl ++ substring 2 8 bytes.

(** The first label of a label-service answer, or [""]. *)
Definition first_label (events : list string) : string :=
  match events with [] => "" | label :: _ => label end.

(** ** The uniform retry policy, as a check on a run *)






(** ** Sample remote sides *)

Definition timeout_error : Error :=
  mkError "Error: timeout" "Error: timeout at fetch".

(** Nothing answers. *)
Definition env_down : Env :=
  mkEnv (fun _ _ => Err timeout_error)
        (fun _ _ _ _ => Err timeout_error)
        (fun _ _ => Err timeout_error)
        (fun _ _ _ => Err timeout_error)
        (fun _ _ _ => Err timeout_error)
        (fun _ _ => Err timeout_error)
        (fun _ _ => Err timeout_error)
        (fun _ => true)
        (fun _ _ _ _ => Err timeout_error)
        (fun _ _ _ _ => Err timeout_error)
        (fun _ _ _ => Err timeout_error)
        (fun _ _ _ _ => Err timeout_error).

(** A [parseInt] for the examples: decimal digits only. *)
Definition parseInt_digits (s : string) : option Z :=
  match NilEmpty.uint_of_string s with
  | Some d => match s with
              | EmptyString => None
              | _ => Some (Z.of_uint d)
              end
  | None => None
  end.

(** The calls number [n], [n + 1] and [n + 2] all reject, the last one with
    [e]. *)
Definition fails_thrice {A} (oracle : nat -> Outcome A) (n : nat) (e : Error)
  : Prop :=
  is_err (oracle n) = true
  /\ is_err (oracle (S n)) = true
  /\ oracle (S (S n)) = Err e.

(** The explorer attempts number [n], [n + 1] and [n + 2] all fail, by
    rejection or by a soft-failure message. *)
Definition attempts_fail {A} (oracle : nat -> Outcome (Response A)) (n : nat)
  : Prop :=
  attempt_failed (oracle n) = true
  /\ attempt_failed (oracle (S n)) = true
  /\ attempt_failed (oracle (S (S n))) = true.

(** ** Where cached values come from *)

(** The [n]-th remote call of the trace [t] was the request [r]. *)
Definition issued (t : list Event) (n : nat) (r : Request) : Prop :=
  exists t1 t2, t = (t1 ++ Remote r :: t2)%list /\ calls_in t2 = n.

(** Between [w] and [w'] the request [r] was issued, and every call issued
    for it failed: its retries ran out, whatever the other requests of the
    operation did. *)
Definition gave_up (env : Env) (w w' : World) (r : Request) : Prop :=
  (exists n, (calls w <= n)%nat /\ issued (trace w') n r)
  /\ forall n,
      (calls w <= n)%nat -> issued (trace w') n r ->
      failed_call env n r = true.

(** A code that [getCode] keeps: truthy and different from ["0x"]. *)
Definition cacheable_code (c : string) : bool :=
  truthy c && negb (c =? "0x")%string.

(** A signature text that [getSignature] keeps. *)
Definition cacheable_signature (s : string) : bool :=
  truthy s && negb (prefix "404" s).

(** Every cached code is the answer of a call that succeeded. *)
Definition code_sound (env : Env) (w : World) : Prop :=
  forall a c,
    LRU.peek a (codeCache w) = Some c ->
    cacheable_code c = true
    /\ exists n, issued (trace w) n (ProviderGetCode a)
                 /\ provider_getCode env n a = Ok c.

(** Every cached flag was computed from a code that a call returned. *)
Definition eoa_sound (env : Env) (w : World) : Prop :=
  forall a b,
    LRU.peek a (eoaCache w) = Some b ->
    exists n c, issued (trace w) n (ProviderGetCode a)
                /\ provider_getCode env n a = Ok c
                /\ truthy c = true
                /\ b = (c =? "0x")%string.

(** Every cached nonce is the answer of a call that succeeded. *)
Definition nonce_sound (env : Env) (w : World) : Prop :=
  forall a v,
    LRU.peek a (nonceCache w) = Some v ->
    exists n, issued (trace w) n (ProviderGetTransactionCount a)
              /\ provider_getTransactionCount env n a = Ok v.

(** Every cached signature is the text that a fetch returned. *)
Definition function_sound (env : Env) (w : World) : Prop :=
  forall b s,
    LRU.peek b (functionCache w) = Some s ->
    cacheable_signature s = true
    /\ exists n, issued (trace w) n (FetchText (signature_url b))
                 /\ fetch_text env n (signature_url b) = Ok s.

(** Every cached owner is the answer of [owner()] or of [getOwner()]. *)
Definition owner_sound (env : Env) (w : World) : Prop :=
  forall k v,
    LRU.peek k (ownerCache w) = Some v ->
    exists n a b,
      k = owner_key a b
      /\ ((issued (trace w) n (ContractOwner a b)
           /\ contract_owner env n a b = Ok v)
          \/ (issued (trace w) n (ContractGetOwner a b)
              /\ contract_getOwner env n a b = Ok v)).

(** What [ownerCache] holds in fact: an answer, or [""] recorded after both
    accessors failed. *)
Definition owner_recorded (env : Env) (w : World) : Prop :=
  forall k v,
    LRU.peek k (ownerCache w) = Some v ->
    exists n a b,
      k = owner_key a b
      /\ ((issued (trace w) n (ContractOwner a b)
           /\ contract_owner env n a b = Ok v)
          \/ (issued (trace w) n (ContractGetOwner a b)
              /\ contract_getOwner env n a b = Ok v)
          \/ (v = ""%string
              /\ issued (trace w) n (ContractOwner a b)
              /\ is_err (contract_owner env n a b) = true
              /\ issued (trace w) (S n) (ContractGetOwner a b)
              /\ is_err (contract_getOwner env (S n) a b) = true)).

(** The four caches that take part in the retry loops. *)
Definition caches_sound (env : Env) (w : World) : Prop :=
  code_sound env w /\ eoa_sound env w /\ nonce_sound env w
  /\ function_sound env w.

(** The world changed at most in its trace and in its error collector. *)
Definition quiet (w w' : World) : Prop :=
  eoaCache w' = eoaCache w
  /\ codeCache w' = codeCache w
  /\ functionCache w' = functionCache w
  /\ nonceCache w' = nonceCache w
  /\ ownerCache w' = ownerCache w
  /\ exists evs, trace w' = (evs ++ trace w)%list.

(** The caches hold what the code records in them. *)
Definition recorded (env : Env) (w : World) : Prop :=
  caches_sound env w /\ owner_recorded env w.

(** The explorer attempt number [n + k] is the first usable one, and it
    answers [res]. *)
Definition fetched_at {A} (oracle : nat -> Outcome (Response A)) (n k : nat)
    (res : Response A) : Prop :=
  (k < 3)%nat
  /\ (forall j, (j < k)%nat -> attempt_failed (oracle (n + j)%nat) = true)
  /\ oracle (n + k)%nat = Ok res
  /\ soft_failure (message res) = false.

(** Everything answers at once: the provider with [code], the explorer (for
    chain 1 only) with the history of the address. *)
Definition env_answering (code : string) (history : string -> list Tx) : Env :=
  mkEnv (fun _ _ => Ok code)
        (fun _ _ _ _ => Ok "0x00")
        (fun _ _ => Ok 7)
        (fun _ _ _ => Ok "0xowner")
        (fun _ _ _ => Ok "0xowner")
        (fun _ _ => Ok "transfer(address,uint256)")
        (fun _ _ => Ok ["exchange"])
        (fun c => c =? 1)
        (fun _ a _ _ => Ok (mkResponse "OK" (history a)))
        (fun _ a _ _ => Ok (mkResponse "OK" (history a)))
        (fun _ _ _ => Ok (mkResponse "OK" ["contract C {}"]))
        (fun _ _ _ _ => Ok (mkResponse "OK" (repeat "log" 10))).

Definition no_history (address : string) : list Tx := [].

(** ** Victims and their counterparties *)

(** The counterparties that the code keeps for a victim with history
    [hist victim]. *)
Definition counterparties (attacker : string) (hist : string -> list Tx)
    (victim : string) : list string :=
  uniq (toAddresses_of attacker victim (hist victim)).

(** Is [x] a counterparty of [victim]? *)
Definition shares (attacker : string) (hist : string -> list Tx) (x : string)
    (victim : string) : bool :=
  includes x (toAddresses_of attacker victim (hist victim)).

(** The number of distinct victims that have [x] as a counterparty. *)
Definition sharers (attacker : string) (hist : string -> list Tx)
    (victims : list string) (x : string) : nat :=
  List.length (filter (shares attacker hist x) (uniq victims)).





(** Every victim's first fetch succeeds and answers the victim's history.
    The first fetches are issued one after the other before anything else
    happens: they are the calls number [n], [n + 1], ... *)
Inductive all_fetched (env : Env) (chainId : Z) (hist : string -> list Tx)
  : list string -> nat -> Prop :=
| all_fetched_nil n : all_fetched env chainId hist [] n
| all_fetched_cons victim victims n res :
    fetch_account env n victim chainId (100 + 1) = Ok res ->
    soft_failure (message res) = false ->
    result res = hist victim ->
    all_fetched env chainId hist victims (S n) ->
    all_fetched env chainId hist (victim :: victims) n.

(** [victimInteractions] once every victim is fetched. *)
Definition interactions_of (attacker : string) (hist : string -> list Tx)
    (victims : list string) (start : Obj (list string)) : Obj (list string) :=
  fold_left (fun vi v => obj_set v (counterparties attacker hist v) vi)
            victims start.

(** Every list of the frequency map is duplicate-free and names victims of
    [vi] that have the key among their addresses. *)
Definition frequencyMap_sound (vi fm : Obj (list string)) : Prop :=
  forall x l,
    In (x, l) fm ->
    NoDup l /\ forall v, In v l -> exists tos, In (v, tos) vi /\ In x tos.

(** A history of four transfers to [address] from four senders, the second
    of value ["0"]. *)
Definition sample_history (address : string) : list Tx :=
  [ mkTx "0xh0" "0xa" address "5" "10";
    mkTx "0xh1" "0xb" address "0" "11";
    mkTx "0xh2" "0xc" address "7" "12";
    mkTx "0xh3" "0xd" address "9" "13" ].

(** Four victims: ["0xv1"] and ["0xv2"] both sent to ["0xmixer"], the others
    sent to nobody else. *)
Definition victims_history (victim : string) : list Tx :=
  if (victim =? "0xv1")%string then
    [mkTx "0xt1" victim "0xmixer" "1" "20"]
  else if (victim =? "0xv2")%string then
    [mkTx "0xt2" victim "0xmixer" "2" "21"]
  else [].

(** Every victim sent to an address of their own. *)
Definition apart_history (victim : string) : list Tx :=
  [mkTx "0xt" victim ("0xto-" ++ victim) "1" "20"].

(** * The large-position bot

    [Alpaca-Finance-Agents/Large-Position-Alert/src/agent.ts]. The event
    arguments are [uint256] values; the code reads them through [parseInt],
    that is through a double-precision number. *)
Module LargePosition.

(** The integer value of the double nearest to the integer [z], ties to
    even: what a numeric literal denotes, and what [parseInt] returns on the
    decimal digits of [z]. Meant for [|z| < 2^1024], beyond which the number
    is [Infinity]. *)
Definition Number_of_Z (z : Z) : Z :=
  let n := Z.abs z in
  let e := Z.log2 n in
  if e <? 53 then z
  else
    let ulp := 2 ^ (e - 52) in
    let q := n / ulp in
    let r := n mod ulp in
    let q' := if 2 * r <? ulp then q
              else if ulp <? 2 * r then q + 1
              else if Z.even q then q else q + 1 in
    Z.sgn z * (q' * ulp).

(** [parseInt(x)] for an ethers [BigNumber] [x]: its decimal string, read
    back as a number. *)
Definition parseInt_BigNumber (x : Z) : Z := Number_of_Z x.

(** [BigInt(n)] for a number [n] that is an integer. *)
Definition BigInt (n : Z) : Z := n.

(** [String.prototype.toLowerCase] on ASCII letters. *)
Definition lower (c : ascii) : ascii :=
  let n := nat_of_ascii c in
  if ((65 <=? n) && (n <=? 90))%nat then ascii_of_nat (n + 32) else c.

Fixpoint toLowerCase (s : string) : string :=
  match s with
  | EmptyString => EmptyString
  | String c s' => String (lower c) (toLowerCase s')
  end.

(** [new Map(entries)]: later entries replace earlier ones of the same
    key. *)
Definition new_Map {V} (entries : list (string * V)) : Obj V :=
  fold_left (fun m kv => obj_set (fst kv) (snd kv) m) entries [].

Definition Map_get {V} (k : string) (m : Obj V) : option V := obj_get k m.

Definition VAULTS_MAP : Obj Z :=
  new_Map
    [ (toLowerCase "0x7C9e73d4C71dae564d41F78d56439bB4ba87592f",
       BigInt (Number_of_Z 100000000000000000000000));
      (toLowerCase "0xbfF4a34A4644a113E8200D7F1D79b3555f723AfE",
       BigInt (Number_of_Z 30000000000000000000));
      (toLowerCase "0x08FC9Ba2cAc74742177e0afC3dC8Aed6961c24e7",
       BigInt (Number_of_Z 3000000000000000000));
      (toLowerCase "0x08FC9Ba2cAc74742177e0afC3dC8Aed6961c24e7",
       BigInt (Number_of_Z 100000000000000000000000));
      (toLowerCase "0xf1bE8ecC990cBcb90e166b71E368299f0116d421",
       BigInt (Number_of_Z 200000000000000000000000));
      (toLowerCase "0x3282d2a151ca00BfE7ed17Aa16E42880248CD3Cd",
       BigInt (Number_of_Z 100000000000000000000000)) ].

(** A decoded [Work(uint256 id, uint256 loan)] log, as [txEvent.filterLog]
    returns it. *)
Record WorkEvent := mkWork {
  address : string;
  args_id : Z;
  args_loan : Z
}.

Inductive FindingSeverity :=
| SeverityUnknown | SeverityInfo | SeverityLow | SeverityMedium
| SeverityHigh | SeverityCritical.

Inductive FindingType :=
| TypeUnknown | TypeExploit | TypeSuspicious | TypeDegraded | TypeInfo.

(** The metadata of a finding, kept as the values whose [toString()] the
    code stores. *)
Record Metadata := mkMetadata {
  positionId : Z;
  loanAmount : Z;
  vault : string
}.

Record Finding := mkFinding {
  name : string;
  description : string;
  alertId : string;
  severity : FindingSeverity;
  type : FindingType;
  metadata : Metadata
}.

Definition createFinding (posId loanAmount : Z) (vaultAddress : string)
  : Finding :=
  mkFinding "Large Position Event" "Large Position Has Been Taken" "ALPACA-1"
            SeverityInfo TypeInfo
            (mkMetadata posId loanAmount vaultAddress).

(** A [bigint] is truthy when it is not zero. *)
Definition truthy_bigint (n : Z) : bool := negb (n =? 0).

(** The body of the [for] loop for one event: the findings it pushes. *)
Definition handleWorkEvent (vaultsMap : Obj Z) (ev : WorkEvent)
  : list Finding :=
  match Map_get (address ev) vaultsMap with
  | Some vaultThreshold =>
      if truthy_bigint vaultThreshold
         && (vaultThreshold <? BigInt (parseInt_BigNumber (args_loan ev)))
      then [createFinding (parseInt_BigNumber (args_id ev))
                          (BigInt (parseInt_BigNumber (args_loan ev)))
                          (address ev)]
      else []
  | None => []
  end.

(** [provideHandleTransaction(vaultsMap)], applied to the Work events of a
    transaction. *)
Definition provideHandleTransaction (vaultsMap : Obj Z)
    (workEvents : list WorkEvent) : list Finding :=
  flat_map (handleWorkEvent vaultsMap) workEvents.

(** The default export. *)
Definition handleTransaction : list WorkEvent -> list Finding :=
  provideHandleTransaction VAULTS_MAP.

(** The BUSD vault and the ETH vault, as the log addresses spell them. *)
Definition busd_vault : string :=
  "0x7c9e73d4c71dae564d41f78d56439bb4ba87592f".

Definition eth_vault : string :=
  "0xbff4a34a4644a113e8200d7f1d79b3555f723afe".

End LargePosition.

(** * Further notions used in the properties of the fetcher *)

(** The operations with a [throw] or an unchecked [result.result[0]] on some
    path. *)
Definition may_throw (op : Op) : bool :=
  match op with
  | GetSignature _ | GetAddresses _ _ _ | GetSourceCode _ _ => true
  | _ => false
  end.

(** The operations in which every remote call and every use of its answer
    stand inside a [try] whose [catch] does not throw. The explorer-backed
    methods are not among them: they read [result.result] after the loop,
    outside the [try]. *)
Definition guarded (op : Op) : bool :=
  match op with
  | GetCode _ | GetStorageSlot _ _ _ | IsEoa _ | GetLabel _ _ | GetNonce _
  | GetOwner _ _ => true
  | _ => false
  end.

(** A computation that completes normally in every world. *)
Definition never_throws {A} (m : M A) : Prop :=
  forall w, is_thrown (fst (m w)) = false.

(** From [w] to [w']: at most [c] remote calls and [s] timers more, and at
    most [e] records appended to the error collector. *)
Definition spends (c s e : nat) (w w' : World) : Prop :=
  (calls w' <= calls w + c)%nat
  /\ (sleeps w' <= sleeps w + s)%nat
  /\ exists added,
      ErrorCache w' = (ErrorCache w ++ added)%list
      /\ (List.length added <= e)%nat.

(** The most remote calls, timers and error records of one operation. *)
Definition calls_budget (op : Op) : nat :=
  match op with
  | GetOwner _ _ => 2
  | GetAddresses _ _ _ => 6
  | HaveInteractedWithSameAddress _ vs _ => 3 * List.length vs
  | _ => 3
  end.

Definition sleeps_budget (op : Op) : nat :=
  match op with
  | GetCode _ | IsEoa _ | GetStorageSlot _ _ _ | GetNonce _ | GetLabel _ _ => 3
  | GetSignature _ => 2
  | _ => 0
  end.

Definition errors_budget (op : Op) : nat :=
  match op with
  | GetCode _ | IsEoa _ | GetStorageSlot _ _ _ | GetNonce _ => 1
  | _ => 0
  end.

(** The explorer answers every query of chain 1 at once, with an empty
    result. *)
Definition env_empty : Env :=
  mkEnv (fun _ _ => Ok "0x")
        (fun _ _ _ _ => Ok "0x00")
        (fun _ _ => Ok 0)
        (fun _ _ _ => Ok "0xowner")
        (fun _ _ _ => Ok "0xowner")
        (fun _ _ => Ok "404: Not Found")
        (fun _ _ => Ok [])
        (fun c => c =? 1)
        (fun _ _ _ _ => Ok (mkResponse "OK" []))
        (fun _ _ _ _ => Ok (mkResponse "OK" []))
        (fun _ _ _ => Ok (mkResponse "OK" []))
        (fun _ _ _ _ => Ok (mkResponse "OK" [])).

(** Which caches an operation is written to use. *)
Definition uses_eoaCache (op : Op) : bool :=
  match op with IsEoa _ => true | _ => false end.

Definition uses_codeCache (op : Op) : bool :=
  match op with GetCode _ | IsEoa _ => true | _ => false end.

Definition uses_functionCache (op : Op) : bool :=
  match op with GetSignature _ => true | _ => false end.

Definition uses_nonceCache (op : Op) : bool :=
  match op with GetNonce _ => true | _ => false end.

Definition uses_ownerCache (op : Op) : bool :=
  match op with GetOwner _ _ => true | _ => false end.

(** The provider call number [n + k] is the first that resolves, with
    [a]. *)
Definition answered_at {A} (oracle : nat -> Outcome A) (n k : nat) (a : A)
  : Prop :=
  (k < 3)%nat
  /\ (forall j, (j < k)%nat -> is_err (oracle (n + j)%nat) = true)
  /\ oracle (n + k)%nat = Ok a.

(** The provider fails once and then answers with [code]. *)
Definition env_flaky (code : string) : Env :=
  mkEnv (fun n _ => match n with O => Err timeout_error | _ => Ok code end)
        (fun n _ _ _ => match n with O => Err timeout_error | _ => Ok code end)
        (fun n _ => match n with O => Err timeout_error | _ => Ok 7 end)
        (fun _ _ _ => Err timeout_error)
        (fun _ _ _ => Ok "0xowner")
        (fun n _ => match n with
                    | O => Err timeout_error
                    | _ => Ok "transfer(address,uint256)"
                    end)
        (fun _ _ => Ok ["exchange"])
        (fun c => c =? 1)
        (fun n _ _ _ => match n with
                        | O => Ok (mkResponse "NOTOK" [])
                        | _ => Ok (mkResponse "OK" [])
                        end)
        (fun _ _ _ _ => Ok (mkResponse "OK" []))
        (fun _ _ _ => Ok (mkResponse "OK" ["contract C {}"]))
        (fun n _ _ _ => match n with
                        | O => Ok (mkResponse "Query Timeout" [])
                        | _ => Ok (mkResponse "OK" ["log"; "log"])
                        end).

(** The number of transactions of a history that [victim] sent to
    [attacker]. *)
Definition transfers (attacker victim : string) (txs : list Tx) : nat :=
  List.length
    (filter (fun tx => (tx_to tx =? attacker)%string
                       && (tx_from tx =? victim)%string) txs).

(** The three entries before index [i]. *)
Definition window (i : nat) (entries : list Tx) : list Tx :=
  slice (i - 3) i entries.

(** The attacker's history: ["0xv1"] sent twice, ["0xv2"] once. *)
Definition attacker_history (attacker : string) : list Tx :=
  [ mkTx "0xa1" "0xv1" attacker "1" "5";
    mkTx "0xa2" "0xv2" attacker "1" "6";
    mkTx "0xa3" "0xv1" attacker "2" "7" ].

(** The explorer answers every query for a victim of chain [chainId] with
    the victim's history, whenever it is asked. *)
Definition stable_histories (env : Env) (chainId : Z)
    (hist : string -> list Tx) : Prop :=
  forall n victim,
    exists res,
      fetch_account env n victim chainId (100 + 1) = Ok res
      /\ soft_failure (message res) = false
      /\ result res = hist victim.

(** The rounding of a quotient [q] by its remainder [r] out of [u]: to the
    nearest, ties to even. *)
Definition round_quotient (q r u : Z) : Z :=
  if 2 * r <? u then q
  else if u <? 2 * r then q + 1
  else if Z.even q then q else q + 1.

(** The spacing of the doubles around [n >= 0]: nothing below [2^53], where
    every integer is a double. *)
Definition ulp (n : Z) : Z :=
  if Z.log2 n <? 53 then 0 else 2 ^ (Z.log2 n - 52).

(** * The admin-operations bot

    [PancakeSwap-Bots/Auto-CAKE-Admin-Operations/src/function.call.listener.ts].
    A decoded call carries its arguments as the object [args]; it is kept
    here as the list of its own keys, in the order of [Object.keys], each
    with [args[key].toString()]. *)
Module FunctionCallListener.


(** The finding built by [createFunctionFinding(name, description,
    metadata)] of [./findings], kept as its three arguments. *)
Record Finding := createFunctionFinding {
  finding_name : string;
  finding_description : string;
  finding_metadata : Obj string
}.





End FunctionCallListener.

(** * Further sample remote sides *)

(** An address that has no code when first asked and bytecode afterwards;
    nothing else answers. *)
Definition env_deploying : Env :=
  mkEnv (fun n _ => match n with O => Ok "0x" | S _ => Ok "0x6080" end)
        (fun _ _ _ _ => Err timeout_error)
        (fun _ _ => Err timeout_error)
        (fun _ _ _ => Err timeout_error)
        (fun _ _ _ => Err timeout_error)
        (fun _ _ => Err timeout_error)
        (fun _ _ => Err timeout_error)
        (fun _ => true)
        (fun _ _ _ _ => Err timeout_error)
        (fun _ _ _ _ => Err timeout_error)
        (fun _ _ _ => Err timeout_error)
        (fun _ _ _ _ => Err timeout_error).

(** The explorer answers the transaction list of an address with [history]
    and rejects every query for internal transactions. *)
Definition env_no_internalTxs (history : string -> list Tx) : Env :=
  mkEnv (fun _ _ => Err timeout_error)
        (fun _ _ _ _ => Err timeout_error)
        (fun _ _ => Err timeout_error)
        (fun _ _ _ => Err timeout_error)
        (fun _ _ _ => Err timeout_error)
        (fun _ _ => Err timeout_error)
        (fun _ _ => Err timeout_error)
        (fun _ => true)
        (fun _ a _ _ => Ok (mkResponse "OK" (history a)))
        (fun _ _ _ _ => Err timeout_error)
        (fun _ _ _ => Err timeout_error)
        (fun _ _ _ _ => Err timeout_error).

(** A history whose first transaction was sent by [address]. *)
Definition outgoing_history (address : string) : list Tx :=
  [mkTx "0xh0" address "0xshop" "5" "10"].

(** The explorer has no transactions for [victim], which it reports by its
    message, and answers every other address with its history. *)
Definition env_without (victim : string) (history : string -> list Tx) : Env :=
  mkEnv (fun _ _ => Err timeout_error)
        (fun _ _ _ _ => Err timeout_error)
        (fun _ _ => Err timeout_error)
        (fun _ _ _ => Err timeout_error)
        (fun _ _ _ => Err timeout_error)
        (fun _ _ => Err timeout_error)
        (fun _ _ => Err timeout_error)
        (fun _ => true)
        (fun _ a _ _ =>
           if (a =? victim)%string
           then Ok (mkResponse "No transactions found" [])
           else Ok (mkResponse "OK" (history a)))
        (fun _ _ _ _ => Err timeout_error)
        (fun _ _ _ => Err timeout_error)
        (fun _ _ _ _ => Err timeout_error).


(** A well-formed 20-byte address. *)
Definition sample_contract : string :=
  "0x7c9e73d4c71dae564d41f78d56439bb4ba87592f".

(** * Properties *)

Local Open Scope list_scope.

(** ** Unfolding the monad *)

Lemma bind_normal {A B} (m : M A) (k : A -> M B) w a w' :
  m w = (Normal a, w') -> bind m k w = k a w'.
Proof. intros H. unfold bind. rewrite H. reflexivity. Qed.

Lemma bind_thrown {A B} (m : M A) (k : A -> M B) w e w' :
  m w = (Thrown e, w') -> bind m k w = (Thrown e, w').
Proof. intros H. unfold bind. rewrite H. reflexivity. Qed.

Lemma discard_fst {A} (m : M A) w :
  is_thrown (fst (discard m w)) = is_thrown (fst (m w)).
Proof.
  unfold discard, bind. destruct (m w) as [[a | e] w']; reflexivity.
Qed.

Lemma discard_snd {A} (m : M A) w : snd (discard m w) = snd (m w).
Proof.
  unfold discard, bind. destruct (m w) as [[a | e] w']; reflexivity.
Qed.

(** ** The trace only grows *)

Lemma calls_in_app t1 t2 :
  calls_in (t1 ++ t2) = (calls_in t1 + calls_in t2)%nat.
Proof.
  induction t1 as [| [r | ms] t1 IH]; simpl; auto.
Qed.

Lemma sleeps_in_app t1 t2 :
  sleeps_in (t1 ++ t2) = (sleeps_in t1 + sleeps_in t2)%nat.
Proof.
  induction t1 as [| [r | ms] t1 IH]; simpl; auto.
Qed.

Lemma failed_since_app env n0 t1 t2 :
  failed_since env n0 (t1 ++ t2) -> failed_since env n0 t2.
Proof.
  induction t1 as [| [r | ms] t1 IH]; simpl; intuition.
Qed.

Lemma failed_since_head env n0 r t :
  failed_since env n0 (Remote r :: t) -> (n0 <= calls_in t)%nat ->
  failed_call env (calls_in t) r = true.
Proof. simpl. intuition. Qed.

(** ** The explorer loop in closed form *)

(** Case analysis on one explorer attempt: rejected, soft failure, usable. *)
Ltac attempt o :=
  destruct o as [?res | ?e] eqn:?; cbn;
  [ match goal with
    | |- context [soft_failure (message ?x)] =>
        destruct (soft_failure (message x)) eqn:?; cbn
    end
  | ].


Lemma explorer_loop_await {A} r (oracle : nat -> Outcome (Response A)) w :
  explorer_loop (await r oracle) maxRetries w =
  if attempt_failed (oracle (calls w)) then
    if attempt_failed (oracle (S (calls w))) then
      if attempt_failed (oracle (S (S (calls w)))) then
        (Normal None, after (three r) w)
      else (Normal (answer (oracle (S (S (calls w))))), after (three r) w)
    else (Normal (answer (oracle (S (calls w)))),
          after [Remote r; Remote r] w)
  else (Normal (answer (oracle (calls w))), after [Remote r] w).
Proof.
  unfold maxRetries, explorer_loop, bind, await, after, calls. cbn.
  attempt (oracle (calls_in (trace w))); try reflexivity;
    (attempt (oracle (S (calls_in (trace w)))); try reflexivity;
     (attempt (oracle (S (S (calls_in (trace w))))); reflexivity)).
Qed.

(** Without a configuration for the chain every attempt fails before any
    call. *)
Lemma explorer_loop_unconfigured {A} w :
  explorer_loop (A := A) (ret (Err TypeError)) maxRetries w = (Normal None, w).
Proof. reflexivity. Qed.

(** ** The provider loops in closed form *)

Lemma getCode_loop_cases env a w :
  getCode_loop env a maxTries w =
  let r := ProviderGetCode a in
  match provider_getCode env (calls w) a with
  | Ok c => (Normal (Some c), after [Remote r] w)
  | Err _ =>
      match provider_getCode env (S (calls w)) a with
      | Ok c => (Normal (Some c), after [Remote r; Sleep 1000; Remote r] w)
      | Err _ =>
          match provider_getCode env (S (S (calls w))) a with
          | Ok c =>
              (Normal (Some c),
               after [Remote r; Sleep 1000; Remote r; Sleep 1000; Remote r] w)
          | Err e =>
              (Normal None,
               add_error (alert_of "fetcher.getCode" e)
                         (after (three_spaced r) w))
          end
      end
  end.
Proof.
  unfold maxTries, getCode_loop, bind, await, after, calls. cbn.
  destruct (provider_getCode env (calls_in (trace w)) a); cbn;
    [reflexivity |].
  destruct (provider_getCode env (S (calls_in (trace w))) a); cbn;
    [reflexivity |].
  destruct (provider_getCode env (S (S (calls_in (trace w)))) a); cbn;
    reflexivity.
Qed.

(** In an exhausted run the newest call cannot have succeeded. *)
Ltac head_call_ok Hf :=
  unfold after, add_error, calls in *; cbn in Hf;
  destruct Hf as [Hf _];
  repeat match goal with
         | E : _ = Ok _ |- _ => rewrite E in Hf
         end;
  cbn in Hf;
  repeat match goal with
         | E : soft_failure _ = false |- _ => rewrite E in Hf
         end;
  specialize (Hf ltac:(lia)); discriminate Hf.


Lemma getStorageSlot_cases env a s b w :
  getStorageSlot env a s b w =
  let r := ProviderGetStorageAt a s b in
  match provider_getStorageAt env (calls w) a s b with
  | Ok v => (Normal (Some v), after [Remote r] w)
  | Err _ =>
      match provider_getStorageAt env (S (calls w)) a s b with
      | Ok v => (Normal (Some v), after [Remote r; Sleep 1000; Remote r] w)
      | Err _ =>
          match provider_getStorageAt env (S (S (calls w))) a s b with
          | Ok v =>
              (Normal (Some v),
               after [Remote r; Sleep 1000; Remote r; Sleep 1000; Remote r] w)
          | Err e =>
              (Normal None,
               add_error (alert_of "fetcher.getStorageSlot" e)
                         (after (three_spaced r) w))
          end
      end
  end.
Proof.
  unfold getStorageSlot, maxTries, getStorageSlot_loop, bind, await, after,
    calls. cbn.
  destruct (provider_getStorageAt env (calls_in (trace w)) a s b); cbn;
    [reflexivity |].
  destruct (provider_getStorageAt env (S (calls_in (trace w))) a s b); cbn;
    [reflexivity |].
  destruct (provider_getStorageAt env (S (S (calls_in (trace w)))) a s b);
    cbn; reflexivity.
Qed.

Lemma getNonce_loop_cases env a nonce w :
  getNonce_loop env a nonce maxTries w =
  let r := ProviderGetTransactionCount a in
  let cached n := with_nonceCache (LRU.set a n (nonceCache w)) in
  match provider_getTransactionCount env (calls w) a with
  | Ok n => (Normal n, cached n (after [Remote r] w))
  | Err _ =>
      match provider_getTransactionCount env (S (calls w)) a with
      | Ok n => (Normal n, cached n (after [Remote r; Sleep 1000; Remote r] w))
      | Err _ =>
          match provider_getTransactionCount env (S (S (calls w))) a with
          | Ok n =>
              (Normal n,
               cached n (after [Remote r; Sleep 1000; Remote r; Sleep 1000;
                                Remote r] w))
          | Err e =>
              (Normal nonce,
               add_error (alert_of "fetcher.getNonce" e)
                         (after (three_spaced r) w))
          end
      end
  end.
Proof.
  unfold maxTries, getNonce_loop, bind, await, after, calls. cbn.
  destruct (provider_getTransactionCount env (calls_in (trace w)) a); cbn;
    [reflexivity |].
  destruct (provider_getTransactionCount env (S (calls_in (trace w))) a); cbn;
    [reflexivity |].
  destruct (provider_getTransactionCount env (S (S (calls_in (trace w)))) a);
    cbn; reflexivity.
Qed.

Lemma getLabel_loop_cases env url w :
  getLabel_loop env url 3 w =
  let r := FetchLabels url in
  match fetch_labels env (calls w) url with
  | Ok events => (Normal (Some (first_label events)), after [Remote r] w)
  | Err _ =>
      match fetch_labels env (S (calls w)) url with
      | Ok events =>
          (Normal (Some (first_label events)),
           after [Remote r; Sleep 1000; Remote r] w)
      | Err _ =>
          match fetch_labels env (S (S (calls w))) url with
          | Ok events =>
              (Normal (Some (first_label events)),
               after [Remote r; Sleep 1000; Remote r; Sleep 1000; Remote r] w)
          | Err _ => (Normal None, after (three_spaced r) w)
          end
      end
  end.
Proof.
  unfold getLabel_loop, bind, await, after, calls. cbn.
  destruct (fetch_labels env (calls_in (trace w)) url); cbn; [reflexivity |].
  destruct (fetch_labels env (S (calls_in (trace w))) url); cbn;
    [reflexivity |].
  destruct (fetch_labels env (S (S (calls_in (trace w)))) url); cbn;
    reflexivity.
Qed.

Lemma getSignature_loop_cases env url w :
  getSignature_loop env url maxTries w =
  let r := FetchText url in
  match fetch_text env (calls w) url with
  | Ok t => (Normal (Some t), after [Remote r] w)
  | Err _ =>
      match fetch_text env (S (calls w)) url with
      | Ok t => (Normal (Some t), after [Remote r; Sleep 1000; Remote r] w)
      | Err _ =>
          match fetch_text env (S (S (calls w))) url with
          | Ok t =>
              (Normal (Some t),
               after [Remote r; Sleep 1000; Remote r; Sleep 1000; Remote r] w)
          | Err e =>
              (Thrown e,
               after [Remote r; Sleep 1000; Remote r; Sleep 1000; Remote r] w)
          end
      end
  end.
Proof.
  unfold maxTries, getSignature_loop, bind, await, after, calls. cbn.
  destruct (fetch_text env (calls_in (trace w)) url); cbn; [reflexivity |].
  destruct (fetch_text env (S (calls_in (trace w))) url); cbn;
    [reflexivity |].
  destruct (fetch_text env (S (S (calls_in (trace w)))) url); cbn;
    reflexivity.
Qed.

(** ** Exhausted runs, operation by operation *)





Lemma getSignature_exhausted env b w :
  exhausted env w (snd (getSignature env b w)) ->
  (exists e, fetch_text env (S (S (calls w))) (signature_url b) = Err e
             /\ fst (getSignature env b w) = Thrown e)
  /\ trace (snd (getSignature env b w))
     = [Remote (FetchText (signature_url b)); Sleep 1000;
        Remote (FetchText (signature_url b)); Sleep 1000;
        Remote (FetchText (signature_url b))] ++ trace w.
Proof.
  unfold exhausted, getSignature, bind, cache_has, cache_get.
  destruct (LRU.has b (functionCache w)).
  - unfold calls; cbn. lia.
  - fold (signature_url b). rewrite getSignature_loop_cases. cbv zeta.
    generalize (signature_url b) as url; intros url.
    destruct (fetch_text env (calls w) url) as [t |] eqn:E1;
      [destruct (truthy t && negb (prefix "404" t));
       intros [_ Hf]; head_call_ok Hf |].
    destruct (fetch_text env (S (calls w)) url) as [t |] eqn:E2;
      [destruct (truthy t && negb (prefix "404" t));
       intros [_ Hf]; head_call_ok Hf |].
    destruct (fetch_text env (S (S (calls w))) url)
      as [t | e3] eqn:E3;
      [destruct (truthy t && negb (prefix "404" t));
       intros [_ Hf]; head_call_ok Hf |].
    cbn. intros _. split; [exists e3 |]; auto.
Qed.











Lemma after_after evs1 evs2 w :
  after evs1 (after evs2 w) = after (evs1 ++ evs2) w.
Proof. unfold after. cbn. rewrite app_assoc. reflexivity. Qed.

Lemma after_nil w : after [] w = w.
Proof. destruct w; reflexivity. Qed.

Lemma calls_after evs w : calls (after evs w) = (calls_in evs + calls w)%nat.
Proof. unfold calls, after. cbn. apply calls_in_app. Qed.



(** ** The rounds of [haveInteractedWithSameAddress] *)

Lemma round_events_cons env c v p :
  round_events env c (v :: p) = round_events env c p ++ round_events env c [v].
Proof.
  unfold round_events. destruct (etherscanApis env c); [| reflexivity].
  cbn [rev]. rewrite map_app. reflexivity.
Qed.

Lemma round_events_nil env c : round_events env c [] = [].
Proof. unfold round_events. destruct (etherscanApis env c); reflexivity. Qed.

Lemma calls_round_events env c p :
  (calls_in (round_events env c p) <= List.length p)%nat.
Proof.
  induction p as [| v p IH].
  - rewrite round_events_nil. cbn. lia.
  - rewrite round_events_cons, calls_in_app. cbn [List.length].
    unfold round_events at 2. destruct (etherscanApis env c); cbn; lia.
Qed.

Lemma fetchAccount_victim env v c w :
  fetchAccount env v c 100 w
  = (Normal (if etherscanApis env c
             then fetch_account env (calls w) v c (100 + 1)
             else Err TypeError),
     after (round_events env c [v]) w).
Proof.
  unfold fetchAccount, round_events, await.
  destruct (etherscanApis env c); [reflexivity |].
  rewrite after_nil. reflexivity.
Qed.

(** One victim's attempt within a round. *)
Lemma fetch_round_cons env a c attempt v p flag vi w :
  fetch_round env a c attempt (v :: p) flag vi w
  = let w1 := after (round_events env c [v]) w in
    let retry :=
      if (attempt =? maxRetries)%nat then
        fetch_round env a c attempt p true vi
      else
        bind (fetch_round env a c attempt p flag vi)
             (fun st => ret (v :: fst st, snd st)) in
    match (if etherscanApis env c
           then fetch_account env (calls w) v c (100 + 1)
           else Err TypeError) with
    | Ok res =>
        if soft_failure (message res) then retry w1
        else fetch_round env a c attempt p flag
                         (obj_set v (uniq (toAddresses_of a v (result res)))
                                  vi) w1
    | Err _ => retry w1
    end.
Proof.
  cbn [fetch_round]. unfold bind at 1. rewrite fetchAccount_victim.
  cbv zeta.
  destruct (if etherscanApis env c
            then fetch_account env (calls w) v c (100 + 1)
            else Err TypeError) as [res | e];
    [destruct (soft_failure (message res)) |]; reflexivity.
Qed.

(** A round completes normally, adds the events of the round, hands on
    victims of the round only, and never resets the flag. *)
Lemma fetch_round_run env a c attempt p :
  forall flag vi w,
  exists retry flag' vi',
    fetch_round env a c attempt p flag vi w
    = (Normal (retry, (flag', vi')), after (round_events env c p) w)
    /\ (List.length retry <= List.length p)%nat
    /\ incl retry p
    /\ (flag = true -> flag' = true).
Proof.
  induction p as [| v p IH]; intros flag vi w.
  - exists [], flag, vi. rewrite round_events_nil, after_nil. cbn.
    repeat split; auto. apply incl_refl.
  - rewrite fetch_round_cons. cbv zeta.
    rewrite (round_events_cons env c v p), <- after_after.
    set (w1 := after (round_events env c [v]) w).
    assert (Hretry :
              exists retry flag' vi',
                (if (attempt =? maxRetries)%nat
                 then fetch_round env a c attempt p true vi
                 else bind (fetch_round env a c attempt p flag vi)
                           (fun st => ret (v :: fst st, snd st))) w1
                = (Normal (retry, (flag', vi')),
                   after (round_events env c p) w1)
                /\ (List.length retry <= List.length (v :: p))%nat
                /\ incl retry (v :: p)
                /\ (flag = true -> flag' = true)).
    { destruct (attempt =? maxRetries)%nat.
      - destruct (IH true vi w1) as (retry & f' & vi' & Heq & Hlen & Hin & Hf).
        exists retry, f', vi'. rewrite Heq. cbn [List.length].
        repeat split; auto. apply incl_tl. exact Hin.
      - destruct (IH flag vi w1) as (retry & f' & vi' & Heq & Hlen & Hin & Hf).
        exists (v :: retry), f', vi'. unfold bind. rewrite Heq.
        cbn [fst snd ret List.length]. repeat split; auto; [lia |].
        intros x [<- | Hx]; [left; reflexivity | right; apply Hin; exact Hx]. }
    destruct (if etherscanApis env c
              then fetch_account env (calls w) v c (100 + 1)
              else Err TypeError) as [res | e]; [| exact Hretry].
    destruct (soft_failure (message res)); [exact Hretry |].
    destruct (IH flag (obj_set v (uniq (toAddresses_of a v (result res))) vi)
                 w1) as (retry & f' & vi' & Heq & Hlen & Hin & Hf).
    exists retry, f', vi'. rewrite Heq. cbn [List.length].
    repeat split; auto. apply incl_tl. exact Hin.
Qed.

Lemma fetch_victims_nil env a c left :
  forall flag vi w,
    fetch_victims env a c left [] flag vi w = (Normal (flag, vi), w).
Proof.
  induction left as [| left IH]; intros flag vi w; [reflexivity |].
  cbn [fetch_victims fetch_round]. unfold bind, ret. cbn [fst snd].
  apply IH.
Qed.

Lemma fetch_victims_step env a c left p flag vi w retry flag' vi' w1 :
  fetch_round env a c (maxRetries - left) p flag vi w
  = (Normal (retry, (flag', vi')), w1) ->
  fetch_victims env a c (S left) p flag vi w
  = fetch_victims env a c left retry flag' vi' w1.
Proof.
  intros Heq. cbn [fetch_victims]. unfold bind. rewrite Heq. reflexivity.
Qed.

(** The rounds complete normally and only add events. *)
Lemma fetch_victims_run env a c left :
  forall p flag vi w,
  exists flag' vi' evs,
    fetch_victims env a c left p flag vi w
    = (Normal (flag', vi'), after evs w)
    /\ (calls_in evs <= left * List.length p)%nat
    /\ sleeps_in evs = 0%nat
    /\ (flag = true -> flag' = true).
Proof.
  induction left as [| left IH]; intros p flag vi w.
  - exists flag, vi, []. rewrite after_nil. cbn. auto.
  - destruct (fetch_round_run env a c (maxRetries - left) p flag vi w)
      as (retry & f1 & vi1 & Heq & Hlen & _ & Hf1).
    rewrite (fetch_victims_step _ _ _ _ _ _ _ _ _ _ _ _ Heq).
    destruct (IH retry f1 vi1 (after (round_events env c p) w))
      as (f2 & vi2 & evs & Heq2 & Hcalls & Hsleeps & Hf2).
    exists f2, vi2, (evs ++ round_events env c p).
    rewrite Heq2, after_after. repeat split; auto.
    + rewrite calls_in_app. pose proof (calls_round_events env c p). nia.
    + rewrite sleeps_in_app, Hsleeps.
      unfold round_events. destruct (etherscanApis env c); [| reflexivity].
      induction (rev p); cbn; auto.
Qed.


Lemma failed_since_old env n0 t :
  (calls_in t <= n0)%nat -> failed_since env n0 t.
Proof.
  induction t as [| [r | ms] t IH]; cbn; intros Hle; auto.
  split; [lia | apply IH; lia].
Qed.

(** A round whose attempts all fail: every victim goes on to the next
    attempt, or on the final attempt sets the flag. *)
Lemma fetch_round_failed env a c attempt n0 p :
  forall flag vi w,
    (n0 <= calls w)%nat ->
    failed_since env n0 (round_events env c p ++ trace w) ->
    fetch_round env a c attempt p flag vi w
    = (Normal (if (attempt =? maxRetries)%nat then [] else p,
               (if (attempt =? maxRetries)%nat
                then match p with [] => flag | _ => true end
                else flag,
                vi)),
       after (round_events env c p) w).
Proof.
  induction p as [| v p IH]; intros flag vi w Hn0 Hf.
  - rewrite round_events_nil, after_nil. cbn.
    destruct (attempt =? maxRetries)%nat; reflexivity.
  - rewrite fetch_round_cons. cbv zeta.
    rewrite (round_events_cons env c v p), <- app_assoc in Hf.
    rewrite (round_events_cons env c v p), <- after_after.
    set (w1 := after (round_events env c [v]) w) in *.
    assert (Hn1 : (n0 <= calls w1)%nat)
      by (unfold w1; rewrite calls_after; lia).
    assert (Hf1 : failed_since env n0 (round_events env c p ++ trace w1))
      by exact Hf.
    assert (Hfail :
              attempt_failed (if etherscanApis env c
                              then fetch_account env (calls w) v c (100 + 1)
                              else Err TypeError) = true).
    { apply failed_since_app in Hf. unfold round_events in Hf.
      destruct (etherscanApis env c); [| reflexivity].
      cbn in Hf. destruct Hf as [Hf _]. apply Hf. exact Hn0. }
    assert (Hretry :
              (if (attempt =? maxRetries)%nat
               then fetch_round env a c attempt p true vi
               else bind (fetch_round env a c attempt p flag vi)
                         (fun st => ret (v :: fst st, snd st))) w1
              = (Normal (if (attempt =? maxRetries)%nat then [] else v :: p,
                         (if (attempt =? maxRetries)%nat then true else flag,
                          vi)),
                 after (round_events env c p) w1)).
    { destruct (attempt =? maxRetries)%nat eqn:Hlast.
      - rewrite (IH true vi w1 Hn1 Hf1). destruct p; reflexivity.
      - unfold bind. rewrite (IH flag vi w1 Hn1 Hf1). reflexivity. }
    destruct (if etherscanApis env c
              then fetch_account env (calls w) v c (100 + 1)
              else Err TypeError) as [res | e]; [| exact Hretry].
    cbn in Hfail. rewrite Hfail. exact Hretry.
Qed.


Lemma last_attempt left :
  (left < maxRetries)%nat ->
  (maxRetries - left =? maxRetries)%nat = (left =? 0)%nat.
Proof.
  unfold maxRetries. intros H.
  destruct (Nat.eqb_spec (3 - left) 3), (Nat.eqb_spec left 0);
    first [reflexivity | lia].
Qed.


Lemma fetch_victims_unconfigured env a c vs flag vi w :
  etherscanApis env c = false ->
  fetch_victims env a c maxRetries vs flag vi w
  = (Normal (match vs with [] => flag | _ => true end, vi), w).
Proof.
  intros Hcfg.
  assert (Hround : forall attempt p flag vi,
             fetch_round env a c attempt p flag vi w
             = (Normal (if (attempt =? maxRetries)%nat then [] else p,
                        (if (attempt =? maxRetries)%nat
                         then match p with [] => flag | _ => true end
                         else flag,
                         vi)),
                w)).
  { intros attempt p f v.
    rewrite (fetch_round_failed env a c attempt (calls w) p f v w
                                (Nat.le_refl _)).
    - unfold round_events. rewrite Hcfg, after_nil. reflexivity.
    - unfold round_events. rewrite Hcfg. apply failed_since_old.
      apply Nat.le_refl. }
  unfold maxRetries.
  rewrite (fetch_victims_step _ _ _ _ _ _ _ _ _ _ _ _ (Hround _ _ _ _)).
  rewrite (fetch_victims_step _ _ _ _ _ _ _ _ _ _ _ _ (Hround _ _ _ _)).
  rewrite (fetch_victims_step _ _ _ _ _ _ _ _ _ _ _ _ (Hround _ _ _ _)).
  cbn. reflexivity.
Qed.


(** ** Exhaustion of any operation *)


(** ** The LRU structure *)

Lemma find_remove {V} k k' (l : list (string * V)) v :
  LRU.find k' (LRU.remove k l) = Some v -> LRU.find k' l = Some v.
Proof.
  induction l as [| [k0 v0] l IH]; cbn; [auto |].
  destruct (String.eqb_spec k0 k) as [-> | Hk].
  - intros H. destruct (String.eqb_spec k k') as [-> | Hk'].
    + clear IH. exfalso. revert H.
      induction l as [| [k1 v1] l IH]; cbn; [discriminate |].
      destruct (String.eqb_spec k1 k') as [-> | H1]; auto.
      cbn. destruct (String.eqb_spec k1 k'); [contradiction | auto].
    + auto.
  - cbn. destruct (k0 =? k')%string; auto.
Qed.

Lemma find_removelast {V} k (l : list (string * V)) v :
  LRU.find k (removelast l) = Some v -> LRU.find k l = Some v.
Proof.
  induction l as [| [k0 v0] l IH]; cbn; [auto |].
  destruct l as [| p l']; [cbn; discriminate |].
  cbn [LRU.find]. destruct (k0 =? k)%string; auto.
Qed.

Lemma peek_set {V} k (v : V) c k' v' :
  LRU.peek k' (LRU.set k v c) = Some v' ->
  (k' = k /\ v' = v) \/ LRU.peek k' c = Some v'.
Proof.
  unfold LRU.peek, LRU.set.
  destruct (LRU.has k c);
    [| destruct (LRU.max c <=? Z.of_nat (List.length (LRU.entries c)))];
    cbn; destruct (String.eqb_spec k k') as [-> | Hk];
    try (intros [= ->]; auto);
    intros H; right;
    eauto using find_remove, find_removelast.
Qed.

Lemma peek_get {V} k (c : LRU.t V) k' v' :
  LRU.peek k' (snd (LRU.get k c)) = Some v' -> LRU.peek k' c = Some v'.
Proof.
  unfold LRU.peek, LRU.get.
  destruct (LRU.find k (LRU.entries c)) as [v |] eqn:E; cbn; [| auto].
  destruct (String.eqb_spec k k') as [-> | Hk].
  - intros [= ->]. exact E.
  - apply find_remove.
Qed.

Lemma get_peek {V} k (c : LRU.t V) : fst (LRU.get k c) = LRU.peek k c.
Proof.
  unfold LRU.peek, LRU.get. destruct (LRU.find k (LRU.entries c)); reflexivity.
Qed.

Lemma has_peek {V} k (c : LRU.t V) :
  LRU.has k c = true <-> exists v, LRU.peek k c = Some v.
Proof.
  unfold LRU.has, LRU.peek. destruct (LRU.find k (LRU.entries c)).
  - split; eauto.
  - split; [discriminate | intros [v H]; discriminate].
Qed.

Lemma has_set {V} k (v : V) c : LRU.has k (LRU.set k v c) = true.
Proof.
  unfold LRU.has at 1, LRU.set.
  destruct (LRU.has k c);
    [| destruct (LRU.max c <=? Z.of_nat (List.length (LRU.entries c)))];
    cbn; rewrite String.eqb_refl; reflexivity.
Qed.

Lemma peek_set_same {V} k (v : V) c : LRU.peek k (LRU.set k v c) = Some v.
Proof.
  unfold LRU.peek, LRU.set.
  destruct (LRU.has k c);
    [| destruct (LRU.max c <=? Z.of_nat (List.length (LRU.entries c)))];
    cbn; rewrite String.eqb_refl; reflexivity.
Qed.

(** ** Quiet steps *)

Lemma quiet_refl w : quiet w w.
Proof. unfold quiet. repeat split. exists []. reflexivity. Qed.

Lemma quiet_trans w1 w2 w3 : quiet w1 w2 -> quiet w2 w3 -> quiet w1 w3.
Proof.
  unfold quiet.
  intros (E1 & C1 & F1 & N1 & O1 & evs1 & T1) (E2 & C2 & F2 & N2 & O2 & evs2 & T2).
  repeat split; try congruence.
  exists (evs2 ++ evs1). rewrite T2, T1. apply app_assoc.
Qed.

Lemma quiet_after evs w : quiet w (after evs w).
Proof. unfold quiet, after. cbn. repeat split. exists evs. reflexivity. Qed.

Lemma quiet_add_error a w : quiet w (add_error a w).
Proof. unfold quiet, add_error. cbn. repeat split. exists []. reflexivity. Qed.

Lemma quiet_await {A} r (oracle : nat -> Outcome A) w :
  quiet w (snd (await r oracle w)).
Proof. apply (quiet_after [Remote r]). Qed.

Lemma quiet_bind {A B} (m : M A) (k : A -> M B) w :
  quiet w (snd (m w)) ->
  (forall a w1, quiet w1 (snd (k a w1))) ->
  quiet w (snd (bind m k w)).
Proof.
  intros Hm Hk. unfold bind. destruct (m w) as [[a | e] w1]; cbn in *.
  - eapply quiet_trans; [exact Hm | apply Hk].
  - exact Hm.
Qed.

Lemma explorer_loop_quiet {A} (fetch : M (Outcome (Response A))) :
  (forall w, quiet w (snd (fetch w))) ->
  forall left w, quiet w (snd (explorer_loop fetch left w)).
Proof.
  intros Hfetch. induction left as [| left IH]; intros w.
  - apply quiet_refl.
  - cbn [explorer_loop]. apply quiet_bind; [apply Hfetch |].
    intros [res | e] w1.
    + destruct (soft_failure (message res));
        [destruct (maxRetries - left =? maxRetries)%nat |];
        auto using quiet_refl.
    + destruct (maxRetries - left =? maxRetries)%nat; auto using quiet_refl.
Qed.

Lemma fetchAccount_quiet env a c o w :
  quiet w (snd (fetchAccount env a c o w)).
Proof.
  unfold fetchAccount. destruct (etherscanApis env c);
    [apply quiet_await | apply quiet_refl].
Qed.

Lemma fetchAccountInternalTxs_quiet env a c o w :
  quiet w (snd (fetchAccountInternalTxs env a c o w)).
Proof.
  unfold fetchAccountInternalTxs. destruct (etherscanApis env c);
    [apply quiet_await | apply quiet_refl].
Qed.

Lemma fetchSourceCode_quiet env a c w :
  quiet w (snd (fetchSourceCode env a c w)).
Proof.
  unfold fetchSourceCode. destruct (etherscanApis env c);
    [apply quiet_await | apply quiet_refl].
Qed.

Lemma fetchLogs_quiet env a b c w : quiet w (snd (fetchLogs env a b c w)).
Proof.
  unfold fetchLogs. destruct (etherscanApis env c);
    [apply quiet_await | apply quiet_refl].
Qed.

Lemma fetch_victims_quiet env attacker c left vs flag vi w :
  quiet w (snd (fetch_victims env attacker c left vs flag vi w)).
Proof.
  destruct (fetch_victims_run env attacker c left vs flag vi w)
    as (f & vi' & evs & Heq & _).
  rewrite Heq. apply quiet_after.
Qed.

Create HintDb quiet.

#[local] Hint Resolve quiet_refl quiet_await quiet_after quiet_add_error
  fetchAccount_quiet fetchAccountInternalTxs_quiet fetchSourceCode_quiet
  fetchLogs_quiet fetch_victims_quiet : quiet.

(** The explorer-backed methods, [getStorageSlot] and [getLabel] leave the
    caches alone. *)
Ltac quiet_method :=
  repeat first
    [ apply quiet_refl
    | apply quiet_bind; [| intros ? ?]
    | apply explorer_loop_quiet; intros ?
    | progress auto with quiet
    | match goal with
      | |- quiet _ (snd (match ?x with _ => _ end _)) => destruct x
      | |- quiet _ (snd ((if ?b then _ else _) _)) => destruct b
      end ].

Lemma explorer_methods_quiet env toTx fromTx parseInt op w :
  match op with
  | GetCode _ | IsEoa _ | GetNonce _ | GetSignature _ | GetOwner _ _ => True
  | _ => quiet w (snd (exec env toTx fromTx parseInt op w))
  end.
Proof.
  destruct op; try exact I; cbn [exec]; rewrite discard_snd.
  - rewrite getStorageSlot_cases. cbv zeta.
    destruct (provider_getStorageAt env (calls w) address slot blockNumber);
      [| destruct (provider_getStorageAt env (S (calls w)) address slot
                                         blockNumber);
         [| destruct (provider_getStorageAt env (S (S (calls w))) address slot
                                            blockNumber)]];
      cbn [snd]; auto with quiet.
    eapply quiet_trans; [apply quiet_after | apply quiet_add_error].
  - unfold getLabel. destruct (negb _); [apply quiet_refl |].
    unfold bind. rewrite getLabel_loop_cases. cbv zeta.
    destruct (fetch_labels env (calls w) _);
      [| destruct (fetch_labels env (S (calls w)) _);
         [| destruct (fetch_labels env (S (S (calls w))) _)]];
      cbn [snd ret]; auto with quiet.
  - unfold getAddressInfo. quiet_method.
  - unfold haveInteractedAgain. quiet_method.
  - unfold haveInteractedWithSameAddress.
    apply quiet_bind; [apply fetch_victims_quiet | intros st w1; apply quiet_refl].
  - unfold isRecentlyInvolvedInTransfer. quiet_method.
  - unfold hasValidEntries. quiet_method.
  - unfold getAddresses. quiet_method.
  - unfold getSourceCode. quiet_method.
  - unfold getNumberOfLogs. quiet_method.
  - unfold isValueUnique. quiet_method.
Qed.

(** ** Recorded values stay recorded *)

Lemma issued_app evs t n r : issued t n r -> issued (evs ++ t) n r.
Proof.
  intros (t1 & t2 & -> & Hn). exists (evs ++ t1), t2.
  rewrite app_assoc. auto.
Qed.

Lemma issued_head t r : issued (Remote r :: t) (calls_in t) r.
Proof. exists [], t. auto. Qed.

Lemma issued_cons e t n r : issued t n r -> issued (e :: t) n r.
Proof. apply (issued_app [e]). Qed.

Lemma recorded_quiet env w w' : quiet w w' -> recorded env w -> recorded env w'.
Proof.
  intros (E & C & F & N & O & evs & T) ((Hc & He & Hn & Hf) & Ho).
  unfold recorded, caches_sound, code_sound, eoa_sound, nonce_sound,
    function_sound, owner_recorded.
  rewrite E, C, F, N, O, T. repeat split.
  - apply (Hc a c H).
  - destruct (Hc a c H) as (_ & n & Hi & Hok). eauto using issued_app.
  - intros a b H. destruct (He a b H) as (n & c & Hi & Hrest).
    eauto using issued_app.
  - intros a v H. destruct (Hn a v H) as (n & Hi & Hok).
    eauto using issued_app.
  - apply (Hf b s H).
  - destruct (Hf b s H) as (_ & n & Hi & Hok). eauto using issued_app.
  - intros k v H. destruct (Ho k v H) as (n & a & b & Hk & Hcases).
    exists n, a, b. split; [exact Hk |].
    destruct Hcases as [[Hi Hok] | [[Hi Hok] | (Hv & Hi & He1 & Hi' & He2)]];
      eauto 10 using issued_app.
Qed.

(** The five parts of [recorded], those that did not change settled. *)
Ltac recorded_parts :=
  split; [split; [| split; [| split]] |]; try assumption.

(** Reading a cache reorders it and nothing more. *)
Lemma recorded_get_code env a w :
  recorded env w ->
  recorded env (with_codeCache (snd (LRU.get a (codeCache w))) w).
Proof.
  intros ((Hc & He & Hn & Hf) & Ho). recorded_parts.
  intros a' c H. cbn in *. apply peek_get in H. apply (Hc _ _ H).
Qed.

Lemma recorded_get_eoa env a w :
  recorded env w ->
  recorded env (with_eoaCache (snd (LRU.get a (eoaCache w))) w).
Proof.
  intros ((Hc & He & Hn & Hf) & Ho). recorded_parts.
  intros a' b H. cbn in *. apply peek_get in H. apply (He _ _ H).
Qed.

Lemma recorded_get_nonce env a w :
  recorded env w ->
  recorded env (with_nonceCache (snd (LRU.get a (nonceCache w))) w).
Proof.
  intros ((Hc & He & Hn & Hf) & Ho). recorded_parts.
  intros a' b H. cbn in *. apply peek_get in H. apply (Hn _ _ H).
Qed.

Lemma recorded_get_function env a w :
  recorded env w ->
  recorded env (with_functionCache (snd (LRU.get a (functionCache w))) w).
Proof.
  intros ((Hc & He & Hn & Hf) & Ho). recorded_parts.
  intros b s H. cbn in *. apply peek_get in H. apply (Hf _ _ H).
Qed.

Lemma recorded_get_owner env a w :
  recorded env w ->
  recorded env (with_ownerCache (snd (LRU.get a (ownerCache w))) w).
Proof.
  intros ((Hc & He & Hn & Hf) & Ho). recorded_parts.
  intros k v H. cbn in *. apply peek_get in H. apply (Ho _ _ H).
Qed.

(** Writing a cache is justified by the call that gave the value. *)
Lemma recorded_set_code env a c n w :
  recorded env w ->
  cacheable_code c = true ->
  issued (trace w) n (ProviderGetCode a) ->
  provider_getCode env n a = Ok c ->
  recorded env (with_codeCache (LRU.set a c (codeCache w)) w).
Proof.
  intros ((Hc & He & Hn & Hf) & Ho) Hcc Hi Hok. recorded_parts.
  intros a' c' H. cbn in *.
  apply peek_set in H. destruct H as [[-> ->] | H]; eauto.
Qed.

Lemma recorded_set_eoa env a c n w :
  recorded env w ->
  truthy c = true ->
  issued (trace w) n (ProviderGetCode a) ->
  provider_getCode env n a = Ok c ->
  recorded env (with_eoaCache (LRU.set a (c =? "0x")%string (eoaCache w)) w).
Proof.
  intros ((Hc & He & Hn & Hf) & Ho) Hcc Hi Hok. recorded_parts.
  intros a' b H. cbn in *.
  apply peek_set in H. destruct H as [[-> ->] | H]; eauto 10.
Qed.

Lemma recorded_set_nonce env a v n w :
  recorded env w ->
  issued (trace w) n (ProviderGetTransactionCount a) ->
  provider_getTransactionCount env n a = Ok v ->
  recorded env (with_nonceCache (LRU.set a v (nonceCache w)) w).
Proof.
  intros ((Hc & He & Hn & Hf) & Ho) Hi Hok. recorded_parts.
  intros a' b H. cbn in *.
  apply peek_set in H. destruct H as [[-> ->] | H]; eauto 10.
Qed.

Lemma recorded_set_function env b s n w :
  recorded env w ->
  cacheable_signature s = true ->
  issued (trace w) n (FetchText (signature_url b)) ->
  fetch_text env n (signature_url b) = Ok s ->
  recorded env (with_functionCache (LRU.set b s (functionCache w)) w).
Proof.
  intros ((Hc & He & Hn & Hf) & Ho) Hcc Hi Hok. recorded_parts.
  intros b' s' H. cbn [functionCache with_functionCache trace] in *.
  apply peek_set in H. destruct H as [[-> ->] | H]; eauto.
Qed.

(** ** The caching methods keep the caches recorded *)

(** The tail of [getCode] after a successful call, which is the newest event
    of the trace. *)
Lemma getCode_store env a c w1 t :
  recorded env w1 ->
  trace w1 = Remote (ProviderGetCode a) :: t ->
  provider_getCode env (calls_in t) a = Ok c ->
  let w' := snd (when (truthy c && negb (c =? "0x")%string)
                      (cache_set codeCache with_codeCache a c) w1) in
  recorded env w' /\ issued (trace w') (calls_in t) (ProviderGetCode a).
Proof.
  intros Hrec Ht Hok.
  assert (Hi : issued (trace w1) (calls_in t) (ProviderGetCode a))
    by (rewrite Ht; apply issued_head).
  fold (cacheable_code c). destruct (cacheable_code c) eqn:Hcc; cbn.
  - split; [eapply recorded_set_code; eauto | exact Hi].
  - auto.
Qed.

Lemma getCode_recorded env a w :
  recorded env w ->
  recorded env (snd (getCode env a w))
  /\ forall c,
      fst (getCode env a w) = Normal (Some c) ->
      exists n, issued (trace (snd (getCode env a w))) n (ProviderGetCode a)
                /\ provider_getCode env n a = Ok c.
Proof.
  intros Hrec. unfold getCode, bind, cache_has, cache_get.
  destruct (LRU.has a (codeCache w)) eqn:Hhas.
  - cbn. split; [apply recorded_get_code; exact Hrec |].
    intros c [= Hc]. rewrite get_peek in Hc.
    destruct Hrec as ((Hcode & _) & _).
    destruct (Hcode a c Hc) as (_ & n & Hi & Hok). eauto.
  - rewrite getCode_loop_cases. cbv zeta. unfold calls.
    set (r := ProviderGetCode a).
    destruct (provider_getCode env (calls_in (trace w)) a) as [c |] eqn:E1.
    { destruct (getCode_store env a c (after [Remote r] w) (trace w))
        as [H1 H2]; auto.
      { eapply recorded_quiet; [apply quiet_after | exact Hrec]. }
      destruct (when _ _ (after [Remote r] w)) as [[[] | ex] w'];
        cbn in *; [| split; auto; discriminate].
      split; [exact H1 |]. intros c' [= <-]. eauto. }
    destruct (provider_getCode env (S (calls_in (trace w))) a)
      as [c |] eqn:E2.
    { destruct (getCode_store env a c
                  (after [Remote r; Sleep 1000; Remote r] w)
                  (Sleep 1000 :: Remote r :: trace w))
        as [H1 H2]; auto.
      { eapply recorded_quiet; [apply quiet_after | exact Hrec]. }
      destruct (when _ _ (after [Remote r; Sleep 1000; Remote r] w))
        as [[[] | ex] w'];
        cbn in *; [| split; auto; discriminate].
      split; [exact H1 |]. intros c' [= <-]. eauto. }
    destruct (provider_getCode env (S (S (calls_in (trace w)))) a)
      as [c |] eqn:E3.
    { destruct (getCode_store env a c
                  (after [Remote r; Sleep 1000; Remote r; Sleep 1000;
                          Remote r] w)
                  (Sleep 1000 :: Remote r :: Sleep 1000 :: Remote r
                   :: trace w))
        as [H1 H2]; auto.
      { eapply recorded_quiet; [apply quiet_after | exact Hrec]. }
      destruct (when _ _ (after [Remote r; Sleep 1000; Remote r; Sleep 1000;
                                 Remote r] w))
        as [[[] | ex] w'];
        cbn in *; [| split; auto; discriminate].
      split; [exact H1 |]. intros c' [= <-]. eauto. }
    cbn. split; [| discriminate].
    eapply recorded_quiet; [| exact Hrec].
    eapply quiet_trans; [apply quiet_after | apply quiet_add_error].
Qed.

Lemma isEoa_recorded env a w :
  recorded env w -> recorded env (snd (isEoa env a w)).
Proof.
  intros Hrec. unfold isEoa, bind, cache_has, cache_get.
  destruct (LRU.has a (eoaCache w)).
  - cbn. apply recorded_get_eoa. exact Hrec.
  - destruct (getCode_recorded env a w Hrec) as [H1 H2].
    destruct (getCode env a w) as [[[c |] | ex] w1]; cbn in *; auto.
    destruct (truthy c) eqn:Ht; cbn; auto.
    destruct (H2 c eq_refl) as (n & Hi & Hok).
    eapply recorded_set_eoa; eauto.
Qed.

Lemma getNonce_recorded env a w :
  recorded env w -> recorded env (snd (getNonce env a w)).
Proof.
  intros Hrec. unfold getNonce, bind, cache_has, cache_get.
  destruct (LRU.has a (nonceCache w)).
  - cbn. apply recorded_get_nonce. exact Hrec.
  - rewrite getNonce_loop_cases. cbv zeta. unfold calls.
    set (r := ProviderGetTransactionCount a).
    destruct (provider_getTransactionCount env (calls_in (trace w)) a)
      as [v |] eqn:E1.
    { cbn. apply (recorded_set_nonce env a v (calls_in (trace w))
                                     (after [Remote r] w)); auto.
      - eapply recorded_quiet; [apply quiet_after | exact Hrec].
      - apply issued_head. }
    destruct (provider_getTransactionCount env (S (calls_in (trace w))) a)
      as [v |] eqn:E2.
    { cbn. apply (recorded_set_nonce env a v (S (calls_in (trace w)))
                    (after [Remote r; Sleep 1000; Remote r] w)); auto.
      - eapply recorded_quiet; [apply quiet_after | exact Hrec].
      - apply (issued_head (Sleep 1000 :: Remote r :: trace w)). }
    destruct (provider_getTransactionCount env (S (S (calls_in (trace w)))) a)
      as [v |] eqn:E3.
    { cbn. apply (recorded_set_nonce env a v (S (S (calls_in (trace w))))
                    (after [Remote r; Sleep 1000; Remote r; Sleep 1000;
                            Remote r] w)); auto.
      - eapply recorded_quiet; [apply quiet_after | exact Hrec].
      - apply (issued_head (Sleep 1000 :: Remote r :: Sleep 1000 :: Remote r
                            :: trace w)). }
    cbn. eapply recorded_quiet; [| exact Hrec].
    eapply quiet_trans; [apply quiet_after | apply quiet_add_error].
Qed.

(** The tail of [getSignature] after a successful fetch, which is the newest
    event of the trace. *)
Lemma getSignature_store env b s w1 t :
  recorded env w1 ->
  trace w1 = Remote (FetchText (signature_url b)) :: t ->
  fetch_text env (calls_in t) (signature_url b) = Ok s ->
  recorded env
    (snd ((if truthy s && negb (prefix "404" s)
           then bind (cache_set functionCache with_functionCache b s)
                     (fun _ => ret (Some s))
           else ret None) w1)).
Proof.
  intros Hrec Ht Hok.
  fold (cacheable_signature s). destruct (cacheable_signature s) eqn:Hcs; cbn.
  - eapply recorded_set_function; eauto. rewrite Ht. apply issued_head.
  - exact Hrec.
Qed.

Lemma getSignature_recorded env b w :
  recorded env w -> recorded env (snd (getSignature env b w)).
Proof.
  intros Hrec. unfold getSignature, bind at 1, cache_has, cache_get.
  destruct (LRU.has b (functionCache w)).
  - cbn. apply recorded_get_function. exact Hrec.
  - fold (signature_url b). unfold bind at 1.
    rewrite getSignature_loop_cases. cbv zeta. unfold calls.
    set (r := FetchText (signature_url b)).
    destruct (fetch_text env (calls_in (trace w)) (signature_url b))
      as [s |] eqn:E1.
    { apply (getSignature_store env b s (after [Remote r] w) (trace w));
        auto.
      eapply recorded_quiet; [apply quiet_after | exact Hrec]. }
    destruct (fetch_text env (S (calls_in (trace w))) (signature_url b))
      as [s |] eqn:E2.
    { apply (getSignature_store env b s
               (after [Remote r; Sleep 1000; Remote r] w)
               (Sleep 1000 :: Remote r :: trace w)); auto.
      eapply recorded_quiet; [apply quiet_after | exact Hrec]. }
    destruct (fetch_text env (S (S (calls_in (trace w)))) (signature_url b))
      as [s |] eqn:E3.
    { apply (getSignature_store env b s
               (after [Remote r; Sleep 1000; Remote r; Sleep 1000; Remote r] w)
               (Sleep 1000 :: Remote r :: Sleep 1000 :: Remote r :: trace w));
        auto.
      eapply recorded_quiet; [apply quiet_after | exact Hrec]. }
    cbn. eapply recorded_quiet; [apply quiet_after | exact Hrec].
Qed.

Lemma getOwner_recorded env a b w :
  recorded env w -> recorded env (snd (getOwner env a b w)).
Proof.
  intros Hrec. unfold getOwner, bind, cache_has, cache_get, await.
  destruct (LRU.has (owner_key a b) (ownerCache w)).
  - cbn. apply recorded_get_owner. exact Hrec.
  - cbn. unfold calls.
    destruct (contract_owner env (calls_in (trace w)) a b) as [v |] eqn:E1;
      cbn.
    + destruct (recorded_quiet env w (after [Remote (ContractOwner a b)] w)
                  (quiet_after _ _) Hrec)
        as ((Hc & He & Hn & Hf) & Ho).
      recorded_parts.
      intros k v' H. cbn [ownerCache with_ownerCache trace] in *.
      apply peek_set in H. destruct H as [[-> ->] | H]; [| apply (Ho _ _ H)].
      exists (calls_in (trace w)), a, b. split; [reflexivity |]. left.
      split; [apply issued_head | exact E1].
    + destruct (contract_getOwner env (S (calls_in (trace w))) a b)
        as [v |] eqn:E2; cbn;
        destruct (recorded_quiet env w
                    (after [Remote (ContractGetOwner a b);
                            Remote (ContractOwner a b)] w)
                    (quiet_after _ _) Hrec)
          as ((Hc & He & Hn & Hf) & Ho);
        recorded_parts;
        intros k v' H; cbn [ownerCache with_ownerCache trace] in *;
        apply peek_set in H;
        (destruct H as [[-> ->] | H]; [| apply (Ho _ _ H)]).
      * exists (S (calls_in (trace w))), a, b. split; [reflexivity |].
        right; left.
        split; [apply (issued_head (Remote (ContractOwner a b) :: trace w))
               | exact E2].
      * exists (calls_in (trace w)), a, b. split; [reflexivity |].
        right; right.
        rewrite E1, E2. repeat split.
        -- apply issued_cons, issued_head.
        -- apply (issued_head (Remote (ContractOwner a b) :: trace w)).
Qed.

Lemma exec_recorded env toTx fromTx parseInt op w :
  recorded env w -> recorded env (snd (exec env toTx fromTx parseInt op w)).
Proof.
  intros Hrec.
  pose proof (explorer_methods_quiet env toTx fromTx parseInt op w) as Hq.
  destruct op;
    try (eapply recorded_quiet; [exact Hq | exact Hrec]);
    cbn [exec]; rewrite discard_snd.
  - apply getCode_recorded. exact Hrec.
  - apply isEoa_recorded. exact Hrec.
  - apply getNonce_recorded. exact Hrec.
  - apply getSignature_recorded. exact Hrec.
  - apply getOwner_recorded. exact Hrec.
Qed.

Lemma exec_all_recorded env toTx fromTx parseInt ops :
  forall w,
    recorded env w ->
    recorded env (exec_all env toTx fromTx parseInt ops w).
Proof.
  induction ops as [| op ops IH]; intros w Hrec; cbn [exec_all].
  - exact Hrec.
  - apply IH, exec_recorded, Hrec.
Qed.

Lemma new_DataFetcher_recorded env : recorded env new_DataFetcher.
Proof. repeat split; discriminate. Qed.

(** ** A miss goes to the remote side *)

Lemma getCode_miss_calls env a w :
  LRU.has a (codeCache w) = false ->
  (calls w < calls (snd (getCode env a w)))%nat.
Proof.
  intros Hmiss. unfold getCode, bind, cache_has. rewrite Hmiss.
  rewrite getCode_loop_cases. cbv zeta.
  destruct (provider_getCode env (calls w) a) as [c |];
    [| destruct (provider_getCode env (S (calls w)) a) as [c |];
       [| destruct (provider_getCode env (S (S (calls w))) a) as [c |]]];
    try destruct (truthy c && negb (c =? "0x")%string);
    unfold calls; cbn; lia.
Qed.

Lemma isEoa_miss_calls env a w :
  LRU.has a (eoaCache w) = false ->
  LRU.has a (codeCache w) = false ->
  (calls w < calls (snd (isEoa env a w)))%nat.
Proof.
  intros He Hc. pose proof (getCode_miss_calls env a w Hc) as Hlt.
  unfold isEoa, bind, cache_has. rewrite He.
  destruct (getCode env a w) as [[[c |] | ex] w1]; cbn in *; auto.
  destruct (truthy c); cbn; auto.
Qed.

Lemma getNonce_miss_calls env a w :
  LRU.has a (nonceCache w) = false ->
  (calls w < calls (snd (getNonce env a w)))%nat.
Proof.
  intros Hmiss. unfold getNonce, bind, cache_has. rewrite Hmiss.
  rewrite getNonce_loop_cases. cbv zeta.
  destruct (provider_getTransactionCount env (calls w) a);
    [| destruct (provider_getTransactionCount env (S (calls w)) a);
       [| destruct (provider_getTransactionCount env (S (S (calls w))) a)]];
    unfold calls; cbn; lia.
Qed.

Lemma getSignature_miss_calls env b w :
  LRU.has b (functionCache w) = false ->
  (calls w < calls (snd (getSignature env b w)))%nat.
Proof.
  intros Hmiss. unfold getSignature, bind, cache_has. rewrite Hmiss.
  fold (signature_url b). rewrite getSignature_loop_cases. cbv zeta.
  destruct (fetch_text env (calls w) (signature_url b)) as [s |];
    [| destruct (fetch_text env (S (calls w)) (signature_url b)) as [s |];
       [| destruct (fetch_text env (S (S (calls w))) (signature_url b))
            as [s |]]];
    try destruct (truthy s && negb (prefix "404" s));
    unfold calls; cbn; lia.
Qed.

Lemma has_false_of_no_peek {V} k (c : LRU.t V) :
  (forall v, LRU.peek k c <> Some v) -> LRU.has k c = false.
Proof.
  intros H. destruct (LRU.has k c) eqn:E; [| reflexivity].
  apply has_peek in E. destruct E as [v Hv]. destruct (H v Hv).
Qed.

(** ** Three failed provider calls *)

Lemma getCode_fails_thrice env address w e :
  LRU.has address (codeCache w) = false ->
  fails_thrice (fun n => provider_getCode env n address) (calls w) e ->
  exists w1, getCode env address w = (Normal None, w1).
Proof.
  intros Hmiss (H1 & H2 & H3).
  unfold getCode, bind, cache_has. rewrite Hmiss, getCode_loop_cases.
  cbv zeta. rewrite H3.
  destruct (provider_getCode env (calls w) address); [discriminate H1 |].
  destruct (provider_getCode env (S (calls w)) address); [discriminate H2 |].
  eexists. reflexivity.
Qed.

(** ** A fetched history *)

Lemma explorer_loop_fetched {A} r (oracle : nat -> Outcome (Response A))
    w k res :
  fetched_at oracle (calls w) k res ->
  explorer_loop (await r oracle) maxRetries w
  = (Normal (Some res), after (repeat (Remote r) (S k)) w).
Proof.
  intros (Hk & Hfail & Hok & Hmsg).
  assert (Hgood : attempt_failed (oracle (calls w + k)%nat) = false)
    by (rewrite Hok; exact Hmsg).
  rewrite explorer_loop_await.
  destruct k as [| [| [| k]]]; [| | | lia].
  - rewrite Nat.add_0_r in *. rewrite Hgood, Hok. reflexivity.
  - pose proof (Hfail 0%nat ltac:(lia)) as H0.
    rewrite Nat.add_0_r in H0. rewrite Nat.add_1_r in *.
    rewrite H0, Hgood, Hok. reflexivity.
  - pose proof (Hfail 0%nat ltac:(lia)) as H0.
    pose proof (Hfail 1%nat ltac:(lia)) as H1.
    rewrite Nat.add_0_r in H0. rewrite Nat.add_1_r in H1.
    replace (calls w + 2)%nat with (S (S (calls w))) in * by lia.
    rewrite H0, H1, Hgood, Hok. reflexivity.
Qed.

Lemma combine_seq_nth {A} (l : list A) start j x :
  In (j, x) (combine (seq start (List.length l)) l) ->
  (start <= j)%nat /\ nth_error l (j - start) = Some x.
Proof.
  revert start. induction l as [| y l IH]; intros start; cbn; [tauto |].
  intros [[= <- <-] | H].
  - rewrite Nat.sub_diag. auto.
  - destruct (IH (S start) H) as [Hle Hnth]. split; [lia |].
    replace (j - start)%nat with (S (j - S start)) by lia. exact Hnth.
Qed.

Lemma indexed_nth {A} (l : list A) j x :
  In (j, x) (indexed l) -> nth_error l j = Some x.
Proof.
  intros H. apply combine_seq_nth in H. destruct H as [_ H].
  rewrite Nat.sub_0_r in H. exact H.
Qed.

Lemma slice_In {A} (l : list A) i p x :
  (i - 3 <= p < i)%nat -> nth_error l p = Some x ->
  In x (slice (i - 3) i l).
Proof.
  intros Hp Hnth. unfold slice.
  apply nth_error_In with (n := (p - (i - 3))%nat).
  rewrite nth_error_firstn.
  destruct (Nat.ltb_spec (p - (i - 3)) (i - (i - 3))); [| lia].
  rewrite nth_error_skipn.
  replace (i - 3 + (p - (i - 3)))%nat with p by lia. exact Hnth.
Qed.

(** The test of [hasValidEntries] on a fetched history. *)
Lemma hasValidEntries_fetched env toTx a c h w k res :
  etherscanApis env c = true ->
  fetched_at (fun n => fetch_account env n a c (toTx + 1)) (calls w) k res ->
  fst (hasValidEntries env toTx a c h w)
  = Normal (existsb (valid_entry (result res) h) (indexed (result res))).
Proof.
  intros Hcfg Hf. unfold hasValidEntries, fetchAccount, bind.
  rewrite Hcfg, (explorer_loop_fetched _ _ _ _ _ Hf). reflexivity.
Qed.

(** ** Objects used as maps *)

Lemma includes_In x l : includes x l = true <-> In x l.
Proof.
  unfold includes. rewrite existsb_exists. split.
  - intros (y & Hin & Heq). apply String.eqb_eq in Heq. subst. exact Hin.
  - intros Hin. exists x. split; [exact Hin | apply String.eqb_refl].
Qed.

Lemma includes_not_In x l : includes x l = false <-> ~ In x l.
Proof.
  rewrite <- includes_In. destruct (includes x l); split; congruence.
Qed.

Lemma uniq_acc xs :
  forall acc,
    let r := fold_left (fun acc x => if includes x acc then acc else acc ++ [x])
                       xs acc in
    (forall x, In x r <-> In x acc \/ In x xs)
    /\ (NoDup acc -> NoDup r).
Proof.
  induction xs as [| y xs IH]; intros acc; cbn.
  - split; [intros x; tauto | auto].
  - destruct (includes y acc) eqn:Hy.
    + destruct (IH acc) as [Hin Hnd]. split; [| exact Hnd].
      intros x. rewrite Hin. apply includes_In in Hy.
      split; [tauto |]. intros [H | [<- | H]]; auto.
    + destruct (IH (acc ++ [y])) as [Hin Hnd]. split.
      * intros x. rewrite Hin, in_app_iff. cbn. tauto.
      * intros Hacc. apply Hnd. apply includes_not_In in Hy.
        apply NoDup_app; [exact Hacc | repeat constructor; auto |].
        intros a Ha [<- | []]. contradiction.
Qed.

Lemma uniq_In xs x : In x (uniq xs) <-> In x xs.
Proof.
  destruct (uniq_acc xs []) as [H _]. unfold uniq. rewrite H. cbn. tauto.
Qed.

Lemma uniq_NoDup xs : NoDup (uniq xs).
Proof.
  destruct (uniq_acc xs []) as [_ H]. apply H. constructor.
Qed.

Lemma obj_get_In {V} k (o : Obj V) v : obj_get k o = Some v -> In (k, v) o.
Proof.
  induction o as [| [k0 v0] o IH]; cbn; [discriminate |].
  destruct (String.eqb_spec k0 k) as [-> | Hk].
  - intros [= ->]. auto.
  - auto.
Qed.

Lemma obj_get_set_same {V} k (v : V) o : obj_get k (obj_set k v o) = Some v.
Proof.
  induction o as [| [k0 v0] o IH]; cbn.
  - rewrite String.eqb_refl. reflexivity.
  - destruct (String.eqb_spec k0 k) as [-> | Hk]; cbn.
    + rewrite String.eqb_refl. reflexivity.
    + destruct (String.eqb_spec k0 k); [contradiction | exact IH].
Qed.

Lemma obj_get_set_other {V} k k' (v : V) o :
  k' <> k -> obj_get k' (obj_set k v o) = obj_get k' o.
Proof.
  intros Hne. induction o as [| [k0 v0] o IH]; cbn.
  - destruct (String.eqb_spec k k'); [congruence | reflexivity].
  - destruct (String.eqb_spec k0 k) as [-> | Hk]; cbn.
    + destruct (String.eqb_spec k k'); [congruence | reflexivity].
    + destruct (String.eqb_spec k0 k'); [reflexivity | exact IH].
Qed.

Lemma obj_set_In {V} k (v : V) o k' v' :
  In (k', v') (obj_set k v o) -> (k' = k /\ v' = v) \/ In (k', v') o.
Proof.
  induction o as [| [k0 v0] o IH]; cbn.
  - intros [[= <- <-] | []]. auto.
  - destruct (String.eqb_spec k0 k) as [-> | Hk]; cbn.
    + intros [[= <- <-] | H]; auto.
    + intros [[= <- <-] | H]; auto.
      destruct (IH H) as [? | ?]; auto.
Qed.

Lemma obj_set_keeps {V} k (v : V) o k' v' :
  In (k', v') o -> k' <> k -> In (k', v') (obj_set k v o).
Proof.
  intros Hin Hne. induction o as [| [k0 v0] o IH]; cbn; [destruct Hin |].
  destruct Hin as [[= -> ->] | Hin].
  - destruct (String.eqb_spec k' k); [contradiction | cbn; auto].
  - destruct (String.eqb_spec k0 k); cbn; auto.
Qed.

Lemma obj_set_has {V} k (v : V) o : In (k, v) (obj_set k v o).
Proof. apply obj_get_In, obj_get_set_same. Qed.

(** ** The interactions of fetched victims *)

Lemma interactions_of_spec attacker hist vs :
  forall start,
    (forall v l, In (v, l) start -> l = counterparties attacker hist v) ->
    let vi := interactions_of attacker hist vs start in
    (forall v l, In (v, l) vi ->
                 l = counterparties attacker hist v
                 /\ (In v vs \/ exists l', In (v, l') start))
    /\ (forall v, In v vs -> In (v, counterparties attacker hist v) vi).
Proof.
  unfold interactions_of.
  induction vs as [| v0 vs IH]; intros start Hstart; cbn.
  - split; [| tauto]. intros v l H. split; [eauto | eauto].
  - set (start' := obj_set v0 (counterparties attacker hist v0) start).
    assert (Hstart' : forall v l, In (v, l) start' ->
                                  l = counterparties attacker hist v).
    { intros v l H. apply obj_set_In in H.
      destruct H as [[-> ->] | H]; eauto. }
    destruct (IH start' Hstart') as [H1 H2]. split.
    + intros v l H. destruct (H1 v l H) as [Hl [Hin | [l' Hin]]].
      * auto.
      * split; [exact Hl |]. apply obj_set_In in Hin.
        destruct Hin as [[-> _] | Hin]; eauto.
    + intros v [<- | Hin]; [| auto].
      clear - Hstart'. subst start'.
      assert (Hhas : In (v0, counterparties attacker hist v0)
                        (obj_set v0 (counterparties attacker hist v0) start))
        by apply obj_set_has.
      revert Hhas.
      generalize (obj_set v0 (counterparties attacker hist v0) start) as acc.
      induction vs as [| v1 vs IHvs]; intros acc Hacc; cbn; [exact Hacc |].
      apply IHvs.
      destruct (String.eqb_spec v0 v1) as [<- | Hne].
      * apply obj_set_has.
      * apply obj_set_keeps; auto.
Qed.

Lemma fetch_round_fetched env attacker c hist attempt vs :
  etherscanApis env c = true ->
  forall w,
    all_fetched env c hist vs (calls w) ->
    forall flag vi,
      fetch_round env attacker c attempt vs flag vi w
      = (Normal ([], (flag, interactions_of attacker hist vs vi)),
         after (round_events env c vs) w).
Proof.
  intros Hcfg. induction vs as [| v vs IH]; intros w Hall flag vi.
  - rewrite round_events_nil, after_nil. reflexivity.
  - inversion Hall as [| v' vs' n res Hcall Hsoft Hres Hrest]; subst.
    rewrite fetch_round_cons. cbv zeta. rewrite Hcfg, Hcall, Hsoft, Hres.
    rewrite IH.
    + rewrite after_after, <- (round_events_cons env c v vs). reflexivity.
    + rewrite calls_after. unfold round_events. rewrite Hcfg. exact Hrest.
Qed.

Lemma fetch_victims_fetched env attacker c hist vs :
  etherscanApis env c = true ->
  forall w,
    all_fetched env c hist vs (calls w) ->
    forall flag vi,
      fst (fetch_victims env attacker c maxRetries vs flag vi w)
      = Normal (flag, interactions_of attacker hist vs vi).
Proof.
  intros Hcfg w Hall flag vi. unfold maxRetries.
  rewrite (fetch_victims_step _ _ _ _ _ _ _ _ _ _ _ _
             (fetch_round_fetched env attacker c hist _ vs Hcfg w Hall
                                  flag vi)).
  rewrite fetch_victims_nil. reflexivity.
Qed.

(** ** The frequency map *)

Section FrequencyMap.
Variable vi : Obj (list string).

Lemma add_victim_sound victim tos fm x :
  frequencyMap_sound vi fm -> In (victim, tos) vi -> In x tos ->
  frequencyMap_sound vi (add_victim victim fm x).
Proof.
  intros Hfm Hv Hx. unfold add_victim.
  set (fm1 := match obj_get x fm with
              | Some _ => fm
              | None => obj_set x [] fm
              end).
  assert (Hfm1 : frequencyMap_sound vi fm1).
  { subst fm1. destruct (obj_get x fm); [exact Hfm |].
    intros x' l' H. apply obj_set_In in H.
    destruct H as [[-> ->] | H]; [| eauto].
    split; [constructor | intros v []]. }
  destruct (obj_get x fm1) as [called_by |] eqn:Hget; [| exact Hfm1].
  destruct (includes victim called_by) eqn:Hinc; [exact Hfm1 |].
  apply obj_get_In in Hget. destruct (Hfm1 _ _ Hget) as [Hnd Hmem].
  apply includes_not_In in Hinc.
  intros x' l' H. apply obj_set_In in H.
  destruct H as [[-> ->] | H]; [| eauto].
  split.
  - apply NoDup_app; [exact Hnd | repeat constructor; auto |].
    intros a Ha [<- | []]. contradiction.
  - intros v Hin. apply in_app_iff in Hin.
    destruct Hin as [Hin | [<- | []]]; eauto.
Qed.

Lemma add_victim_get victim fm x :
  exists l, obj_get x (add_victim victim fm x) = Some l /\ In victim l
            /\ forall l0 v, obj_get x fm = Some l0 -> In v l0 -> In v l.
Proof.
  unfold add_victim.
  destruct (obj_get x fm) as [l0 |] eqn:Hget.
  - rewrite Hget. destruct (includes victim l0) eqn:Hinc.
    + exists l0. apply includes_In in Hinc. rewrite Hget.
      repeat split; auto. intros l1 v [= <-]. auto.
    + exists (l0 ++ [victim]). rewrite obj_get_set_same.
      repeat split; [apply in_app_iff; cbn; auto |].
      intros l1 v [= <-] Hin. apply in_app_iff. auto.
  - rewrite obj_get_set_same. cbn. exists [victim].
    rewrite obj_get_set_same. repeat split; [cbn; auto | discriminate].
Qed.

Lemma add_victim_get_other victim fm x x' :
  x' <> x -> obj_get x' (add_victim victim fm x) = obj_get x' fm.
Proof.
  intros Hne. unfold add_victim.
  set (fm1 := match obj_get x fm with
              | Some _ => fm
              | None => obj_set x [] fm
              end).
  assert (H1 : obj_get x' fm1 = obj_get x' fm).
  { subst fm1. destruct (obj_get x fm); [reflexivity |].
    apply obj_get_set_other. exact Hne. }
  destruct (obj_get x fm1) as [l |]; [| exact H1].
  destruct (includes victim l); [exact H1 |].
  rewrite obj_get_set_other; auto.
Qed.

(** A victim once listed under a key stays listed. *)
Lemma add_victim_keeps victim fm x x' v l :
  obj_get x' fm = Some l -> In v l ->
  exists l', obj_get x' (add_victim victim fm x) = Some l' /\ In v l'.
Proof.
  intros Hget Hin. destruct (String.eqb_spec x' x) as [-> | Hne].
  - destruct (add_victim_get victim fm x) as (l' & Hl' & _ & Hkeep).
    exists l'. split; [exact Hl' | eauto].
  - rewrite add_victim_get_other; eauto.
Qed.

Lemma add_victims_keeps victim tos :
  forall fm x' v l,
    obj_get x' fm = Some l -> In v l ->
    exists l', obj_get x' (fold_left (add_victim victim) tos fm) = Some l'
               /\ In v l'.
Proof.
  induction tos as [| x tos IH]; intros fm x' v l Hget Hin; cbn; [eauto |].
  destruct (add_victim_keeps victim fm x x' v l Hget Hin) as (l1 & H1 & Hin1).
  eapply IH; eauto.
Qed.

Lemma add_victims_lists victim tos :
  forall fm x,
    In x tos ->
    exists l, obj_get x (fold_left (add_victim victim) tos fm) = Some l
              /\ In victim l.
Proof.
  induction tos as [| x0 tos IH]; intros fm x Hin; cbn; [destruct Hin |].
  destruct Hin as [-> | Hin]; [| auto].
  destruct (add_victim_get victim fm x) as (l & Hl & Hv & _).
  eapply add_victims_keeps; eauto.
Qed.

Lemma add_victims_sound victim tos0 :
  In (victim, tos0) vi ->
  forall tos fm,
    incl tos tos0 -> frequencyMap_sound vi fm ->
    frequencyMap_sound vi (fold_left (add_victim victim) tos fm).
Proof.
  intros Hv. induction tos as [| x tos IH]; intros fm Hincl Hfm; cbn;
    [exact Hfm |].
  apply IH.
  - intros y Hy. apply Hincl. right. exact Hy.
  - eapply add_victim_sound; eauto. apply Hincl. left. reflexivity.
Qed.

Lemma frequencyMap_fold entries :
  incl entries vi ->
  forall fm,
    frequencyMap_sound vi fm ->
    let fm' := fold_left (fun fm entry =>
                            fold_left (add_victim (fst entry)) (snd entry) fm)
                         entries fm in
    frequencyMap_sound vi fm'
    /\ (forall x' v l, obj_get x' fm = Some l -> In v l ->
                       exists l', obj_get x' fm' = Some l' /\ In v l')
    /\ (forall v tos x, In (v, tos) entries -> In x tos ->
                        exists l, obj_get x fm' = Some l /\ In v l).
Proof.
  induction entries as [| [v0 tos0] entries IH]; intros Hincl fm Hfm; cbn.
  - split; [exact Hfm | split; [eauto | intros v tos x []]].
  - assert (Hin0 : In (v0, tos0) vi) by (apply Hincl; left; reflexivity).
    assert (Hincl' : incl entries vi)
      by (intros e He; apply Hincl; right; exact He).
    pose proof (add_victims_sound v0 tos0 Hin0 tos0 fm (incl_refl _) Hfm)
      as Hfm1.
    destruct (IH Hincl' _ Hfm1) as (Hs & Hk & Hc).
    split; [exact Hs | split].
    + intros x' v l Hget Hin.
      destruct (add_victims_keeps v0 tos0 fm x' v l Hget Hin)
        as (l1 & H1 & Hin1).
      eauto.
    + intros v tos x [[= -> ->] | Hin] Hx; [| eauto].
      destruct (add_victims_lists v tos fm x Hx) as (l1 & H1 & Hin1).
      eauto.
Qed.

Lemma build_frequencyMap_spec :
  frequencyMap_sound vi (build_frequencyMap vi)
  /\ (forall v tos x, In (v, tos) vi -> In x tos ->
                      exists l, obj_get x (build_frequencyMap vi) = Some l
                                /\ In v l).
Proof.
  destruct (frequencyMap_fold vi (incl_refl _) []) as (Hs & _ & Hc).
  - intros x l [].
  - split; [exact Hs | exact Hc].
Qed.

End FrequencyMap.

(** ** [haveInteractedWithSameAddress] on fetched histories *)

Lemma haveInteractedWithSameAddress_fetched env attacker vs c hist w :
  etherscanApis env c = true ->
  all_fetched env c hist vs (calls w) ->
  fst (haveInteractedWithSameAddress env attacker vs c w)
  = Normal (existsb (fun entry =>
                       majorityThreshold vs
                       <=? Z.of_nat (List.length (snd entry)))
                    (build_frequencyMap (interactions_of attacker hist vs []))).
Proof.
  intros Hcfg Hall. unfold haveInteractedWithSameAddress, bind.
  pose proof (fetch_victims_fetched env attacker c hist vs Hcfg w Hall
                                    false []) as Hfv.
  destruct (fetch_victims env attacker c maxRetries vs false [] w)
    as [[st | ex] w1];
    cbn in Hfv; [| discriminate].
  injection Hfv as ->. reflexivity.
Qed.

Lemma shares_counterparty attacker hist x v :
  shares attacker hist x v = true <-> In x (counterparties attacker hist v).
Proof. unfold shares, counterparties. rewrite includes_In, uniq_In. tauto. Qed.

(** The list that the frequency map keeps for an address is as long as the
    number of victims sharing the address. *)
Lemma frequencyMap_entry attacker hist vs x l :
  In (x, l) (build_frequencyMap (interactions_of attacker hist vs [])) ->
  (List.length l <= sharers attacker hist vs x)%nat.
Proof.
  intros Hin.
  destruct (build_frequencyMap_spec (interactions_of attacker hist vs []))
    as [Hsound _].
  destruct (Hsound x l Hin) as [Hnd Hmem].
  destruct (interactions_of_spec attacker hist vs [] ltac:(intros ? ? []))
    as [Hvi _].
  unfold sharers. apply NoDup_incl_length; [exact Hnd |].
  intros v Hv. destruct (Hmem v Hv) as (tos & Htos & Hx).
  destruct (Hvi v tos Htos) as [-> [Hvs | [l' []]]].
  apply filter_In. split; [apply uniq_In; exact Hvs |].
  apply shares_counterparty. exact Hx.
Qed.

Lemma frequencyMap_majority attacker hist vs x :
  (0 < sharers attacker hist vs x)%nat ->
  exists l,
    In (x, l) (build_frequencyMap (interactions_of attacker hist vs []))
    /\ (sharers attacker hist vs x <= List.length l)%nat.
Proof.
  intros Hpos.
  destruct (build_frequencyMap_spec (interactions_of attacker hist vs []))
    as [_ Hcomplete].
  destruct (interactions_of_spec attacker hist vs [] ltac:(intros ? ? []))
    as [_ Hvi].
  assert (Hlisted : forall v,
             In v (filter (shares attacker hist x) (uniq vs)) ->
             exists l,
               obj_get x (build_frequencyMap
                            (interactions_of attacker hist vs []))
               = Some l /\ In v l).
  { intros v Hv. apply filter_In in Hv. destruct Hv as [Hv Hs].
    apply (proj1 (uniq_In _ _)) in Hv.
    apply (proj1 (shares_counterparty _ _ _ _)) in Hs.
    apply (Hcomplete v (counterparties attacker hist v) x);
      [apply Hvi; exact Hv | exact Hs]. }
  unfold sharers in *.
  destruct (filter (shares attacker hist x) (uniq vs)) as [| v0 rest] eqn:Hf;
    [cbn in Hpos; lia |].
  destruct (Hlisted v0 (or_introl eq_refl)) as (l & Hget & _).
  exists l. split; [apply obj_get_In; exact Hget |].
  apply NoDup_incl_length.
  - rewrite <- Hf. apply NoDup_filter, uniq_NoDup.
  - intros v Hv. destruct (Hlisted v Hv) as (l' & Hget' & Hin').
    congruence.
Qed.

(** ** [haveInteractedWithSameAddress] when the fetches succeed after
    retries *)









(** ** [isEoa] by cases *)

Lemma isEoa_miss env a w :
  LRU.has a (eoaCache w) = false ->
  isEoa env a w
  = match getCode env a w with
    | (Normal (Some c), w1) =>
        if truthy c
        then (Normal (Some (c =? "0x")%string),
              with_eoaCache (LRU.set a (c =? "0x")%string (eoaCache w1)) w1)
        else (Normal None, w1)
    | (Normal None, w1) => (Normal None, w1)
    | (Thrown e, w1) => (Thrown e, w1)
    end.
Proof.
  intros Hmiss. unfold isEoa, bind, cache_has. rewrite Hmiss.
  destruct (getCode env a w) as [[[c |] | e] w1]; try reflexivity.
  cbn. destruct (truthy c); reflexivity.
Qed.

Lemma isEoa_hit env a w b :
  LRU.peek a (eoaCache w) = Some b ->
  isEoa env a w
  = (Normal (Some b), with_eoaCache (snd (LRU.get a (eoaCache w))) w).
Proof.
  intros Hpeek. unfold isEoa, bind, cache_has, cache_get.
  assert (Hhas : LRU.has a (eoaCache w) = true)
    by (apply has_peek; eauto).
  rewrite Hhas, get_peek, Hpeek. reflexivity.
Qed.

(** ** Cache hits *)

Lemma getCode_hit env a w c :
  LRU.peek a (codeCache w) = Some c ->
  getCode env a w
  = (Normal (Some c), with_codeCache (snd (LRU.get a (codeCache w))) w).
Proof.
  intros Hpeek. unfold getCode, bind, cache_has, cache_get.
  assert (Hhas : LRU.has a (codeCache w) = true) by (apply has_peek; eauto).
  rewrite Hhas, get_peek, Hpeek. reflexivity.
Qed.

Lemma getNonce_hit env a w n :
  LRU.peek a (nonceCache w) = Some n ->
  getNonce env a w
  = (Normal (Some n), with_nonceCache (snd (LRU.get a (nonceCache w))) w).
Proof.
  intros Hpeek. unfold getNonce, bind, cache_has, cache_get.
  assert (Hhas : LRU.has a (nonceCache w) = true) by (apply has_peek; eauto).
  rewrite Hhas, get_peek, Hpeek. reflexivity.
Qed.

Lemma getSignature_hit env b w s :
  LRU.peek b (functionCache w) = Some s ->
  getSignature env b w
  = (Normal (Some s),
     with_functionCache (snd (LRU.get b (functionCache w))) w).
Proof.
  intros Hpeek. unfold getSignature, bind, cache_has, cache_get.
  assert (Hhas : LRU.has b (functionCache w) = true)
    by (apply has_peek; eauto).
  rewrite Hhas, get_peek, Hpeek. reflexivity.
Qed.

Lemma getOwner_hit env a block w owner :
  LRU.peek (owner_key a block) (ownerCache w) = Some owner ->
  getOwner env a block w
  = (Normal (Some owner),
     with_ownerCache (snd (LRU.get (owner_key a block) (ownerCache w))) w).
Proof.
  intros Hpeek. unfold getOwner, bind, cache_has, cache_get.
  assert (Hhas : LRU.has (owner_key a block) (ownerCache w) = true)
    by (apply has_peek; eauto).
  rewrite Hhas, get_peek, Hpeek. reflexivity.
Qed.

(** ** Operations that complete normally *)

Lemma never_throws_ret {A} (a : A) : never_throws (ret a).
Proof. intros w. reflexivity. Qed.

Lemma never_throws_bind {A B} (m : M A) (k : A -> M B) :
  never_throws m -> (forall a, never_throws (k a)) -> never_throws (bind m k).
Proof.
  intros Hm Hk w. unfold bind. specialize (Hm w).
  destruct (m w) as [[a | e] w1]; cbn in *; [apply Hk | discriminate].
Qed.

Lemma never_throws_await {A} r (oracle : nat -> Outcome A) :
  never_throws (await r oracle).
Proof. intros w. reflexivity. Qed.

Lemma never_throws_explorer_loop {A} (fetch : M (Outcome (Response A))) :
  never_throws fetch -> forall left, never_throws (explorer_loop fetch left).
Proof.
  intros Hfetch. induction left as [| left IH].
  - apply never_throws_ret.
  - cbn [explorer_loop]. apply never_throws_bind; [exact Hfetch |].
    intros [res | e].
    + destruct (soft_failure (message res));
        [destruct (maxRetries - left =? maxRetries)%nat |];
        auto using never_throws_ret.
    + destruct (maxRetries - left =? maxRetries)%nat;
        auto using never_throws_ret.
Qed.

Lemma never_throws_fetchAccount env a c o :
  never_throws (fetchAccount env a c o).
Proof.
  unfold fetchAccount. destruct (etherscanApis env c);
    [apply never_throws_await | apply never_throws_ret].
Qed.

Lemma never_throws_fetchLogs env a b c : never_throws (fetchLogs env a b c).
Proof.
  unfold fetchLogs. destruct (etherscanApis env c);
    [apply never_throws_await | apply never_throws_ret].
Qed.

Lemma never_throws_fetch_victims env attacker c left vs flag vi :
  never_throws (fetch_victims env attacker c left vs flag vi).
Proof.
  intros w.
  destruct (fetch_victims_run env attacker c left vs flag vi w)
    as (f & vi' & evs & Heq & _).
  rewrite Heq. reflexivity.
Qed.

Lemma never_throws_getCode env a : never_throws (getCode env a).
Proof.
  intros w. unfold getCode, bind, cache_has, cache_get.
  destruct (LRU.has a (codeCache w)); [reflexivity |].
  rewrite getCode_loop_cases. cbv zeta.
  destruct (provider_getCode env (calls w) a) as [c |];
    [| destruct (provider_getCode env (S (calls w)) a) as [c |];
       [| destruct (provider_getCode env (S (S (calls w))) a) as [c |]]];
    try destruct (truthy c && negb (c =? "0x")%string); reflexivity.
Qed.

Lemma never_throws_discard {A} (m : M A) :
  never_throws m -> never_throws (discard m).
Proof. intros H w. rewrite discard_fst. apply H. Qed.

(** The steps shared by the explorer-backed methods. *)
Ltac normal_method :=
  repeat first
    [ apply never_throws_ret
    | apply never_throws_await
    | apply never_throws_fetchAccount
    | apply never_throws_fetchLogs
    | apply never_throws_explorer_loop
    | apply never_throws_bind; [| intros ?]
    | match goal with
      | |- never_throws (match ?x with _ => _ end) => destruct x
      | |- never_throws (if ?b then _ else _) => destruct b
      end ].

Lemma exec_never_throws env toTx fromTx parseInt op :
  may_throw op = false -> never_throws (exec env toTx fromTx parseInt op).
Proof.
  destruct op; cbn [may_throw exec]; try discriminate; intros _;
    apply never_throws_discard.
  - apply never_throws_getCode.
  - intros w. rewrite getStorageSlot_cases. cbv zeta.
    destruct (provider_getStorageAt env (calls w) address slot blockNumber);
      [| destruct (provider_getStorageAt env (S (calls w)) address slot
                                         blockNumber);
         [| destruct (provider_getStorageAt env (S (S (calls w))) address
                                            slot blockNumber)]];
      reflexivity.
  - unfold isEoa. apply never_throws_bind; [intros w; reflexivity |].
    intros [|]; [intros w; reflexivity |].
    apply never_throws_bind; [apply never_throws_getCode |].
    intros [c |]; [| apply never_throws_ret].
    destruct (negb (truthy c)); [apply never_throws_ret |].
    intros w. reflexivity.
  - unfold getLabel. destruct (negb _); [apply never_throws_ret |].
    intros w. unfold bind. rewrite getLabel_loop_cases. cbv zeta.
    destruct (fetch_labels env (calls w) _);
      [| destruct (fetch_labels env (S (calls w)) _);
         [| destruct (fetch_labels env (S (S (calls w))) _)]];
      reflexivity.
  - intros w. unfold getNonce, bind, cache_has, cache_get.
    destruct (LRU.has address (nonceCache w)); [reflexivity |].
    rewrite getNonce_loop_cases. cbv zeta.
    destruct (provider_getTransactionCount env (calls w) address);
      [| destruct (provider_getTransactionCount env (S (calls w)) address);
         [| destruct (provider_getTransactionCount env (S (S (calls w)))
                                                   address)]];
      reflexivity.
  - unfold getAddressInfo. normal_method.
  - unfold haveInteractedAgain. normal_method.
  - unfold haveInteractedWithSameAddress.
    apply never_throws_bind; [apply never_throws_fetch_victims |].
    intros st. apply never_throws_ret.
  - unfold isRecentlyInvolvedInTransfer. normal_method.
  - unfold hasValidEntries. normal_method.
  - unfold getNumberOfLogs. normal_method.
  - intros w. unfold getOwner, bind, cache_has, cache_get, await.
    destruct (LRU.has _ (ownerCache w)); [reflexivity |].
    cbn.
    destruct (contract_owner env _ address block); cbn; [reflexivity |].
    destruct (contract_getOwner env _ address block); reflexivity.
  - unfold isValueUnique. normal_method.
Qed.


(** ** Requests whose retries ran out *)

Lemma issued_lt t n r : issued t n r -> (n < calls_in t)%nat.
Proof. intros (t1 & t2 & -> & <-). rewrite calls_in_app. cbn. lia. Qed.

(** A call numbered after the calls of [t] is among the newer events. *)
Lemma issued_new evs t n r :
  issued (evs ++ t) n r -> (calls_in t <= n)%nat ->
  exists t1 t2,
    evs = t1 ++ Remote r :: t2 /\ n = (calls_in t2 + calls_in t)%nat.
Proof.
  induction evs as [| e evs IH]; cbn [app]; intros Hi Hle.
  - apply issued_lt in Hi. lia.
  - destruct Hi as (t1 & t2 & Heq & Hn). destruct t1 as [| e' t1].
    + cbn in Heq. injection Heq as -> <-. exists [], evs.
      rewrite calls_in_app in Hn. split; [reflexivity | lia].
    + cbn in Heq. injection Heq as <- Heq.
      destruct (IH (ex_intro _ t1 (ex_intro _ t2 (conj Heq Hn))) Hle)
        as (t1' & t2' & -> & Hn').
      exists (e :: t1'), t2'. split; [reflexivity | exact Hn'].
Qed.

Lemma failed_since_issued env n0 t :
  (forall n r, (n0 <= n)%nat -> issued t n r -> failed_call env n r = true) ->
  failed_since env n0 t.
Proof.
  induction t as [| [r | ms] t IH]; cbn; intros H.
  - exact I.
  - split.
    + intros Hle. apply H; [exact Hle | apply issued_head].
    + apply IH. intros n r' Hn Hi. apply H; [exact Hn |].
      apply issued_cons. exact Hi.
  - apply IH. intros n r' Hn Hi. apply H; [exact Hn |].
    apply issued_cons. exact Hi.
Qed.

(** When an operation issues one request only, the request giving up means
    that all the calls of the operation failed. *)
Lemma gave_up_exhausted env w w' r0 evs r :
  trace w' = evs ++ trace w ->
  (forall r', In (Remote r') evs -> r' = r0) ->
  gave_up env w w' r -> exhausted env w w'.
Proof.
  intros Ht Hall [(n & Hn & Hi) Hfail].
  assert (Hnew : forall m r', (calls w <= m)%nat -> issued (trace w') m r' ->
                              r' = r0).
  { intros m r' Hm Hi'. rewrite Ht in Hi'.
    destruct (issued_new _ _ _ _ Hi' Hm) as (t1 & t2 & -> & _).
    apply Hall. apply in_elt. }
  split.
  - apply issued_lt in Hi. unfold calls in *. lia.
  - apply failed_since_issued. intros m r' Hm Hi'.
    pose proof (Hnew m r' Hm Hi') as E1. pose proof (Hnew n r Hn Hi) as E2.
    rewrite E1, <- E2. apply Hfail; [exact Hm |].
    rewrite E2, <- E1. exact Hi'.
Qed.

Lemma getSignature_requests env b w :
  exists evs,
    trace (snd (getSignature env b w)) = evs ++ trace w
    /\ forall r', In (Remote r') evs -> r' = FetchText (signature_url b).
Proof.
  unfold getSignature, bind, cache_has, cache_get.
  destruct (LRU.has b (functionCache w)).
  - exists []. split; [reflexivity | intros r' []].
  - fold (signature_url b). rewrite getSignature_loop_cases. cbv zeta.
    generalize (signature_url b) as url; intros url.
    destruct (fetch_text env (calls w) url) as [t |];
      [| destruct (fetch_text env (S (calls w)) url) as [t |];
         [| destruct (fetch_text env (S (S (calls w))) url) as [t |]]];
      try destruct (truthy t && negb (prefix "404" t));
      (eexists; split;
       [ cbn [fst snd after trace with_trace with_functionCache cache_set
              ret bind];
         reflexivity
       | cbn; intros r' Hin; intuition congruence ]).
Qed.

Lemma calls_in_repeat r k : calls_in (repeat (Remote r) k) = k.
Proof. induction k; cbn; auto. Qed.

(** The newest call of a loop that made [S k] attempts. *)
Lemma issued_newest r k t :
  issued (repeat (Remote r) (S k) ++ t) (calls_in t + k) r.
Proof.
  exists [], (repeat (Remote r) k ++ t). split; [reflexivity |].
  rewrite calls_in_app, calls_in_repeat. lia.
Qed.

(** How the explorer loop ends: after [S k] attempts, and with an answer only
    when the newest attempt did not fail. *)
Lemma explorer_loop_outcome {A} r (oracle : nat -> Outcome (Response A)) w :
  exists k,
    snd (explorer_loop (await r oracle) maxRetries w)
    = after (repeat (Remote r) (S k)) w
    /\ match fst (explorer_loop (await r oracle) maxRetries w) with
       | Normal (Some _) => attempt_failed (oracle (calls w + k)%nat) = false
       | Normal None => True
       | Thrown _ => False
       end.
Proof.
  rewrite explorer_loop_await.
  destruct (attempt_failed (oracle (calls w))) eqn:F1;
    [destruct (attempt_failed (oracle (S (calls w)))) eqn:F2;
     [destruct (attempt_failed (oracle (S (S (calls w))))) eqn:F3 |] |].
  - exists 2%nat. split; [reflexivity | exact I].
  - exists 2%nat. split; [reflexivity |]. cbn [fst].
    replace (calls w + 2)%nat with (S (S (calls w))) by lia.
    destruct (oracle (S (S (calls w)))); [exact F3 | discriminate F3].
  - exists 1%nat. split; [reflexivity |]. cbn [fst].
    replace (calls w + 1)%nat with (S (calls w)) by lia.
    destruct (oracle (S (calls w))); [exact F2 | discriminate F2].
  - exists 0%nat. split; [reflexivity |]. cbn [fst].
    rewrite Nat.add_0_r.
    destruct (oracle (calls w)); [exact F1 | discriminate F1].
Qed.

(** A request that gave up was issued by the run, and none of its calls was
    answered. *)
Lemma gave_up_refuted env w w' r :
  (forall r',
      (exists n, (calls w <= n)%nat /\ issued (trace w') n r') ->
      exists n, (calls w <= n)%nat /\ issued (trace w') n r'
                /\ failed_call env n r' = false) ->
  ~ gave_up env w w' r.
Proof.
  intros H [Hissued Hfail].
  destruct (H r Hissued) as (n & Hn & Hi & Hok).
  rewrite (Hfail n Hn Hi) in Hok. discriminate.
Qed.

Lemma getSourceCode_thrown env a c w r :
  is_thrown (fst (getSourceCode env a c w)) = true ->
  ~ gave_up env w (snd (getSourceCode env a c w)) r.
Proof.
  unfold getSourceCode, fetchSourceCode, bind.
  destruct (etherscanApis env c).
  - destruct (explorer_loop_outcome
                (FetchSourceCode a c)
                (fun n => fetch_sourceCode env n a c) w)
      as (k & Hw & Hres).
    destruct (explorer_loop _ maxRetries w) as [[[res |] | e] w1];
      cbn [fst snd] in *; [| discriminate | contradiction].
    subst w1. destruct (result res); [| discriminate].
    intros _. apply gave_up_refuted. cbn [snd throw after trace with_trace].
    intros r' (n & Hn & Hi).
    destruct (issued_new _ _ _ _ Hi Hn) as (t1 & t2 & Heq & _).
    assert (Hin : In (Remote r') (repeat (Remote (FetchSourceCode a c)) (S k)))
      by (rewrite Heq; apply in_elt).
    apply repeat_spec in Hin. injection Hin as ->.
    exists (calls w + k)%nat. split; [lia |].
    split; [apply issued_newest | exact Hres].
  - rewrite explorer_loop_unconfigured. discriminate.
Qed.

Lemma getAddresses_thrown env fromTx a c h w r :
  is_thrown (fst (getAddresses env fromTx a c h w)) = true ->
  ~ gave_up env w (snd (getAddresses env fromTx a c h w)) r.
Proof.
  unfold getAddresses, fetchAccount, fetchAccountInternalTxs, bind.
  destruct (etherscanApis env c); cbn [negb].
  - set (r1 := FetchAccount a c (fromTx + 1)).
    set (r2 := FetchAccountInternalTxs a c (1 + 1)).
    destruct (explorer_loop_outcome
                r1 (fun n => fetch_account env n a c (fromTx + 1)) w)
      as (k1 & Hw1 & Hres1).
    destruct (explorer_loop _ maxRetries w) as [[[res |] | e] w1];
      cbn [fst snd] in *; [| discriminate | contradiction].
    subst w1. destruct (result res) as [| first rest].
    + intros _. apply gave_up_refuted. cbn [snd throw after trace with_trace].
      intros r' (n & Hn & Hi).
      destruct (issued_new _ _ _ _ Hi Hn) as (t1 & t2 & Heq & _).
      assert (Hin : In (Remote r') (repeat (Remote r1) (S k1)))
        by (rewrite Heq; apply in_elt).
      apply repeat_spec in Hin. injection Hin as ->.
      exists (calls w + k1)%nat. split; [lia |].
      split; [apply issued_newest | exact Hres1].
    + destruct (tx_to first =? a)%string; [discriminate |].
      destruct (explorer_loop_outcome
                  r2 (fun n => fetch_internalTxs env n a c (1 + 1))
                  (after (repeat (Remote r1) (S k1)) w))
        as (k2 & Hw2 & Hres2).
      destruct (explorer_loop _ maxRetries (after _ w))
        as [[[res' |] | e] w2];
        cbn [fst snd] in *; [| discriminate | contradiction].
      subst w2. destruct (result res'); [| discriminate].
      intros _. apply gave_up_refuted.
      cbn [snd throw after trace with_trace].
      intros r' (n & Hn & Hi).
      rewrite app_assoc in Hi.
      destruct (issued_new _ _ _ _ Hi Hn) as (t1 & t2 & Heq & _).
      assert (Hin : In (Remote r') (repeat (Remote r2) (S k2)
                                    ++ repeat (Remote r1) (S k1)))
        by (rewrite Heq; apply in_elt).
      apply in_app_iff in Hin.
      destruct Hin as [Hin | Hin]; apply repeat_spec in Hin;
        injection Hin as ->.
      * exists (calls (after (repeat (Remote r1) (S k1)) w) + k2)%nat.
        rewrite calls_after. split; [lia |]. split.
        -- pose proof (issued_newest r2 k2 (repeat (Remote r1) (S k1)
                                            ++ trace w)) as Hnew.
           rewrite calls_in_app in Hnew. exact Hnew.
        -- rewrite calls_after in Hres2. exact Hres2.
      * exists (calls w + k1)%nat. split; [lia |]. split.
        -- apply issued_app. apply issued_newest.
        -- exact Hres1.
  - cbn [fst snd throw]. intros _ [(n & Hn & Hi) _].
    apply issued_lt in Hi. unfold calls in Hn. lia.
Qed.

(** A request that gave up makes exactly [getSignature] throw. *)
Lemma exec_gave_up env toTx fromTx parseInt op w r :
  gave_up env w (snd (exec env toTx fromTx parseInt op w)) r ->
  is_thrown (fst (exec env toTx fromTx parseInt op w)) = is_GetSignature op.
Proof.
  intros Hg. destruct (may_throw op) eqn:Hmay.
  - destruct op; try discriminate Hmay; cbn [exec is_GetSignature] in *;
      rewrite discard_fst; rewrite discard_snd in Hg.
    + destruct (getSignature_requests env bytes w) as (evs & Ht & Hall).
      pose proof (gave_up_exhausted _ _ _ _ _ _ Ht Hall Hg) as Hex.
      destruct (getSignature_exhausted _ _ _ Hex) as [[e [_ H1]] _].
      rewrite H1. reflexivity.
    + destruct (is_thrown (fst (getAddresses env fromTx address chainId hash
                                             w))) eqn:Hth;
        [| reflexivity].
      exfalso. exact (getAddresses_thrown _ _ _ _ _ _ _ Hth Hg).
    + destruct (is_thrown (fst (getSourceCode env address chainId w)))
        eqn:Hth; [| reflexivity].
      exfalso. exact (getSourceCode_thrown _ _ _ _ _ Hth Hg).
  - rewrite (exec_never_throws env toTx fromTx parseInt op Hmay w).
    destruct op; try discriminate Hmay; reflexivity.
Qed.

(** ** The spec's counterparties and the code's *)




(** * The claims *)

(** ** Fallbacks after three failures *)

(** C2. When the provider call of an address fails on all three attempts,
    [getCode] returns [undefined], [getNonce] returns the sentinel 100000 and
    [getStorageSlot] returns [undefined]; each completes normally, leaves the
    caches as they were and appends exactly one record, built from the third
    error, to the error collector. *)
Theorem three_failures_give_fallback env address slot blockNumber w :
  (forall e,
      LRU.has address (codeCache w) = false ->
      fails_thrice (fun n => provider_getCode env n address) (calls w) e ->
      getCode env address w
      = (Normal None,
         add_error (alert_of "fetcher.getCode" e)
                   (after (three_spaced (ProviderGetCode address)) w)))
  /\ (forall e,
      LRU.has address (nonceCache w) = false ->
      fails_thrice (fun n => provider_getTransactionCount env n address)
                   (calls w) e ->
      getNonce env address w
      = (Normal (Some 100000),
         add_error (alert_of "fetcher.getNonce" e)
                   (after (three_spaced (ProviderGetTransactionCount address))
                          w)))
  /\ (forall e,
      fails_thrice
        (fun n => provider_getStorageAt env n address slot blockNumber)
        (calls w) e ->
      getStorageSlot env address slot blockNumber w
      = (Normal None,
         add_error (alert_of "fetcher.getStorageSlot" e)
                   (after (three_spaced
                             (ProviderGetStorageAt address slot blockNumber))
                          w))).
Proof.
  unfold fails_thrice. repeat split.
  - intros e Hmiss (H1 & H2 & H3).
    unfold getCode, bind, cache_has. rewrite Hmiss, getCode_loop_cases.
    cbv zeta. rewrite H3.
    destruct (provider_getCode env (calls w) address); [discriminate H1 |].
    destruct (provider_getCode env (S (calls w)) address);
      [discriminate H2 |].
    reflexivity.
  - intros e Hmiss (H1 & H2 & H3).
    unfold getNonce, bind, cache_has. rewrite Hmiss, getNonce_loop_cases.
    cbv zeta. rewrite H3.
    destruct (provider_getTransactionCount env (calls w) address);
      [discriminate H1 |].
    destruct (provider_getTransactionCount env (S (calls w)) address);
      [discriminate H2 |].
    reflexivity.
  - intros e (H1 & H2 & H3).
    rewrite getStorageSlot_cases. cbv zeta. rewrite H3.
    destruct (provider_getStorageAt env (calls w) address slot blockNumber);
      [discriminate H1 |].
    destruct (provider_getStorageAt env (S (calls w)) address slot
                                    blockNumber);
      [discriminate H2 |].
    reflexivity.
Qed.

Lemma three_failures_give_fallback_witness :
  getCode env_down "0xabc" new_DataFetcher
  = (Normal None,
     add_error (alert_of "fetcher.getCode" timeout_error)
               (after (three_spaced (ProviderGetCode "0xabc"))
                      new_DataFetcher))
  /\ getNonce env_down "0xabc" new_DataFetcher
     = (Normal (Some 100000),
        add_error (alert_of "fetcher.getNonce" timeout_error)
                  (after (three_spaced (ProviderGetTransactionCount "0xabc"))
                         new_DataFetcher))
  /\ getStorageSlot env_down "0xabc" 0 17 new_DataFetcher
     = (Normal None,
        add_error (alert_of "fetcher.getStorageSlot" timeout_error)
                  (after (three_spaced (ProviderGetStorageAt "0xabc" 0 17))
                         new_DataFetcher)).
Proof.
  destruct (three_failures_give_fallback env_down "0xabc" 0 17 new_DataFetcher)
    as (Hcode & Hnonce & Hslot).
  split; [| split].
  - apply Hcode; [reflexivity | repeat split; reflexivity].
  - apply Hnonce; [reflexivity | repeat split; reflexivity].
  - apply Hslot. repeat split; reflexivity.
Defined.

(** ** Which exhaustion propagates *)

(** C3. When the retries of a request run out (the operation issued the
    request and every call for it failed, whatever the other requests of the
    operation did), the operation ends with an exception exactly when it is
    [getSignature]; and [getSignature] then propagates the error of its third
    attempt. A loop that runs out after an earlier loop of the operation
    succeeded, as the second loop of [getAddresses] can, is covered. *)
Theorem only_getSignature_propagates env toTx fromTx parseInt op w r :
  gave_up env w (snd (exec env toTx fromTx parseInt op w)) r ->
  is_thrown (fst (exec env toTx fromTx parseInt op w)) = is_GetSignature op
  /\ (forall bytes,
         op = GetSignature bytes ->
         exists e,
           fetch_text env (S (S (calls w))) (signature_url bytes) = Err e
           /\ fst (getSignature env bytes w) = Thrown e).
Proof.
  intros H. split.
  - apply (exec_gave_up env toTx fromTx parseInt op w r H).
  - intros bytes ->. cbn [exec] in H. rewrite discard_snd in H.
    destruct (getSignature_requests env bytes w) as (evs & Ht & Hall).
    apply (getSignature_exhausted env bytes w).
    exact (gave_up_exhausted _ _ _ _ _ _ Ht Hall H).
Qed.

Lemma only_getSignature_propagates_witness :
  (is_thrown (fst (exec env_down 100 1 parseInt_digits
                        (GetSignature "0xa9059cbb") new_DataFetcher))
   = true)
  /\ (is_thrown (fst (exec env_down 100 1 parseInt_digits
                           (GetNumberOfLogs "0xabc" 17 1) new_DataFetcher))
      = false)
  /\ (is_thrown (fst (exec (env_no_internalTxs outgoing_history) 100 1
                           parseInt_digits (GetAddresses "0xme" 1 "0xh0")
                           new_DataFetcher))
      = false).
Proof.
  split; [| split].
  - apply (only_getSignature_propagates
             env_down 100 1 parseInt_digits (GetSignature "0xa9059cbb")
             new_DataFetcher (FetchText (signature_url "0xa9059cbb"))).
    split.
    + exists 2%nat. split; [cbn; lia |].
      exists [], [Sleep 1000; Remote (FetchText (signature_url "0xa9059cbb"));
                  Sleep 1000; Remote (FetchText (signature_url "0xa9059cbb"))].
      split; reflexivity.
    + intros n _ _. reflexivity.
  - apply (only_getSignature_propagates
             env_down 100 1 parseInt_digits (GetNumberOfLogs "0xabc" 17 1)
             new_DataFetcher (FetchLogs "0xabc" 17 1)).
    split.
    + exists 2%nat. split; [cbn; lia |].
      exists [], [Remote (FetchLogs "0xabc" 17 1);
                  Remote (FetchLogs "0xabc" 17 1)].
      split; reflexivity.
    + intros n _ _. reflexivity.
  - apply (only_getSignature_propagates
             (env_no_internalTxs outgoing_history) 100 1 parseInt_digits
             (GetAddresses "0xme" 1 "0xh0") new_DataFetcher
             (FetchAccountInternalTxs "0xme" 1 2)).
    split.
    + exists 3%nat. split; [cbn; lia |].
      exists [], [Remote (FetchAccountInternalTxs "0xme" 1 2);
                  Remote (FetchAccountInternalTxs "0xme" 1 2);
                  Remote (FetchAccount "0xme" 1 2)].
      split; reflexivity.
    + intros n _ _. reflexivity.
Defined.

(** ** The fallback of the log count *)

(** C10. When all three explorer attempts of [getNumberOfLogs] fail, by
    rejection or by a soft-failure message, it returns the number 10,
    normally; so does a chain id without configuration, for which no call is
    made. The caller gets the same completion as from an answer that holds
    ten logs. *)
Theorem getNumberOfLogs_falls_back_to_10 env address blockNumber chainId w :
  (etherscanApis env chainId = true ->
   attempts_fail (fun n => fetch_logs env n address blockNumber chainId)
                 (calls w) ->
   getNumberOfLogs env address blockNumber chainId w
   = (Normal 10, after (three (FetchLogs address blockNumber chainId)) w))
  /\ (etherscanApis env chainId = false ->
      getNumberOfLogs env address blockNumber chainId w = (Normal 10, w))
  /\ (forall res,
         etherscanApis env chainId = true ->
         fetch_logs env (calls w) address blockNumber chainId = Ok res ->
         soft_failure (message res) = false ->
         List.length (result res) = 10%nat ->
         fst (getNumberOfLogs env address blockNumber chainId w) = Normal 10).
Proof.
  unfold getNumberOfLogs, fetchLogs, bind, attempts_fail. repeat split.
  - intros Hcfg (H1 & H2 & H3).
    rewrite Hcfg, explorer_loop_await, H1, H2, H3. reflexivity.
  - intros Hcfg. rewrite Hcfg, explorer_loop_unconfigured. reflexivity.
  - intros res Hcfg Hok Hmsg Hlen.
    rewrite Hcfg, explorer_loop_await, Hok. cbn. rewrite Hmsg. cbn.
    rewrite Hlen. reflexivity.
Qed.

Lemma getNumberOfLogs_falls_back_to_10_witness :
  getNumberOfLogs env_down "0xabc" 17 1 new_DataFetcher
  = (Normal 10, after (three (FetchLogs "0xabc" 17 1)) new_DataFetcher)
  /\ getNumberOfLogs (env_answering "0x" no_history) "0xabc" 17 5
                     new_DataFetcher
     = (Normal 10, new_DataFetcher)
  /\ fst (getNumberOfLogs (env_answering "0x" no_history) "0xabc" 17 1
                          new_DataFetcher)
     = Normal 10.
Proof.
  split; [| split].
  - apply (getNumberOfLogs_falls_back_to_10 env_down "0xabc" 17 1
                                            new_DataFetcher).
    + reflexivity.
    + repeat split; reflexivity.
  - apply (getNumberOfLogs_falls_back_to_10 (env_answering "0x" no_history)
                                            "0xabc" 17 5 new_DataFetcher).
    reflexivity.
  - apply (proj2 (proj2 (getNumberOfLogs_falls_back_to_10
                           (env_answering "0x" no_history) "0xabc" 17 1
                           new_DataFetcher))
                 (mkResponse "OK" (repeat "log"%string 10)));
      reflexivity.
Defined.

(** ** What the caches hold *)

(** C1, as the spec states it, fails: after [getOwner] found both accessors
    failing, [ownerCache] holds the empty string for the key, an entry that
    no successful call produced. *)
Lemma ownerCache_holds_failed_lookup :
  ~ (forall env toTx fromTx parseInt ops,
        let w := exec_all env toTx fromTx parseInt ops new_DataFetcher in
        caches_sound env w /\ owner_sound env w).
Proof.
  intros H.
  destruct (H env_down 100 1 parseInt_digits [GetOwner "0xabc" 17])
    as [_ Howner].
  destruct (Howner (owner_key "0xabc" 17) ""%string eq_refl)
    as (n & a & b & _ & [[_ Hok] | [_ Hok]]); discriminate Hok.
Qed.

(** C1, amended. After any sequence of operations on a fresh instance,
    every entry of [codeCache], [eoaCache], [nonceCache] and [functionCache]
    comes from a remote call that succeeded, and [ownerCache] holds answers
    of [owner()] or [getOwner()] or the empty string recorded after both
    failed. Hence a key whose lookups all failed so far is not in the first
    four caches, and the next query for it goes to the remote side again. *)
Theorem caches_hold_recorded_answers env toTx fromTx parseInt ops :
  let w := exec_all env toTx fromTx parseInt ops new_DataFetcher in
  caches_sound env w
  /\ owner_recorded env w
  /\ (forall a,
         (forall n, issued (trace w) n (ProviderGetCode a) ->
                    is_err (provider_getCode env n a) = true) ->
         (calls w < calls (snd (getCode env a w)))%nat
         /\ (calls w < calls (snd (isEoa env a w)))%nat)
  /\ (forall a,
         (forall n, issued (trace w) n (ProviderGetTransactionCount a) ->
                    is_err (provider_getTransactionCount env n a) = true) ->
         (calls w < calls (snd (getNonce env a w)))%nat)
  /\ (forall b,
         (forall n, issued (trace w) n (FetchText (signature_url b)) ->
                    is_err (fetch_text env n (signature_url b)) = true) ->
         (calls w < calls (snd (getSignature env b w)))%nat).
Proof.
  intros w.
  destruct (exec_all_recorded env toTx fromTx parseInt ops new_DataFetcher
              (new_DataFetcher_recorded env))
    as [Hsound Howner].
  fold w in Hsound, Howner.
  split; [exact Hsound |]. split; [exact Howner |].
  destruct Hsound as (Hc & He & Hn & Hf).
  split; [| split].
  - intros a Hfail.
    assert (Hcode : LRU.has a (codeCache w) = false).
    { apply has_false_of_no_peek. intros c Hp.
      destruct (Hc a c Hp) as (_ & n & Hi & Hok).
      specialize (Hfail n Hi). rewrite Hok in Hfail. discriminate. }
    assert (Heoa : LRU.has a (eoaCache w) = false).
    { apply has_false_of_no_peek. intros b Hp.
      destruct (He a b Hp) as (n & c & Hi & Hok & _).
      specialize (Hfail n Hi). rewrite Hok in Hfail. discriminate. }
    split; [apply getCode_miss_calls | apply isEoa_miss_calls]; assumption.
  - intros a Hfail. apply getNonce_miss_calls.
    apply has_false_of_no_peek. intros v Hp.
    destruct (Hn a v Hp) as (n & Hi & Hok).
    specialize (Hfail n Hi). rewrite Hok in Hfail. discriminate.
  - intros b Hfail. apply getSignature_miss_calls.
    apply has_false_of_no_peek. intros s Hp.
    destruct (Hf b s Hp) as (_ & n & Hi & Hok).
    specialize (Hfail n Hi). rewrite Hok in Hfail. discriminate.
Qed.

Lemma caches_hold_recorded_answers_witness :
  (calls (exec_all env_down 100 1 parseInt_digits
                   [GetCode "0xabc"; GetNonce "0xabc"] new_DataFetcher)
   < calls (snd (getCode env_down "0xabc"
                   (exec_all env_down 100 1 parseInt_digits
                             [GetCode "0xabc"; GetNonce "0xabc"]
                             new_DataFetcher))))%nat
  /\ (calls (exec_all env_down 100 1 parseInt_digits
                      [GetCode "0xabc"; GetNonce "0xabc"] new_DataFetcher)
      < calls (snd (getNonce env_down "0xabc"
                      (exec_all env_down 100 1 parseInt_digits
                                [GetCode "0xabc"; GetNonce "0xabc"]
                                new_DataFetcher))))%nat.
Proof.
  pose proof (caches_hold_recorded_answers
                env_down 100 1 parseInt_digits
                [GetCode "0xabc"; GetNonce "0xabc"]) as H.
  cbv zeta in H. destruct H as (_ & _ & Hcode & Hnonce & _).
  split.
  - refine (proj1 (Hcode "0xabc"%string _)). intros n _. reflexivity.
  - refine (Hnonce "0xabc"%string _). intros n _. reflexivity.
Defined.

(** ** The retry policy *)




(** ** [isEoa] *)

(** C4, as the spec states it, fails: [isEoa] answers from [eoaCache] before
    it looks at any code. After [isEoa] saw ["0x"] for an address that got
    its bytecode since, the code fetched for the address is non-empty and
    [isEoa] still returns [true]. *)
Lemma isEoa_keeps_answer_after_deployment :
  ~ (forall env toTx fromTx parseInt ops address c,
        let w := exec_all env toTx fromTx parseInt ops new_DataFetcher in
        fst (getCode env address w) = Normal (Some c) ->
        truthy c = true -> c <> "0x"%string ->
        fst (isEoa env address w) = Normal (Some false)).
Proof.
  intros H.
  specialize (H env_deploying 100 1 parseInt_digits [IsEoa sample_contract]
                sample_contract "0x6080"%string eq_refl eq_refl).
  cbv zeta in H.
  assert (Hne : "0x6080"%string <> "0x"%string) by discriminate.
  specialize (H Hne). vm_compute in H. discriminate H.
Qed.

(** C4, amended. On a miss of [eoaCache], [isEoa] returns [true] exactly when
    the
    code that [getCode] delivers is ["0x"], [false] when that code is
    non-empty bytecode, and [undefined] when [getCode] delivers none, which
    is what three failed provider calls lead to. After non-empty bytecode a
    second [isEoa] for the address returns the cached [false] and adds no
    event to the trace, so no second remote call. *)
Theorem isEoa_from_code env address w :
  LRU.has address (eoaCache w) = false ->
  (forall code,
      fst (getCode env address w) = Normal code ->
      (fst (isEoa env address w) = Normal (Some true) <-> code = Some "0x"%string)
      /\ (code = None -> fst (isEoa env address w) = Normal None)
      /\ (forall c,
             code = Some c -> truthy c = true -> c <> "0x"%string ->
             fst (isEoa env address w) = Normal (Some false)
             /\ fst (isEoa env address (snd (isEoa env address w)))
                = Normal (Some false)
             /\ trace (snd (isEoa env address (snd (isEoa env address w))))
                = trace (snd (isEoa env address w))))
  /\ (forall e,
         LRU.has address (codeCache w) = false ->
         fails_thrice (fun n => provider_getCode env n address) (calls w) e ->
         fst (isEoa env address w) = Normal None).
Proof.
  intros Hmiss. split.
  - intros code Hcode. rewrite (isEoa_miss env address w Hmiss).
    destruct (getCode env address w) as [c0 w1]. cbn in Hcode. subst c0.
    destruct code as [c |].
    + destruct (truthy c) eqn:Ht.
      * split; [| split].
        -- cbn. split.
           ++ intros [= Heq]. apply String.eqb_eq in Heq. congruence.
           ++ intros [= ->]. reflexivity.
        -- discriminate.
        -- intros c' [= <-] _ Hne.
           apply String.eqb_neq in Hne. rewrite Hne. cbn [fst snd].
           rewrite (isEoa_hit env address _ false);
             [| cbn; apply peek_set_same].
           repeat split.
      * split; [| split].
        -- cbn. split; [discriminate |].
           intros [= ->]. discriminate Ht.
        -- discriminate.
        -- intros c' [= <-] Ht'. congruence.
    + split; [| split].
      * cbn. split; discriminate.
      * reflexivity.
      * discriminate.
  - intros e Hcmiss Hfail. rewrite (isEoa_miss env address w Hmiss).
    destruct (getCode_fails_thrice env address w e Hcmiss Hfail)
      as [w1 ->].
    reflexivity.
Qed.

Lemma isEoa_from_code_witness :
  (fst (isEoa (env_answering "0x6080" no_history) "0xabc" new_DataFetcher)
   = Normal (Some false))
  /\ (fst (isEoa env_down "0xabc" new_DataFetcher) = Normal None).
Proof.
  split.
  - destruct (isEoa_from_code (env_answering "0x6080" no_history) "0xabc"
                              new_DataFetcher eq_refl)
      as [H _].
    destruct (H (Some "0x6080"%string) eq_refl) as (_ & _ & H3).
    apply (H3 "0x6080"%string eq_refl eq_refl). discriminate.
  - destruct (isEoa_from_code env_down "0xabc" new_DataFetcher eq_refl)
      as [_ H].
    apply (H timeout_error); [reflexivity | repeat split; reflexivity].
Defined.

(** ** Two calls with the same key *)

(** C5, as the spec states it, fails: the code ["0x"] is not cached, so two
    [getCode] calls for the address on a fresh instance, with nothing
    evicted in between, issue two remote calls. *)
Lemma getCode_fetches_empty_code_again :
  let env := env_answering "0x" no_history in
  let w1 := snd (getCode env "0xabc" new_DataFetcher) in
  let w2 := snd (getCode env "0xabc" w1) in
  LRU.entries (codeCache w1) = [] /\ calls w2 = 2%nat /\ calls w2 <> 1%nat.
Proof. cbv. repeat split. discriminate. Qed.

(** C5, amended. For a key that is not cached and whose first remote attempt
    succeeds with a result that the operation keeps (a truthy code other
    than ["0x"] for [getCode], a truthy code for [isEoa], any count for
    [getNonce], a truthy text that does not start with ["404"] for
    [getSignature], an answer of [owner()] for [getOwner]), two calls in a
    row return the same value and issue exactly one remote call in total:
    the second is served from the cache. *)
Theorem second_call_served_from_cache env w :
  (forall a c,
      LRU.has a (codeCache w) = false ->
      provider_getCode env (calls w) a = Ok c ->
      cacheable_code c = true ->
      let r1 := getCode env a w in
      let r2 := getCode env a (snd r1) in
      fst r1 = Normal (Some c) /\ fst r2 = Normal (Some c)
      /\ calls (snd r2) = S (calls w))
  /\ (forall a c,
      LRU.has a (eoaCache w) = false ->
      LRU.has a (codeCache w) = false ->
      provider_getCode env (calls w) a = Ok c ->
      truthy c = true ->
      let r1 := isEoa env a w in
      let r2 := isEoa env a (snd r1) in
      fst r1 = Normal (Some (c =? "0x")%string)
      /\ fst r2 = Normal (Some (c =? "0x")%string)
      /\ calls (snd r2) = S (calls w))
  /\ (forall a n,
      LRU.has a (nonceCache w) = false ->
      provider_getTransactionCount env (calls w) a = Ok n ->
      let r1 := getNonce env a w in
      let r2 := getNonce env a (snd r1) in
      fst r1 = Normal (Some n) /\ fst r2 = Normal (Some n)
      /\ calls (snd r2) = S (calls w))
  /\ (forall b s,
      LRU.has b (functionCache w) = false ->
      fetch_text env (calls w) (signature_url b) = Ok s ->
      cacheable_signature s = true ->
      let r1 := getSignature env b w in
      let r2 := getSignature env b (snd r1) in
      fst r1 = Normal (Some s) /\ fst r2 = Normal (Some s)
      /\ calls (snd r2) = S (calls w))
  /\ (forall a block owner,
      LRU.has (owner_key a block) (ownerCache w) = false ->
      contract_owner env (calls w) a block = Ok owner ->
      let r1 := getOwner env a block w in
      let r2 := getOwner env a block (snd r1) in
      fst r1 = Normal (Some owner) /\ fst r2 = Normal (Some owner)
      /\ calls (snd r2) = S (calls w)).
Proof.
  split; [| split; [| split; [| split]]].
  - intros a c Hmiss Hok Hcc. cbv zeta.
    assert (H1 : getCode env a w
                 = (Normal (Some c),
                    with_codeCache
                      (LRU.set a c (codeCache w))
                      (after [Remote (ProviderGetCode a)] w))).
    { unfold getCode, bind, cache_has. rewrite Hmiss, getCode_loop_cases.
      cbv zeta. rewrite Hok. fold (cacheable_code c). rewrite Hcc.
      reflexivity. }
    rewrite H1. cbn [fst snd].
    rewrite (getCode_hit env a _ c); [| cbn; apply peek_set_same].
    repeat split.
  - intros a c Hemiss Hcmiss Hok Ht. cbv zeta.
    assert (H1 : exists w1,
               isEoa env a w
               = (Normal (Some (c =? "0x")%string),
                  with_eoaCache
                    (LRU.set a (c =? "0x")%string (eoaCache w1)) w1)
               /\ calls w1 = S (calls w)).
    { rewrite (isEoa_miss env a w Hemiss).
      unfold getCode, bind, cache_has.
      rewrite Hcmiss, getCode_loop_cases.
      cbv zeta. rewrite Hok.
      destruct (truthy c && negb (c =? "0x")%string);
        [ exists (with_codeCache (LRU.set a c (codeCache w))
                                 (after [Remote (ProviderGetCode a)] w))
        | exists (after [Remote (ProviderGetCode a)] w) ];
        cbn; rewrite Ht; split; reflexivity. }
    destruct H1 as (w1 & H1 & Hcalls). rewrite H1. cbn [fst snd].
    rewrite (isEoa_hit env a _ (c =? "0x")%string);
      [| cbn; apply peek_set_same].
    repeat split. exact Hcalls.
  - intros a n Hmiss Hok. cbv zeta.
    assert (H1 : getNonce env a w
                 = (Normal (Some n),
                    with_nonceCache
                      (LRU.set a n (nonceCache w))
                      (after [Remote (ProviderGetTransactionCount a)] w))).
    { unfold getNonce, bind, cache_has. rewrite Hmiss, getNonce_loop_cases.
      cbv zeta. rewrite Hok. reflexivity. }
    rewrite H1. cbn [fst snd].
    rewrite (getNonce_hit env a _ n); [| cbn; apply peek_set_same].
    repeat split.
  - intros b s Hmiss Hok Hcs. cbv zeta.
    assert (H1 : getSignature env b w
                 = (Normal (Some s),
                    with_functionCache
                      (LRU.set b s (functionCache w))
                      (after [Remote (FetchText (signature_url b))] w))).
    { unfold getSignature, bind, cache_has. rewrite Hmiss.
      fold (signature_url b). rewrite getSignature_loop_cases.
      cbv zeta. rewrite Hok. fold (cacheable_signature s). rewrite Hcs.
      reflexivity. }
    rewrite H1. cbn [fst snd].
    rewrite (getSignature_hit env b _ s); [| cbn; apply peek_set_same].
    repeat split.
  - intros a block owner Hmiss Hok. cbv zeta.
    assert (H1 : getOwner env a block w
                 = (Normal (Some owner),
                    with_ownerCache
                      (LRU.set (owner_key a block) owner (ownerCache w))
                      (after [Remote (ContractOwner a block)] w))).
    { unfold getOwner, bind, cache_has, await. rewrite Hmiss, Hok.
      reflexivity. }
    rewrite H1. cbn [fst snd].
    rewrite (getOwner_hit env a block _ owner);
      [| cbn [ownerCache with_ownerCache]; apply peek_set_same].
    repeat split.
Qed.

(** ** [hasValidEntries] *)

(** C8. On a fetched history in which the entry with the target hash sits at
    an index [i >= 3], and one of the three entries before it carries the
    value ["0"], [hasValidEntries] returns [false], whatever the senders of
    these entries are. *)
Theorem zero_value_before_target_is_invalid
    env toTx address chainId hash w k res i entry :
  etherscanApis env chainId = true ->
  fetched_at (fun n => fetch_account env n address chainId (toTx + 1))
             (calls w) k res ->
  nth_error (result res) i = Some entry ->
  tx_hash entry = hash ->
  (3 <= i)%nat ->
  (forall j e, nth_error (result res) j = Some e -> tx_hash e = hash -> j = i) ->
  (exists p prevEntry,
      (i - 3 <= p < i)%nat
      /\ nth_error (result res) p = Some prevEntry
      /\ tx_value prevEntry = "0"%string) ->
  fst (hasValidEntries env toTx address chainId hash w) = Normal false.
Proof.
  intros Hcfg Hf Hi Hhash Hge Huniq (p & prevEntry & Hp & Hnth & Hzero).
  rewrite (hasValidEntries_fetched env toTx address chainId hash w k res
                                   Hcfg Hf).
  f_equal. apply not_true_is_false. intros Hex.
  apply existsb_exists in Hex. destruct Hex as ([j e] & Hin & Hvalid).
  apply indexed_nth in Hin. unfold valid_entry in Hvalid. cbn [fst snd] in Hvalid.
  apply andb_true_iff in Hvalid. destruct Hvalid as [Hhead Hprev].
  apply andb_true_iff in Hhead. destruct Hhead as [Hh _].
  apply String.eqb_eq in Hh.
  assert (j = i) by (eapply Huniq; eauto). subst j.
  apply andb_true_iff in Hprev. destruct Hprev as [Hnz _].
  apply negb_true_iff in Hnz.
  assert (Hz : hasZeroValue (slice (i - 3) i (result res)) = true).
  { unfold hasZeroValue. apply existsb_exists. exists prevEntry. split.
    - eapply slice_In; eauto.
    - rewrite Hzero. reflexivity. }
  congruence.
Qed.

(** ** [haveInteractedWithSameAddress] *)


Lemma second_call_served_from_cache_witness :
  let env := env_answering "0x6080" no_history in
  calls (snd (getCode env "0xabc"
                      (snd (getCode env "0xabc" new_DataFetcher)))) = 1%nat
  /\ calls (snd (isEoa env "0xabc"
                       (snd (isEoa env "0xabc" new_DataFetcher)))) = 1%nat
  /\ calls (snd (getNonce env "0xabc"
                          (snd (getNonce env "0xabc" new_DataFetcher))))
     = 1%nat
  /\ calls (snd (getSignature env "0xa9059cbb"
                   (snd (getSignature env "0xa9059cbb" new_DataFetcher))))
     = 1%nat
  /\ calls (snd (getOwner env "0xabc" 17
                          (snd (getOwner env "0xabc" 17 new_DataFetcher))))
     = 1%nat.
Proof.
  intros env.
  destruct (second_call_served_from_cache env new_DataFetcher)
    as (Hcode & Heoa & Hnonce & Hsig & Howner).
  split; [| split; [| split; [| split]]].
  - apply (Hcode "0xabc"%string "0x6080"%string); reflexivity.
  - apply (Heoa "0xabc"%string "0x6080"%string); reflexivity.
  - apply (Hnonce "0xabc"%string 7); reflexivity.
  - apply (Hsig "0xa9059cbb"%string "transfer(address,uint256)"%string);
      reflexivity.
  - apply (Howner "0xabc"%string 17 "0xowner"%string); reflexivity.
Defined.

Lemma zero_value_before_target_is_invalid_witness :
  fst (hasValidEntries (env_answering "0x" sample_history) 100 "0xvictim" 1
                       "0xh3" new_DataFetcher)
  = Normal false.
Proof.
  apply (zero_value_before_target_is_invalid
           (env_answering "0x" sample_history) 100 "0xvictim" 1 "0xh3"
           new_DataFetcher 0
           (mkResponse "OK" (sample_history "0xvictim")) 3
           (mkTx "0xh3" "0xd" "0xvictim" "9" "13")).
  - reflexivity.
  - repeat split; try reflexivity; [lia | intros j Hj; lia].
  - reflexivity.
  - reflexivity.
  - lia.
  - intros j e Hj He.
    do 4 (destruct j as [| j];
          [cbn in Hj; injection Hj as <-; first [reflexivity | discriminate He]
          |]).
    destruct j; discriminate Hj.
  - exists 1%nat, (mkTx "0xh1" "0xb" "0xvictim" "0" "11").
    repeat split; [lia | lia].
Defined.


(** ** The large-position bot *)

(** C9. A Work event of the ETH vault with a loan of 30 ETH plus one wei
    exceeds the vault's threshold of 30 ETH, yet the handler returns no
    finding: [parseInt] reads the loan as the double 30000000000000000000,
    which is not greater than the threshold. *)
Theorem loan_one_wei_above_threshold_is_missed :
  let ev := LargePosition.mkWork LargePosition.eth_vault 1
                                 30000000000000000001 in
  LargePosition.Map_get (LargePosition.address ev) LargePosition.VAULTS_MAP
  = Some 30000000000000000000
  /\ 30000000000000000000 < LargePosition.args_loan ev
  /\ LargePosition.handleTransaction [ev] = [].
Proof. cbv zeta. repeat split. Qed.

(** * Further properties of the fetcher *)

(** ** Which operations can throw *)

(** X1. [getCode], [getStorageSlot], [isEoa], [getLabel], [getNonce] and
    [getOwner] never let an exception escape, whatever the remote side does
    on any attempt and whatever the caches hold: each of their remote calls
    stands, with every use of its answer, inside a [try] whose [catch] does
    not throw. *)
Theorem guarded_operations_never_throw env toTx fromTx parseInt op w :
  guarded op = true ->
  is_thrown (fst (exec env toTx fromTx parseInt op w)) = false.
Proof.
  intros Hop. apply (exec_never_throws env toTx fromTx parseInt op).
  destruct op; first [reflexivity | discriminate Hop].
Qed.

Lemma guarded_operations_never_throw_witness :
  is_thrown (fst (exec env_down 100 1 parseInt_digits
                       (GetOwner sample_contract 17) new_DataFetcher))
  = false
  /\ is_thrown (fst (exec env_down 100 1 parseInt_digits
                          (GetLabel sample_contract 1) new_DataFetcher))
     = false.
Proof.
  split.
  - apply (guarded_operations_never_throw
             env_down 100 1 parseInt_digits (GetOwner sample_contract 17)
             new_DataFetcher).
    reflexivity.
  - apply (guarded_operations_never_throw
             env_down 100 1 parseInt_digits (GetLabel sample_contract 1)
             new_DataFetcher).
    reflexivity.
Defined.

(** ** The unchecked first entry *)

Lemma fetched_at_first {A} (oracle : nat -> Outcome (Response A)) n res :
  oracle n = Ok res -> soft_failure (message res) = false ->
  fetched_at oracle n 0 res.
Proof.
  intros Hok Hmsg. repeat split; [lia | intros j Hj; lia | | exact Hmsg].
  rewrite Nat.add_0_r. exact Hok.
Qed.

(** X2. [getSourceCode] and [getAddresses] read [result.result[0]] without
    a check: when the explorer's usable answer holds an empty list they
    throw a [TypeError]. [getAddresses] also throws, before any call, for a
    chain id without configuration, because it builds its URL outside the
    [try]. *)
Theorem empty_result_makes_methods_throw env fromTx address chainId hash w :
  (forall k res,
      etherscanApis env chainId = true ->
      fetched_at (fun n => fetch_sourceCode env n address chainId)
                 (calls w) k res ->
      result res = [] ->
      fst (getSourceCode env address chainId w) = Thrown TypeError)
  /\ (forall k res,
      etherscanApis env chainId = true ->
      fetched_at (fun n => fetch_account env n address chainId (fromTx + 1))
                 (calls w) k res ->
      result res = [] ->
      fst (getAddresses env fromTx address chainId hash w) = Thrown TypeError)
  /\ (etherscanApis env chainId = false ->
      getAddresses env fromTx address chainId hash w = (Thrown TypeError, w)).
Proof.
  split; [| split].
  - intros k res Hcfg Hf Hempty.
    unfold getSourceCode, fetchSourceCode, bind.
    rewrite Hcfg, (explorer_loop_fetched _ _ _ _ _ Hf), Hempty. reflexivity.
  - intros k res Hcfg Hf Hempty.
    unfold getAddresses, fetchAccount, bind.
    rewrite Hcfg. cbn [negb].
    rewrite (explorer_loop_fetched _ _ _ _ _ Hf), Hempty. reflexivity.
  - intros Hcfg. unfold getAddresses. rewrite Hcfg. reflexivity.
Qed.

Lemma empty_result_makes_methods_throw_witness :
  fst (getSourceCode env_empty "0xabc" 1 new_DataFetcher) = Thrown TypeError
  /\ fst (getAddresses env_empty 1 "0xabc" 1 "0xh" new_DataFetcher)
     = Thrown TypeError
  /\ getAddresses env_empty 1 "0xabc" 5 "0xh" new_DataFetcher
     = (Thrown TypeError, new_DataFetcher).
Proof.
  destruct (empty_result_makes_methods_throw env_empty 1 "0xabc" 1 "0xh"
                                             new_DataFetcher)
    as (Hsource & Haddr & _).
  destruct (empty_result_makes_methods_throw env_empty 1 "0xabc" 5 "0xh"
                                             new_DataFetcher)
    as (_ & _ & Hcfg).
  split; [| split].
  - apply (Hsource 0%nat (mkResponse "OK" [])); try reflexivity.
    apply fetched_at_first; reflexivity.
  - apply (Haddr 0%nat (mkResponse "OK" [])); try reflexivity.
    apply fetched_at_first; reflexivity.
  - apply Hcfg. reflexivity.
Defined.

(** ** A chain without configuration *)

(** X3. For a chain id that [etherscanApis] does not list, the other
    explorer-backed methods do not throw: the URL builder fails inside the
    [try] on all three attempts, no call is issued, the world is left as it
    was, and each method returns its fallback ([haveInteractedWithSameAddress]
    returns [true] as soon as there is a victim). *)
Theorem unconfigured_chain_gives_fallbacks
    env toTx parseInt address other chainId hash value blockNumber victims w :
  etherscanApis env chainId = false ->
  getAddressInfo env toTx address other chainId hash w = (Normal None, w)
  /\ haveInteractedAgain env address victims chainId w = (Normal true, w)
  /\ fst (haveInteractedWithSameAddress env address victims chainId w)
     = Normal (match victims with [] => false | _ => true end)
  /\ snd (haveInteractedWithSameAddress env address victims chainId w) = w
  /\ isRecentlyInvolvedInTransfer env parseInt address hash chainId
                                  blockNumber w
     = (Normal true, w)
  /\ hasValidEntries env toTx address chainId hash w = (Normal false, w)
  /\ getSourceCode env address chainId w = (Normal ""%string, w)
  /\ isValueUnique env address chainId hash value w = (Normal false, w).
Proof.
  intros Hcfg.
  assert (Hvictims :
            forall vs flag vi,
              fetch_victims env address chainId maxRetries vs flag vi w
              = (Normal (match vs with [] => flag | _ => true end, vi), w)).
  { intros vs flag vi. apply fetch_victims_unconfigured. exact Hcfg. }
  unfold getAddressInfo, haveInteractedAgain, haveInteractedWithSameAddress,
    isRecentlyInvolvedInTransfer, hasValidEntries, getSourceCode,
    isValueUnique, fetchAccount, fetchSourceCode, bind.
  rewrite Hcfg, Hvictims, !explorer_loop_unconfigured.
  repeat split. cbn. destruct victims; reflexivity.
Qed.

Lemma unconfigured_chain_gives_fallbacks_witness :
  haveInteractedAgain (env_answering "0x" sample_history) "0xbad" ["0x1"] 5
                      new_DataFetcher
  = (Normal true, new_DataFetcher)
  /\ hasValidEntries (env_answering "0x" sample_history) 100 "0xvictim" 5
                     "0xh3" new_DataFetcher
     = (Normal false, new_DataFetcher).
Proof.
  destruct (unconfigured_chain_gives_fallbacks
              (env_answering "0x" sample_history) 100 parseInt_digits
              "0xbad" "0x0" 5 "0xh3" "1" 17 ["0x1"] new_DataFetcher eq_refl)
    as (_ & Hagain & _).
  destruct (unconfigured_chain_gives_fallbacks
              (env_answering "0x" sample_history) 100 parseInt_digits
              "0xvictim" "0x0" 5 "0xh3" "1" 17 ["0x1"] new_DataFetcher
              eq_refl)
    as (_ & _ & _ & _ & _ & Hvalid & _).
  split; [exact Hagain | exact Hvalid].
Defined.

(** ** Budgets *)

Lemma spends_refl w : spends 0 0 0 w w.
Proof.
  split; [lia | split; [lia |]]. exists []. rewrite app_nil_r. auto.
Qed.

Lemma spends_trans c1 s1 e1 c2 s2 e2 w1 w2 w3 :
  spends c1 s1 e1 w1 w2 -> spends c2 s2 e2 w2 w3 ->
  spends (c1 + c2) (s1 + s2) (e1 + e2) w1 w3.
Proof.
  intros (C1 & S1 & l1 & E1 & L1) (C2 & S2 & l2 & E2 & L2).
  split; [lia | split; [lia |]].
  exists (l1 ++ l2). rewrite E2, E1, app_assoc, length_app. split; [auto | lia].
Qed.

Lemma spends_weaken c s e c' s' e' w w' :
  spends c s e w w' -> (c <= c')%nat -> (s <= s')%nat -> (e <= e')%nat ->
  spends c' s' e' w w'.
Proof.
  intros (C & S & l & E & L) Hc Hs He. split; [lia | split; [lia |]].
  exists l. split; [exact E | lia].
Qed.

Lemma spends_after evs w :
  spends (calls_in evs) (sleeps_in evs) 0 w (after evs w).
Proof.
  unfold spends, calls, sleeps, after. cbn.
  rewrite calls_in_app, sleeps_in_app. split; [lia | split; [lia |]].
  exists []. rewrite app_nil_r. auto.
Qed.

Lemma spends_add_error a w : spends 0 0 1 w (add_error a w).
Proof.
  unfold spends, calls, sleeps, add_error. cbn.
  split; [lia | split; [lia |]].
  exists [a]. auto.
Qed.

Lemma spends_bind {A B} (m : M A) (k : A -> M B) c1 s1 e1 c2 s2 e2 w :
  spends c1 s1 e1 w (snd (m w)) ->
  (forall a w1, spends c2 s2 e2 w1 (snd (k a w1))) ->
  spends (c1 + c2) (s1 + s2) (e1 + e2) w (snd (bind m k w)).
Proof.
  intros Hm Hk. unfold bind. destruct (m w) as [[a | ex] w1]; cbn in *.
  - eapply spends_trans; [exact Hm | apply Hk].
  - eapply spends_weaken; [exact Hm | lia | lia | lia].
Qed.

Lemma spends_explorer_loop {A} (fetch : M (Outcome (Response A))) :
  (forall w, spends 1 0 0 w (snd (fetch w))) ->
  forall left w, spends left 0 0 w (snd (explorer_loop fetch left w)).
Proof.
  intros Hfetch. induction left as [| left IH]; intros w.
  - apply spends_refl.
  - cbn [explorer_loop].
    apply (spends_bind _ _ 1 0 0 left 0 0); [apply Hfetch |].
    intros [res | ex] w1.
    + destruct (soft_failure (message res));
        [destruct (maxRetries - left =? maxRetries)%nat |];
        try apply IH;
        (eapply spends_weaken; [apply spends_refl | lia | lia | lia]).
    + destruct (maxRetries - left =? maxRetries)%nat;
        try apply IH;
        (eapply spends_weaken; [apply spends_refl | lia | lia | lia]).
Qed.

Lemma spends_fetch {A} (cfg : bool) r (oracle : nat -> Outcome A) w :
  spends 1 0 0 w (snd ((if cfg then await r oracle
                        else ret (Err TypeError)) w)).
Proof.
  destruct cfg.
  - apply (spends_after [Remote r]).
  - eapply spends_weaken; [apply spends_refl | lia | lia | lia].
Qed.

(** The budget of an explorer-backed method with one loop and a silent
    continuation. *)
Lemma spends_explorer_method {A B} (cfg : bool) r
    (oracle : nat -> Outcome (Response A))
    (k : option (Response A) -> M B) w :
  (forall x w1, snd (k x w1) = w1) ->
  spends 3 0 0 w
         (snd (bind (explorer_loop (if cfg then await r oracle
                                    else ret (Err TypeError)) maxRetries)
                    k w)).
Proof.
  intros Hk.
  apply (spends_bind _ _ 3 0 0 0 0 0).
  - apply spends_explorer_loop. intros w1. apply spends_fetch.
  - intros x w1. rewrite Hk. apply spends_refl.
Qed.

Lemma spends_fetch_victims env attacker c vs flag vi w :
  spends (3 * List.length vs) 0 0 w
         (snd (fetch_victims env attacker c maxRetries vs flag vi w)).
Proof.
  destruct (fetch_victims_run env attacker c maxRetries vs flag vi w)
    as (f & vi' & evs & Heq & Hcalls & Hsleeps & _).
  rewrite Heq. cbn [snd].
  eapply spends_weaken; [apply spends_after | | lia | lia].
  unfold maxRetries in Hcalls. exact Hcalls.
Qed.

(** A world that differs from [w] in its caches only. *)
Lemma spends_refl_get w w' :
  trace w' = trace w -> ErrorCache w' = ErrorCache w -> spends 0 0 0 w w'.
Proof.
  intros Ht He. unfold spends, calls, sleeps. rewrite Ht, He.
  split; [lia | split; [lia |]]. exists []. rewrite app_nil_r. auto.
Qed.

(** Budgets of worlds written out with [after], [add_error] and cache
    updates. *)
Ltac spends_explicit :=
  unfold spends, calls, sleeps, after, add_error; cbn;
  split; [lia | split; [lia |]];
  first [ exists []; rewrite app_nil_r; split; [reflexivity | cbn; lia]
        | eexists; split; [reflexivity | cbn; lia] ].

Lemma spends_getCode env a w : spends 3 3 1 w (snd (getCode env a w)).
Proof.
  unfold getCode, bind, cache_has, cache_get.
  destruct (LRU.has a (codeCache w)).
  - cbn. eapply spends_weaken;
      [apply spends_refl_get; reflexivity | lia | lia | lia].
  - rewrite getCode_loop_cases. cbv zeta.
    destruct (provider_getCode env (calls w) a) as [c |];
      [| destruct (provider_getCode env (S (calls w)) a) as [c |];
         [| destruct (provider_getCode env (S (S (calls w))) a) as [c |]]];
      try destruct (truthy c && negb (c =? "0x")%string);
      cbn [snd when ret bind]; spends_explicit.
Qed.

Lemma exec_spends env toTx fromTx parseInt op w :
  spends (calls_budget op) (sleeps_budget op) (errors_budget op) w
         (snd (exec env toTx fromTx parseInt op w)).
Proof.
  destruct op; cbn [calls_budget sleeps_budget errors_budget exec];
    rewrite discard_snd.
  - apply spends_getCode.
  - rewrite getStorageSlot_cases. cbv zeta.
    destruct (provider_getStorageAt env (calls w) address slot blockNumber);
      [| destruct (provider_getStorageAt env (S (calls w)) address slot
                                         blockNumber);
         [| destruct (provider_getStorageAt env (S (S (calls w))) address
                                            slot blockNumber)]];
      cbn [snd]; spends_explicit.
  - unfold isEoa, bind at 1, cache_has, cache_get.
    destruct (LRU.has address (eoaCache w)).
    + cbn. eapply spends_weaken;
        [apply spends_refl_get; reflexivity | lia | lia | lia].
    + apply (spends_bind _ _ 3 3 1 0 0 0); [apply spends_getCode |].
      intros [c |] w1; [| apply spends_refl].
      destruct (negb (truthy c)); [apply spends_refl |].
      cbn. apply spends_refl_get; reflexivity.
  - unfold getLabel. destruct (negb _).
    + eapply spends_weaken; [apply spends_refl | lia | lia | lia].
    + unfold bind. rewrite getLabel_loop_cases. cbv zeta.
      destruct (fetch_labels env (calls w) _);
        [| destruct (fetch_labels env (S (calls w)) _);
           [| destruct (fetch_labels env (S (S (calls w))) _)]];
        cbn [snd ret]; spends_explicit.
  - unfold getNonce, bind, cache_has, cache_get.
    destruct (LRU.has address (nonceCache w)).
    + cbn. eapply spends_weaken;
        [apply spends_refl_get; reflexivity | lia | lia | lia].
    + rewrite getNonce_loop_cases. cbv zeta.
      destruct (provider_getTransactionCount env (calls w) address);
        [| destruct (provider_getTransactionCount env (S (calls w)) address);
           [| destruct (provider_getTransactionCount env (S (S (calls w)))
                                                     address)]];
        cbn [snd ret]; spends_explicit.
  - unfold getSignature, bind, cache_has, cache_get.
    destruct (LRU.has bytes (functionCache w)).
    + cbn. eapply spends_weaken;
        [apply spends_refl_get; reflexivity | lia | lia | lia].
    + fold (signature_url bytes). rewrite getSignature_loop_cases. cbv zeta.
      destruct (fetch_text env (calls w) _) as [s |];
        [| destruct (fetch_text env (S (calls w)) _) as [s |];
           [| destruct (fetch_text env (S (S (calls w))) _) as [s |]]];
        try destruct (truthy s && negb (prefix "404" s));
        cbn [snd ret]; spends_explicit.
  - unfold getAddressInfo, fetchAccount.
    apply spends_explorer_method. intros [res |] w1; reflexivity.
  - unfold haveInteractedAgain, fetchAccount.
    apply spends_explorer_method. intros [res |] w1; reflexivity.
  - unfold haveInteractedWithSameAddress.
    replace (3 * List.length victims)%nat
      with (3 * List.length victims + 0)%nat by lia.
    apply (spends_bind _ _ (3 * List.length victims) 0 0 0 0 0).
    + apply spends_fetch_victims.
    + intros st w1. apply spends_refl.
  - unfold isRecentlyInvolvedInTransfer, fetchAccount.
    apply spends_explorer_method. intros [res |] w1; reflexivity.
  - unfold hasValidEntries, fetchAccount.
    apply spends_explorer_method. intros [res |] w1; reflexivity.
  - unfold getAddresses, fetchAccount, fetchAccountInternalTxs.
    destruct (etherscanApis env chainId); cbn [negb].
    + apply (spends_bind _ _ 3 0 0 3 0 0).
      * apply spends_explorer_loop. intros w1. apply (spends_after [Remote _]).
      * intros [res |] w1;
          [| eapply spends_weaken; [apply spends_refl | lia | lia | lia]].
        destruct (result res) as [| first rest];
          [eapply spends_weaken; [apply spends_refl | lia | lia | lia] |].
        destruct (tx_to first =? address)%string;
          [eapply spends_weaken; [apply spends_refl | lia | lia | lia] |].
        apply (spends_bind _ _ 3 0 0 0 0 0).
        -- apply spends_explorer_loop. intros w2.
           apply (spends_after [Remote _]).
        -- intros [res' |] w2; [destruct (result res') |]; apply spends_refl.
    + eapply spends_weaken; [apply spends_refl | lia | lia | lia].
  - unfold getSourceCode, fetchSourceCode.
    apply (spends_bind _ _ 3 0 0 0 0 0).
    + apply spends_explorer_loop. intros w1. apply spends_fetch.
    + intros [res |] w1; [destruct (result res) |]; apply spends_refl.
  - unfold getNumberOfLogs, fetchLogs.
    apply spends_explorer_method. intros [res |] w1; reflexivity.
  - unfold getOwner, bind, cache_has, cache_get, await.
    destruct (LRU.has _ (ownerCache w)).
    + cbn. eapply spends_weaken;
        [apply spends_refl_get; reflexivity | lia | lia | lia].
    + cbn. destruct (contract_owner env _ address block); cbn;
        [| destruct (contract_getOwner env _ address block); cbn];
        unfold spends, calls, sleeps; cbn;
        (split; [lia | split; [lia |]]);
        exists []; rewrite app_nil_r; auto.
  - unfold isValueUnique, fetchAccount.
    apply spends_explorer_method. intros [res |] w1; reflexivity.
Qed.

(** X4. One operation issues at most [calls_budget] remote calls (3 in
    general, 2 for [getOwner], 6 for [getAddresses], 3 per victim for
    [haveInteractedWithSameAddress]) and awaits at most [sleeps_budget]
    timers (3, or 2 for [getSignature], none for [getOwner] and the
    explorer-backed methods). The error collector is only ever appended to:
    by at most one record per operation, and only by [getCode], [isEoa],
    [getStorageSlot] and [getNonce]. *)
Theorem operations_stay_within_budget env toTx fromTx parseInt op w :
  let w' := snd (exec env toTx fromTx parseInt op w) in
  (calls w' <= calls w + calls_budget op)%nat
  /\ (sleeps w' <= sleeps w + sleeps_budget op)%nat
  /\ exists added,
      ErrorCache w' = ErrorCache w ++ added
      /\ (List.length added <= errors_budget op)%nat.
Proof. apply exec_spends. Qed.

(** ** Which caches an operation writes *)

Lemma getCode_frame env a w :
  let w' := snd (getCode env a w) in
  eoaCache w' = eoaCache w /\ functionCache w' = functionCache w
  /\ nonceCache w' = nonceCache w /\ ownerCache w' = ownerCache w.
Proof.
  unfold getCode, bind, cache_has, cache_get.
  destruct (LRU.has a (codeCache w)); [cbn; auto |].
  rewrite getCode_loop_cases. cbv zeta.
  destruct (provider_getCode env (calls w) a) as [c |];
    [| destruct (provider_getCode env (S (calls w)) a) as [c |];
       [| destruct (provider_getCode env (S (S (calls w))) a) as [c |]]];
    try destruct (truthy c && negb (c =? "0x")%string); cbn; auto.
Qed.

Lemma isEoa_frame env a w :
  let w' := snd (isEoa env a w) in
  functionCache w' = functionCache w
  /\ nonceCache w' = nonceCache w /\ ownerCache w' = ownerCache w.
Proof.
  cbv zeta. destruct (LRU.has a (eoaCache w)) eqn:Hhas.
  - apply has_peek in Hhas. destruct Hhas as [b Hb].
    rewrite (isEoa_hit env a w b Hb). cbn. auto.
  - rewrite (isEoa_miss env a w Hhas).
    pose proof (getCode_frame env a w) as H. cbv zeta in H.
    destruct (getCode env a w) as [[[c |] | ex] w1]; cbn in *;
      [destruct (truthy c); cbn | |]; tauto.
Qed.

Lemma getNonce_frame env a w :
  let w' := snd (getNonce env a w) in
  eoaCache w' = eoaCache w /\ codeCache w' = codeCache w
  /\ functionCache w' = functionCache w /\ ownerCache w' = ownerCache w.
Proof.
  unfold getNonce, bind, cache_has, cache_get.
  destruct (LRU.has a (nonceCache w)); [cbn; auto |].
  rewrite getNonce_loop_cases. cbv zeta.
  destruct (provider_getTransactionCount env (calls w) a);
    [| destruct (provider_getTransactionCount env (S (calls w)) a);
       [| destruct (provider_getTransactionCount env (S (S (calls w))) a)]];
    cbn; auto.
Qed.

Lemma getSignature_frame env b w :
  let w' := snd (getSignature env b w) in
  eoaCache w' = eoaCache w /\ codeCache w' = codeCache w
  /\ nonceCache w' = nonceCache w /\ ownerCache w' = ownerCache w.
Proof.
  unfold getSignature, bind, cache_has, cache_get.
  destruct (LRU.has b (functionCache w)); [cbn; auto |].
  fold (signature_url b). rewrite getSignature_loop_cases. cbv zeta.
  destruct (fetch_text env (calls w) _) as [s |];
    [| destruct (fetch_text env (S (calls w)) _) as [s |];
       [| destruct (fetch_text env (S (S (calls w))) _) as [s |]]];
    try destruct (truthy s && negb (prefix "404" s)); cbn; auto.
Qed.

Lemma getOwner_frame env a block w :
  let w' := snd (getOwner env a block w) in
  eoaCache w' = eoaCache w /\ codeCache w' = codeCache w
  /\ functionCache w' = functionCache w /\ nonceCache w' = nonceCache w.
Proof.
  unfold getOwner, bind, cache_has, cache_get, await.
  destruct (LRU.has _ (ownerCache w)); [cbn; auto |].
  cbn. destruct (contract_owner env _ a block); cbn; auto.
  destruct (contract_getOwner env _ a block); cbn; auto.
Qed.

(** X5. An operation writes no cache but its own: [getCode] only
    [codeCache], [isEoa] only [eoaCache] and [codeCache], [getNonce] only
    [nonceCache], [getSignature] only [functionCache], [getOwner] only
    [ownerCache]; [getStorageSlot], [getLabel] and the explorer-backed
    methods write none, so their results are never cached. *)
Theorem operations_write_only_their_caches env toTx fromTx parseInt op w :
  let w' := snd (exec env toTx fromTx parseInt op w) in
  (uses_eoaCache op = false -> eoaCache w' = eoaCache w)
  /\ (uses_codeCache op = false -> codeCache w' = codeCache w)
  /\ (uses_functionCache op = false -> functionCache w' = functionCache w)
  /\ (uses_nonceCache op = false -> nonceCache w' = nonceCache w)
  /\ (uses_ownerCache op = false -> ownerCache w' = ownerCache w).
Proof.
  cbv zeta.
  pose proof (explorer_methods_quiet env toTx fromTx parseInt op w) as Hq.
  destruct op;
    try (destruct Hq as (E & C & F & N & O & _); tauto);
    cbn [exec uses_eoaCache uses_codeCache uses_functionCache
              uses_nonceCache uses_ownerCache];
    rewrite discard_snd; clear Hq.
  - destruct (getCode_frame env address w) as (E & F & N & O).
    repeat split; auto; discriminate.
  - destruct (isEoa_frame env address w) as (F & N & O).
    repeat split; auto; discriminate.
  - destruct (getNonce_frame env address w) as (E & C & F & O).
    repeat split; auto; discriminate.
  - destruct (getSignature_frame env bytes w) as (E & C & N & O).
    repeat split; auto; discriminate.
  - destruct (getOwner_frame env address block w) as (E & C & F & N).
    repeat split; auto; discriminate.
Qed.

Lemma operations_write_only_their_caches_witness :
  codeCache (snd (exec (env_answering "0x6080" sample_history) 100 1
                       parseInt_digits (GetNumberOfLogs "0xabc" 17 1)
                       new_DataFetcher))
  = codeCache new_DataFetcher
  /\ ownerCache (snd (exec (env_answering "0x6080" sample_history) 100 1
                           parseInt_digits (IsEoa "0xabc") new_DataFetcher))
     = ownerCache new_DataFetcher.
Proof.
  split.
  - apply (operations_write_only_their_caches
             (env_answering "0x6080" sample_history) 100 1 parseInt_digits
             (GetNumberOfLogs "0xabc" 17 1) new_DataFetcher).
    reflexivity.
  - apply (operations_write_only_their_caches
             (env_answering "0x6080" sample_history) 100 1 parseInt_digits
             (IsEoa "0xabc") new_DataFetcher).
    reflexivity.
Defined.

(** ** [isEoa] and [getCode] on an address without code *)

(** X6. [getCode] does not keep the answer ["0x"], but [isEoa] keeps the
    [true] it derives from it. After [isEoa] has seen ["0x"] for an
    address, it answers [true] for that address without a remote call
    whatever the provider would answer now, while [getCode] still asks the
    provider again. *)
Theorem isEoa_keeps_true_while_getCode_asks_again env address w :
  LRU.has address (eoaCache w) = false ->
  LRU.has address (codeCache w) = false ->
  provider_getCode env (calls w) address = Ok "0x"%string ->
  let w1 := snd (isEoa env address w) in
  fst (isEoa env address w) = Normal (Some true)
  /\ (forall env',
         fst (isEoa env' address w1) = Normal (Some true)
         /\ trace (snd (isEoa env' address w1)) = trace w1)
  /\ (forall env', (calls w1 < calls (snd (getCode env' address w1)))%nat).
Proof.
  intros Heoa Hcode Hok. cbv zeta.
  assert (H1 : isEoa env address w
               = (Normal (Some true),
                  with_eoaCache (LRU.set address true (eoaCache w))
                                (after [Remote (ProviderGetCode address)] w))).
  { rewrite (isEoa_miss env address w Heoa).
    unfold getCode, bind, cache_has. rewrite Hcode, getCode_loop_cases.
    cbv zeta. rewrite Hok. reflexivity. }
  rewrite H1. cbn [fst snd]. split; [reflexivity |]. split.
  - intros env'.
    rewrite (isEoa_hit env' address _ true); [| cbn; apply peek_set_same].
    split; reflexivity.
  - intros env'. apply getCode_miss_calls. exact Hcode.
Qed.

Lemma isEoa_keeps_true_while_getCode_asks_again_witness :
  let w1 := snd (isEoa (env_answering "0x" no_history) "0xabc"
                       new_DataFetcher) in
  fst (isEoa (env_answering "0x6080" no_history) "0xabc" w1)
  = Normal (Some true)
  /\ (calls w1
      < calls (snd (getCode (env_answering "0x6080" no_history) "0xabc" w1)))%nat.
Proof.
  cbv zeta.
  pose proof (isEoa_keeps_true_while_getCode_asks_again
                (env_answering "0x" no_history) "0xabc" new_DataFetcher
                eq_refl eq_refl eq_refl) as H.
  cbv zeta in H. destruct H as (_ & Hsticky & Hagain).
  split.
  - exact (proj1 (Hsticky (env_answering "0x6080" no_history))).
  - exact (Hagain (env_answering "0x6080" no_history)).
Defined.

(** ** Transient failures *)

Lemma answered_at_cases {A} (oracle : nat -> Outcome A) n k a :
  answered_at oracle n k a ->
  (k = 0%nat /\ oracle n = Ok a)
  \/ (k = 1%nat /\ is_err (oracle n) = true /\ oracle (S n) = Ok a)
  \/ (k = 2%nat /\ is_err (oracle n) = true /\ is_err (oracle (S n)) = true
      /\ oracle (S (S n)) = Ok a).
Proof.
  intros (Hk & Hfail & Hok).
  destruct k as [| [| [| k]]]; [| | | lia].
  - left. rewrite Nat.add_0_r in Hok. auto.
  - right; left. pose proof (Hfail 0%nat ltac:(lia)) as H0.
    rewrite Nat.add_0_r in H0. rewrite Nat.add_1_r in Hok. auto.
  - right; right. pose proof (Hfail 0%nat ltac:(lia)) as H0.
    pose proof (Hfail 1%nat ltac:(lia)) as H1.
    rewrite Nat.add_0_r in H0. rewrite Nat.add_1_r in H1.
    replace (n + 2)%nat with (S (S n)) in Hok by lia. auto.
Qed.

(** X7. A provider call that is rejected once or twice and then answers is
    not reported: [getCode], [getNonce] and [getStorageSlot] return the
    answer of the first attempt that resolves, add nothing to the error
    collector, and have then issued one call more and awaited exactly as
    many timers as there were rejections. *)
Theorem transient_failures_leave_no_record env address slot blockNumber w k :
  (forall c,
      LRU.has address (codeCache w) = false ->
      answered_at (fun n => provider_getCode env n address) (calls w) k c ->
      let r := getCode env address w in
      fst r = Normal (Some c)
      /\ ErrorCache (snd r) = ErrorCache w
      /\ calls (snd r) = (calls w + S k)%nat
      /\ sleeps (snd r) = (sleeps w + k)%nat)
  /\ (forall n,
      LRU.has address (nonceCache w) = false ->
      answered_at (fun m => provider_getTransactionCount env m address)
                  (calls w) k n ->
      let r := getNonce env address w in
      fst r = Normal (Some n)
      /\ ErrorCache (snd r) = ErrorCache w
      /\ calls (snd r) = (calls w + S k)%nat
      /\ sleeps (snd r) = (sleeps w + k)%nat)
  /\ (forall v,
      answered_at
        (fun n => provider_getStorageAt env n address slot blockNumber)
        (calls w) k v ->
      let r := getStorageSlot env address slot blockNumber w in
      fst r = Normal (Some v)
      /\ ErrorCache (snd r) = ErrorCache w
      /\ calls (snd r) = (calls w + S k)%nat
      /\ sleeps (snd r) = (sleeps w + k)%nat).
Proof.
  split; [| split].
  - intros c Hmiss Hans. cbv zeta.
    unfold getCode, bind, cache_has. rewrite Hmiss, getCode_loop_cases.
    cbv zeta.
    destruct (answered_at_cases _ _ _ _ Hans)
      as [[-> H0] | [(-> & H0 & H1) | (-> & H0 & H1 & H2)]].
    + rewrite H0.
      destruct (truthy c && negb (c =? "0x")%string);
        unfold calls, sleeps; cbn; repeat split; lia.
    + destruct (provider_getCode env (calls w) address);
        [discriminate H0 |].
      rewrite H1.
      destruct (truthy c && negb (c =? "0x")%string);
        unfold calls, sleeps; cbn; repeat split; lia.
    + destruct (provider_getCode env (calls w) address);
        [discriminate H0 |].
      destruct (provider_getCode env (S (calls w)) address);
        [discriminate H1 |].
      rewrite H2.
      destruct (truthy c && negb (c =? "0x")%string);
        unfold calls, sleeps; cbn; repeat split; lia.
  - intros n Hmiss Hans. cbv zeta.
    unfold getNonce, bind, cache_has. rewrite Hmiss, getNonce_loop_cases.
    cbv zeta.
    destruct (answered_at_cases _ _ _ _ Hans)
      as [[-> H0] | [(-> & H0 & H1) | (-> & H0 & H1 & H2)]].
    + rewrite H0. unfold calls, sleeps; cbn; repeat split; lia.
    + destruct (provider_getTransactionCount env (calls w) address);
        [discriminate H0 |].
      rewrite H1. unfold calls, sleeps; cbn; repeat split; lia.
    + destruct (provider_getTransactionCount env (calls w) address);
        [discriminate H0 |].
      destruct (provider_getTransactionCount env (S (calls w)) address);
        [discriminate H1 |].
      rewrite H2. unfold calls, sleeps; cbn; repeat split; lia.
  - intros v Hans. cbv zeta. rewrite getStorageSlot_cases. cbv zeta.
    destruct (answered_at_cases _ _ _ _ Hans)
      as [[-> H0] | [(-> & H0 & H1) | (-> & H0 & H1 & H2)]].
    + rewrite H0. unfold calls, sleeps; cbn; repeat split; lia.
    + destruct (provider_getStorageAt env (calls w) address slot blockNumber);
        [discriminate H0 |].
      rewrite H1. unfold calls, sleeps; cbn; repeat split; lia.
    + destruct (provider_getStorageAt env (calls w) address slot blockNumber);
        [discriminate H0 |].
      destruct (provider_getStorageAt env (S (calls w)) address slot
                                      blockNumber);
        [discriminate H1 |].
      rewrite H2. unfold calls, sleeps; cbn; repeat split; lia.
Qed.

Lemma transient_failures_leave_no_record_witness :
  fst (getCode (env_flaky "0x6080") "0xabc" new_DataFetcher)
  = Normal (Some "0x6080"%string)
  /\ ErrorCache (snd (getCode (env_flaky "0x6080") "0xabc" new_DataFetcher))
     = []
  /\ fst (getNonce (env_flaky "0x6080") "0xabc" new_DataFetcher)
     = Normal (Some 7)
  /\ fst (getStorageSlot (env_flaky "0x6080") "0xabc" 0 17 new_DataFetcher)
     = Normal (Some "0x6080"%string).
Proof.
  assert (Hflaky : forall A (f : nat -> Outcome A) a,
             f 0%nat = Err timeout_error -> f 1%nat = Ok a ->
             answered_at f 0 1 a).
  { intros A f a H0 H1. split; [lia | split; [| exact H1]].
    intros j Hj. replace j with 0%nat by lia. cbn. rewrite H0. reflexivity. }
  destruct (transient_failures_leave_no_record
              (env_flaky "0x6080") "0xabc" 0 17 new_DataFetcher 1)
    as (Hcode & Hnonce & Hslot).
  destruct (Hcode "0x6080"%string eq_refl (Hflaky _ _ _ eq_refl eq_refl))
    as (Hc1 & Hc2 & _).
  destruct (Hnonce 7 eq_refl (Hflaky _ _ _ eq_refl eq_refl)) as (Hn1 & _).
  destruct (Hslot "0x6080"%string (Hflaky _ _ _ eq_refl eq_refl))
    as (Hs1 & _).
  repeat split; assumption.
Defined.

(** ** Unknown selectors *)

(** X8. A signature text that is empty or starts with ["404"] makes
    [getSignature] return [undefined] and is not cached: the function cache
    is left as it was, and the next call for the selector fetches again. *)
Theorem unknown_selector_is_not_cached env bytes w text :
  LRU.has bytes (functionCache w) = false ->
  fetch_text env (calls w) (signature_url bytes) = Ok text ->
  cacheable_signature text = false ->
  let w1 := snd (getSignature env bytes w) in
  fst (getSignature env bytes w) = Normal None
  /\ functionCache w1 = functionCache w
  /\ calls w1 = S (calls w)
  /\ forall env', (calls w1 < calls (snd (getSignature env' bytes w1)))%nat.
Proof.
  intros Hmiss Hok Hno. cbv zeta.
  assert (H1 : getSignature env bytes w
               = (Normal None,
                  after [Remote (FetchText (signature_url bytes))] w)).
  { unfold getSignature, bind, cache_has. rewrite Hmiss.
    fold (signature_url bytes). rewrite getSignature_loop_cases.
    cbv zeta. rewrite Hok. fold (cacheable_signature text). rewrite Hno.
    reflexivity. }
  rewrite H1. cbn [fst snd]. repeat split.
  intros env'. apply getSignature_miss_calls. exact Hmiss.
Qed.

Lemma unknown_selector_is_not_cached_witness :
  fst (getSignature env_empty "0xdeadbeef" new_DataFetcher) = Normal None
  /\ functionCache (snd (getSignature env_empty "0xdeadbeef" new_DataFetcher))
     = functionCache new_DataFetcher.
Proof.
  pose proof (unknown_selector_is_not_cached
                env_empty "0xdeadbeef" new_DataFetcher "404: Not Found"
                eq_refl eq_refl eq_refl) as H.
  cbv zeta in H. destruct H as (H1 & H2 & _). split; assumption.
Defined.

(** ** The keys of [ownerCache] *)

Lemma append_cancel_l (s t t' : string) :
  (s ++ t)%string = (s ++ t')%string -> t = t'.
Proof.
  induction s as [| c s IH]; cbn; [auto |].
  intros [= H]. auto.
Qed.

Lemma owner_key_block a b b' : owner_key a b = owner_key a b' -> b = b'.
Proof.
  unfold owner_key. intros H.
  apply append_cancel_l in H. apply append_cancel_l in H.
  apply (f_equal NilEmpty.int_of_string) in H.
  rewrite !NilEmpty.isi in H. injection H as H.
  apply (f_equal Z.of_int) in H. rewrite !DecimalZ.of_to in H. exact H.
Qed.

Lemma has_set_other {V} k k' (v : V) c :
  k' <> k -> LRU.has k' c = false -> LRU.has k' (LRU.set k v c) = false.
Proof.
  intros Hne Hmiss. apply has_false_of_no_peek. intros v' Hp.
  apply peek_set in Hp. destruct Hp as [[Hk _] | Hp]; [contradiction |].
  assert (LRU.has k' c = true) by (apply has_peek; eauto). congruence.
Qed.

Lemma has_get_other {V} k k' (c : LRU.t V) :
  LRU.has k' c = false -> LRU.has k' (snd (LRU.get k c)) = false.
Proof.
  intros Hmiss. apply has_false_of_no_peek. intros v' Hp.
  apply peek_get in Hp.
  assert (LRU.has k' c = true) by (apply has_peek; eauto). congruence.
Qed.

(** X9. The owner cache is scoped by block: the keys of one address at two
    different blocks differ, so the owner recorded for a block is never
    served for another block; a query for a block that is not cached still
    goes to the contract after any query for another block. *)
Theorem owner_of_a_block_is_not_served_for_another
    env address block block' w :
  block <> block' ->
  LRU.has (owner_key address block') (ownerCache w) = false ->
  let w1 := snd (getOwner env address block w) in
  owner_key address block <> owner_key address block'
  /\ LRU.has (owner_key address block') (ownerCache w1) = false
  /\ forall env',
      (calls w1 < calls (snd (getOwner env' address block' w1)))%nat.
Proof.
  intros Hne Hmiss. cbv zeta.
  assert (Hkeys : owner_key address block' <> owner_key address block).
  { intros H. apply owner_key_block in H. congruence. }
  assert (Hstill : LRU.has (owner_key address block')
                           (ownerCache (snd (getOwner env address block w)))
                   = false).
  { unfold getOwner, bind, cache_has, cache_get, await.
    destruct (LRU.has (owner_key address block) (ownerCache w)).
    - cbn. apply has_get_other. exact Hmiss.
    - cbn. destruct (contract_owner env _ address block); cbn;
        [| destruct (contract_getOwner env _ address block); cbn];
        apply has_set_other; assumption. }
  split; [congruence |]. split; [exact Hstill |].
  intros env'.
  generalize dependent (snd (getOwner env address block w)).
  intros w1 Hw1.
  unfold getOwner, bind, cache_has, await. rewrite Hw1. cbn.
  destruct (contract_owner env' _ address block'); cbn;
    [| destruct (contract_getOwner env' _ address block'); cbn];
    unfold calls; cbn; lia.
Qed.

Lemma owner_of_a_block_is_not_served_for_another_witness :
  LRU.has (owner_key "0xabc" 18)
          (ownerCache (snd (getOwner (env_answering "0x" no_history)
                                     "0xabc" 17 new_DataFetcher)))
  = false.
Proof.
  pose proof (owner_of_a_block_is_not_served_for_another
                (env_answering "0x" no_history) "0xabc" 17 18
                new_DataFetcher ltac:(discriminate) eq_refl) as H.
  cbv zeta in H. exact (proj1 (proj2 H)).
Defined.

(** ** The second accessor of [getOwner] *)

(** X10. [getOwner] asks [getOwner()] only after [owner()] was rejected,
    and then returns and caches the answer of [getOwner()], after two calls
    and no timer; the next query for the same address and block is served
    from the cache. *)
Theorem getOwner_falls_back_to_second_accessor env address block w owner :
  LRU.has (owner_key address block) (ownerCache w) = false ->
  is_err (contract_owner env (calls w) address block) = true ->
  contract_getOwner env (S (calls w)) address block = Ok owner ->
  let w1 := snd (getOwner env address block w) in
  fst (getOwner env address block w) = Normal (Some owner)
  /\ trace w1
     = Remote (ContractGetOwner address block)
       :: Remote (ContractOwner address block) :: trace w
  /\ forall env',
      fst (getOwner env' address block w1) = Normal (Some owner)
      /\ trace (snd (getOwner env' address block w1)) = trace w1.
Proof.
  intros Hmiss Hfail Hok. cbv zeta.
  assert (H1 : getOwner env address block w
               = (Normal (Some owner),
                  with_ownerCache
                    (LRU.set (owner_key address block) owner (ownerCache w))
                    (after [Remote (ContractGetOwner address block);
                            Remote (ContractOwner address block)] w))).
  { unfold getOwner, bind, cache_has, await. rewrite Hmiss.
    destruct (contract_owner env (calls w) address block);
      [discriminate Hfail |].
    cbn. unfold calls in Hok. rewrite Hok. reflexivity. }
  rewrite H1. cbn [fst snd]. repeat split.
  - rewrite (getOwner_hit env' address block _ owner);
      [reflexivity | cbn [ownerCache with_ownerCache]; apply peek_set_same].
  - rewrite (getOwner_hit env' address block _ owner);
      [reflexivity | cbn [ownerCache with_ownerCache]; apply peek_set_same].
Qed.

Lemma getOwner_falls_back_to_second_accessor_witness :
  fst (getOwner (env_flaky "0x") "0xabc" 17 new_DataFetcher)
  = Normal (Some "0xowner"%string).
Proof.
  pose proof (getOwner_falls_back_to_second_accessor
                (env_flaky "0x") "0xabc" 17 new_DataFetcher "0xowner"
                eq_refl eq_refl eq_refl) as H.
  cbv zeta in H. exact (proj1 H).
Defined.

(** ** [haveInteractedAgain] *)

Lemma Normal_inj {A} (a b : A) : Normal a = Normal b -> a = b.
Proof. intros [= H]. exact H. Qed.

Lemma interactedTwice_count attacker victim txs :
  forall n,
    (n <= 1)%nat ->
    interactedTwice attacker victim txs n
    = (2 <=? n + transfers attacker victim txs)%nat.
Proof.
  unfold transfers.
  induction txs as [| tx txs IH]; intros n Hn; cbn.
  - destruct n as [| [| n]]; [reflexivity | reflexivity | lia].
  - destruct ((tx_to tx =? attacker)%string && (tx_from tx =? victim)%string);
      cbn [List.length].
    + destruct n as [| [| n]]; [| | lia].
      * cbn. rewrite (IH 1%nat) by lia. reflexivity.
      * cbn. reflexivity.
    + destruct n as [| [| n]]; [| | lia]; cbn; rewrite IH by lia; reflexivity.
Qed.

(** X11. On a fetched history of the attacker, [haveInteractedAgain] is
    [true] exactly when one of the victims is the sender of at least two
    transactions to the attacker; the loop with its early exit counts
    nothing else. *)
Theorem haveInteractedAgain_counts_transfers
    env attacker victims chainId w k res :
  etherscanApis env chainId = true ->
  fetched_at (fun n => fetch_account env n attacker chainId (9999 + 1))
             (calls w) k res ->
  (fst (haveInteractedAgain env attacker victims chainId w) = Normal true
   <-> exists victim,
        In victim victims
        /\ (2 <= transfers attacker victim (result res))%nat)
  /\ (fst (haveInteractedAgain env attacker victims chainId w) = Normal false
      <-> forall victim,
          In victim victims ->
          (transfers attacker victim (result res) <= 1)%nat).
Proof.
  intros Hcfg Hf.
  assert (H : fst (haveInteractedAgain env attacker victims chainId w)
              = Normal (existsb
                          (fun v => (2 <=? transfers attacker v (result res))%nat)
                          victims)).
  { unfold haveInteractedAgain, fetchAccount, bind.
    rewrite Hcfg, (explorer_loop_fetched _ _ _ _ _ Hf). cbn. f_equal.
    induction victims as [| v vs IH]; cbn; [reflexivity |].
    rewrite IH, (interactedTwice_count attacker v (result res) 0) by lia.
    reflexivity. }
  rewrite H. split.
  - split.
    + intros Hex. apply Normal_inj in Hex. apply existsb_exists in Hex.
      destruct Hex as (v & Hin & Hv). apply Nat.leb_le in Hv. eauto.
    + intros (v & Hin & Hv). f_equal. apply existsb_exists.
      exists v. split; [exact Hin | apply Nat.leb_le; exact Hv].
  - split.
    + intros Hex v Hin. apply Normal_inj in Hex.
      destruct (Nat.leb_spec 2 (transfers attacker v (result res)));
        [| lia].
      assert (existsb
                (fun v => (2 <=? transfers attacker v (result res))%nat)
                victims = true).
      { apply existsb_exists. exists v.
        split; [exact Hin | apply Nat.leb_le; assumption]. }
      congruence.
    + intros Hall. f_equal. apply not_true_is_false. intros Hex.
      apply existsb_exists in Hex. destruct Hex as (v & Hin & Hv).
      apply Nat.leb_le in Hv. specialize (Hall v Hin). lia.
Qed.

Lemma haveInteractedAgain_counts_transfers_witness :
  fst (haveInteractedAgain (env_answering "0x" attacker_history) "0xbad"
                           ["0xv2"; "0xv1"] 1 new_DataFetcher)
  = Normal true
  /\ fst (haveInteractedAgain (env_answering "0x" attacker_history) "0xbad"
                              ["0xv2"; "0xv3"] 1 new_DataFetcher)
     = Normal false.
Proof.
  split.
  - apply (haveInteractedAgain_counts_transfers
             (env_answering "0x" attacker_history) "0xbad" ["0xv2"; "0xv1"]
             1 new_DataFetcher 0
             (mkResponse "OK" (attacker_history "0xbad")) eq_refl).
    + apply fetched_at_first; reflexivity.
    + exists "0xv1"%string. split; [cbn; auto | cbn; lia].
  - apply (haveInteractedAgain_counts_transfers
             (env_answering "0x" attacker_history) "0xbad" ["0xv2"; "0xv3"]
             1 new_DataFetcher 0
             (mkResponse "OK" (attacker_history "0xbad")) eq_refl).
    + apply fetched_at_first; reflexivity.
    + intros v [<- | [<- | []]]; cbn; lia.
Defined.

(** ** The window test of [hasValidEntries] *)

Lemma findIndex_ext {A} (p q : A -> bool) l :
  (forall x, p x = q x) -> findIndex p l = findIndex q l.
Proof.
  intros H. induction l as [| x l IH]; cbn; [reflexivity |].
  rewrite H, IH. reflexivity.
Qed.

Lemma findIndex_range {A} (p : A -> bool) l :
  findIndex p l = -1 \/ 0 <= findIndex p l < Z.of_nat (List.length l).
Proof.
  induction l as [| x l IH]; cbn [findIndex List.length]; [auto |].
  destruct (p x); [right; lia |].
  destruct IH as [-> | IH]; [auto |].
  destruct (findIndex p l =? -1) eqn:E; [apply Z.eqb_eq in E; lia |].
  right. lia.
Qed.

(** [findIndex] finds the first match, at or before any given match. *)
Lemma findIndex_first {A} (p : A -> bool) l :
  forall j e,
    nth_error l j = Some e -> p e = true ->
    exists i x,
      findIndex p l = Z.of_nat i /\ (i <= j)%nat
      /\ nth_error l i = Some x /\ p x = true.
Proof.
  induction l as [| y l IH]; intros j e Hj He; [destruct j; discriminate |].
  cbn [findIndex]. destruct (p y) eqn:Hy.
  - exists 0%nat, y. repeat split; [lia | exact Hy].
  - destruct j as [| j]; [cbn in Hj; congruence |].
    destruct (IH j e Hj He) as (i & x & Hi & Hle & Hx & Hpx).
    exists (S i), x. rewrite Hi.
    destruct (Z.of_nat i =? -1) eqn:E; [apply Z.eqb_eq in E; lia |].
    repeat split; [lia | lia | exact Hx | exact Hpx].
Qed.

Lemma indexed_In {A} (l : list A) j x :
  nth_error l j = Some x -> In (j, x) (indexed l).
Proof.
  unfold indexed. intros H.
  assert (Hgen : forall start,
             In ((start + j)%nat, x)
                (combine (seq start (List.length l)) l)).
  { revert j H. induction l as [| y l IH]; intros j H start;
      [destruct j; discriminate |].
    destruct j as [| j]; cbn in *.
    - injection H as ->. left. f_equal. lia.
    - right. replace (start + S j)%nat with (S start + j)%nat by lia.
      apply IH. exact H. }
  apply (Hgen 0%nat).
Qed.

Lemma hasDuplicateFrom_true l :
  hasDuplicateFrom l = true -> ~ NoDup (map tx_from l).
Proof.
  unfold hasDuplicateFrom. intros Hex Hnd.
  apply existsb_exists in Hex. destruct Hex as ([j e] & Hin & Hne).
  cbn [fst snd] in Hne. apply indexed_nth in Hin.
  apply negb_true_iff, Z.eqb_neq in Hne.
  destruct (findIndex_first
              (fun other => (tx_from other =? tx_from e)%string) l j e Hin
              (String.eqb_refl _))
    as (i & x & Hi & Hle & Hx & Hpx).
  apply String.eqb_eq in Hpx.
  assert (i = j).
  { apply (proj1 (NoDup_nth_error (map tx_from l)) Hnd).
    - rewrite length_map. apply nth_error_Some. congruence.
    - rewrite !nth_error_map, Hx, Hin. cbn. congruence. }
  subst i. congruence.
Qed.

Lemma hasDuplicateFrom_false l :
  hasDuplicateFrom l = false -> NoDup (map tx_from l).
Proof.
  unfold hasDuplicateFrom. intros Hno.
  assert (Hself : forall j e,
             nth_error l j = Some e ->
             findIndex (fun other => (tx_from other =? tx_from e)%string) l
             = Z.of_nat j).
  { intros j e Hj.
    destruct (findIndex (fun other => (tx_from other =? tx_from e)%string) l
              =? Z.of_nat j) eqn:E; [apply Z.eqb_eq; exact E |].
    exfalso.
    assert (Hex : existsb
                    (fun jp =>
                       negb (findIndex
                               (fun other =>
                                  (tx_from other =? tx_from (snd jp))%string)
                               l
                             =? Z.of_nat (fst jp)))
                    (indexed l) = true).
    { apply existsb_exists. exists (j, e).
      split; [apply indexed_In; exact Hj |]. cbn [fst snd]. rewrite E.
      reflexivity. }
    congruence. }
  apply NoDup_nth_error. intros i j Hi Heq.
  rewrite length_map in Hi. rewrite !nth_error_map in Heq.
  destruct (nth_error l i) as [ei |] eqn:Hei;
    [| apply nth_error_None in Hei; lia].
  destruct (nth_error l j) as [ej |] eqn:Hej; [| discriminate].
  cbn in Heq. injection Heq as Heq.
  pose proof (Hself i ei Hei) as H1. pose proof (Hself j ej Hej) as H2.
  rewrite Heq in H1. lia.
Qed.

(** X12. The [findIndex] test over the three previous entries detects
    exactly a repeated sender: [hasDuplicateFrom] is [true] if and only if
    two entries at different positions have the same ["from"]. *)
Theorem hasDuplicateFrom_finds_repeated_sender prevEntries :
  hasDuplicateFrom prevEntries = true
  <-> exists i j e1 e2,
      (i < j)%nat
      /\ nth_error prevEntries i = Some e1
      /\ nth_error prevEntries j = Some e2
      /\ tx_from e1 = tx_from e2.
Proof.
  split.
  - intros H.
    destruct (hasDuplicateFrom prevEntries) eqn:Hd; [| discriminate].
    unfold hasDuplicateFrom in Hd. apply existsb_exists in Hd.
    destruct Hd as ([j e] & Hin & Hne). cbn [fst snd] in Hne.
    apply indexed_nth in Hin. apply negb_true_iff, Z.eqb_neq in Hne.
    destruct (findIndex_first
                (fun other => (tx_from other =? tx_from e)%string)
                prevEntries j e Hin (String.eqb_refl _))
      as (i & x & Hi & Hle & Hx & Hpx).
    apply String.eqb_eq in Hpx.
    exists i, j, x, e. repeat split; auto.
    destruct (Nat.eq_dec i j); [subst; congruence | lia].
  - intros (i & j & e1 & e2 & Hlt & H1 & H2 & Hfrom).
    destruct (hasDuplicateFrom prevEntries) eqn:Hd; [reflexivity |].
    apply hasDuplicateFrom_false in Hd.
    assert (i = j); [| lia].
    apply (proj1 (NoDup_nth_error (map tx_from prevEntries)) Hd).
    + rewrite length_map. apply nth_error_Some. congruence.
    + rewrite !nth_error_map, H1, H2. cbn. congruence.
Qed.

(** X13. On a fetched history, [hasValidEntries] is [true] exactly when an
    entry with the target hash stands at an index of at least 3 and the
    three entries before it carry no value ["0"] and three different
    senders. A history of fewer than four entries is therefore never
    valid. *)
Theorem hasValidEntries_needs_clean_window
    env toTx address chainId hash w k res :
  etherscanApis env chainId = true ->
  fetched_at (fun n => fetch_account env n address chainId (toTx + 1))
             (calls w) k res ->
  (fst (hasValidEntries env toTx address chainId hash w) = Normal true
   <-> exists i entry,
        nth_error (result res) i = Some entry
        /\ tx_hash entry = hash
        /\ (3 <= i)%nat
        /\ (forall prevEntry,
               In prevEntry (window i (result res)) ->
               tx_value prevEntry <> "0"%string)
        /\ NoDup (map tx_from (window i (result res))))
  /\ ((List.length (result res) <= 3)%nat ->
      fst (hasValidEntries env toTx address chainId hash w) = Normal false).
Proof.
  intros Hcfg Hf.
  rewrite (hasValidEntries_fetched env toTx address chainId hash w k res
                                   Hcfg Hf).
  assert (Hiff :
            existsb (valid_entry (result res) hash) (indexed (result res))
            = true
            <-> exists i entry,
                nth_error (result res) i = Some entry
                /\ tx_hash entry = hash
                /\ (3 <= i)%nat
                /\ (forall prevEntry,
                       In prevEntry (window i (result res)) ->
                       tx_value prevEntry <> "0"%string)
                /\ NoDup (map tx_from (window i (result res)))).
  { rewrite existsb_exists. split.
    - intros ([i e] & Hin & Hvalid). apply indexed_nth in Hin.
      unfold valid_entry in Hvalid. cbn [fst snd] in Hvalid.
      apply andb_true_iff in Hvalid. destruct Hvalid as [Hhead Hprev].
      apply andb_true_iff in Hhead. destruct Hhead as [Hh Hi].
      apply andb_true_iff in Hprev. destruct Hprev as [Hz Hd].
      apply String.eqb_eq in Hh. apply Nat.leb_le in Hi.
      apply negb_true_iff in Hz, Hd.
      exists i, e. repeat split; auto.
      + intros p Hp Hzero. unfold hasZeroValue in Hz.
        assert (existsb (fun q => (tx_value q =? "0")%string)
                        (slice (i - 3) i (result res)) = true).
        { apply existsb_exists. exists p. split; [exact Hp |].
          rewrite Hzero. reflexivity. }
        congruence.
      + apply hasDuplicateFrom_false. exact Hd.
    - intros (i & e & Hnth & Hh & Hi & Hz & Hd).
      exists (i, e). split; [apply indexed_In; exact Hnth |].
      unfold valid_entry. cbn [fst snd].
      rewrite Hh, String.eqb_refl. cbn [andb].
      apply andb_true_iff. split; [apply Nat.leb_le; exact Hi |].
      apply andb_true_iff. split; apply negb_true_iff.
      + apply not_true_is_false. intros Hex. unfold hasZeroValue in Hex.
        apply existsb_exists in Hex. destruct Hex as (p & Hp & Hv).
        apply String.eqb_eq in Hv. apply (Hz p Hp Hv).
      + apply not_true_is_false. intros Hex.
        apply hasDuplicateFrom_true in Hex. apply Hex. exact Hd. }
  split.
  - split.
    + intros H. apply Normal_inj in H. apply Hiff. exact H.
    + intros H. f_equal. apply Hiff. exact H.
  - intros Hshort. f_equal. apply not_true_is_false. intros Hex.
    apply Hiff in Hex. destruct Hex as (i & e & Hnth & _ & Hi & _).
    assert (i < List.length (result res))%nat
      by (apply nth_error_Some; congruence).
    lia.
Qed.

Lemma hasValidEntries_needs_clean_window_witness :
  fst (hasValidEntries (env_answering "0x" attacker_history) 100 "0xbad" 1
                       "0xa3" new_DataFetcher)
  = Normal false.
Proof.
  apply (hasValidEntries_needs_clean_window
           (env_answering "0x" attacker_history) 100 "0xbad" 1 "0xa3"
           new_DataFetcher 0 (mkResponse "OK" (attacker_history "0xbad"))
           eq_refl).
  - apply fetched_at_first; reflexivity.
  - cbn. lia.
Defined.

(** ** The fan-out of [haveInteractedWithSameAddress] *)

(** A victim for whom the explorer never has a usable answer stays in every
    round, and sets the flag in the final one. *)
Lemma fetch_round_stuck env a c attempt victim p :
  In victim p ->
  (forall n, attempt_failed (fetch_account env n victim c (100 + 1)) = true) ->
  forall flag vi w retry flag' vi' w1,
    fetch_round env a c attempt p flag vi w
    = (Normal (retry, (flag', vi')), w1) ->
    if (attempt =? maxRetries)%nat then flag' = true else In victim retry.
Proof.
  intros Hin Hdown. induction p as [| v p IH]; [destruct Hin |].
  intros flag vi w retry flag' vi' w1. rewrite fetch_round_cons. cbv zeta.
  set (w0 := after (round_events env c [v]) w).
  assert (Hretry :
            (In victim p \/ victim = v) ->
            (if (attempt =? maxRetries)%nat
             then fetch_round env a c attempt p true vi
             else bind (fetch_round env a c attempt p flag vi)
                       (fun st => ret (v :: fst st, snd st))) w0
            = (Normal (retry, (flag', vi')), w1) ->
            if (attempt =? maxRetries)%nat then flag' = true
            else In victim retry).
  { intros Hwhere. destruct (attempt =? maxRetries)%nat eqn:Hlast.
    - intros Heq.
      destruct (fetch_round_run env a c attempt p true vi w0)
        as (retry0 & f0 & vi0 & Heq0 & _ & _ & Hmono).
      rewrite Heq0 in Heq. injection Heq as _ <- _ _. auto.
    - unfold bind.
      destruct (fetch_round_run env a c attempt p flag vi w0)
        as (retry0 & f0 & vi0 & Heq0 & _).
      rewrite Heq0. cbn [fst snd ret]. intros [= <- _ _ _].
      destruct Hwhere as [Hp | ->]; [| left; reflexivity].
      right. exact (IH Hp flag vi w0 _ _ _ _ Heq0). }
  destruct Hin as [-> | Hp].
  - assert (Hfail :
              attempt_failed (if etherscanApis env c
                              then fetch_account env (calls w) victim c
                                                 (100 + 1)
                              else Err TypeError) = true)
      by (destruct (etherscanApis env c); [apply Hdown | reflexivity]).
    destruct (if etherscanApis env c
              then fetch_account env (calls w) victim c (100 + 1)
              else Err TypeError) as [res | e].
    + cbn in Hfail. rewrite Hfail. apply Hretry. right. reflexivity.
    + apply Hretry. right. reflexivity.
  - destruct (if etherscanApis env c
              then fetch_account env (calls w) v c (100 + 1)
              else Err TypeError) as [res | e];
      [destruct (soft_failure (message res)) |];
      [apply Hretry; left; exact Hp | apply (IH Hp)
      | apply Hretry; left; exact Hp].
Qed.

Lemma fetch_victims_stuck env a c victim :
  (forall n, attempt_failed (fetch_account env n victim c (100 + 1)) = true) ->
  forall left p flag vi w,
    (left <= maxRetries)%nat ->
    ((1 <= left)%nat /\ In victim p) \/ flag = true ->
    exists vi' w',
      fetch_victims env a c left p flag vi w = (Normal (true, vi'), w').
Proof.
  intros Hdown. induction left as [| left IH]; intros p flag vi w Hleft Hcase.
  - destruct Hcase as [[Hone _] | ->]; [lia |]. eexists _, _. reflexivity.
  - destruct (fetch_round_run env a c (maxRetries - left) p flag vi w)
      as (retry & f1 & vi1 & Heq & _ & _ & Hmono).
    rewrite (fetch_victims_step _ _ _ _ _ _ _ _ _ _ _ _ Heq).
    apply IH; [lia |].
    destruct Hcase as [[_ Hin] | Hflag]; [| right; auto].
    pose proof (fetch_round_stuck env a c _ victim p Hin Hdown
                                  _ _ _ _ _ _ _ Heq) as Hstuck.
    rewrite last_attempt in Hstuck by lia.
    destruct left as [| left']; cbn [Nat.eqb] in Hstuck.
    + right. exact Hstuck.
    + left. split; [lia | exact Hstuck].
Qed.

(** X15. The per-victim fetches have no partial-result handling: when the
    explorer has no usable answer for one of the victims, whenever it is
    asked, [haveInteractedWithSameAddress] returns [true], whatever the
    histories of the other victims show. The condition does not refer to
    the numbering of the calls. *)
Theorem one_exhausted_leg_gives_true env attacker victims victim chainId w :
  In victim victims ->
  (forall n,
      attempt_failed (fetch_account env n victim chainId (100 + 1)) = true) ->
  fst (haveInteractedWithSameAddress env attacker victims chainId w)
  = Normal true.
Proof.
  intros Hin Hdown. unfold haveInteractedWithSameAddress, bind.
  destruct (fetch_victims_stuck env attacker chainId victim Hdown
              maxRetries victims false [] w (Nat.le_refl _))
    as (vi' & w' & Heq).
  - left. split; [unfold maxRetries; lia | exact Hin].
  - rewrite Heq. reflexivity.
Qed.

Lemma one_exhausted_leg_gives_true_witness :
  fst (haveInteractedWithSameAddress
         (env_without "0xv2" apart_history) "0xbad"
         ["0xv1"; "0xv2"; "0xv3"] 1 new_DataFetcher)
  = Normal true.
Proof.
  apply (one_exhausted_leg_gives_true
           (env_without "0xv2" apart_history) "0xbad"
           ["0xv1"; "0xv2"; "0xv3"] "0xv2" 1 new_DataFetcher).
  - right. left. reflexivity.
  - intros n. reflexivity.
Defined.

Lemma stable_all_fetched env c hist :
  stable_histories env c hist ->
  forall vs n, all_fetched env c hist vs n.
Proof.
  intros Hst. induction vs as [| v vs IH]; intros n; [constructor |].
  destruct (Hst n v) as (res & Hok & Hmsg & Hres).
  apply (all_fetched_cons env c hist v vs n res);
    [exact Hok | exact Hmsg | exact Hres | apply IH].
Qed.

(** The answer on fetched histories, in terms of the victims alone. *)
Lemma majority_iff attacker hist vs :
  existsb (fun entry =>
             majorityThreshold vs <=? Z.of_nat (List.length (snd entry)))
          (build_frequencyMap (interactions_of attacker hist vs []))
  = true
  <-> exists x,
      (0 < sharers attacker hist vs x)%nat
      /\ majorityThreshold vs <= Z.of_nat (sharers attacker hist vs x).
Proof.
  split.
  - intros Hex. apply existsb_exists in Hex.
    destruct Hex as ([x l] & Hin & Hle). cbn [snd] in Hle.
    apply Z.leb_le in Hle.
    pose proof (frequencyMap_entry attacker hist vs x l Hin) as Hlen.
    exists x. split; [| lia].
    destruct vs as [| v vs]; [destruct Hin |].
    unfold majorityThreshold in Hle. cbn [List.length] in Hle.
    assert (1 <= (Z.of_nat (S (List.length vs)) + 1) / 2).
    { apply Z.div_le_lower_bound; lia. }
    lia.
  - intros (x & Hpos & Hth). apply existsb_exists.
    destruct (frequencyMap_majority attacker hist vs x Hpos)
      as (l & Hin & Hlen).
    exists (x, l). split; [exact Hin |]. cbn [snd]. apply Z.leb_le. lia.
Qed.

Lemma uniq_Permutation vs vs' :
  Permutation vs vs' -> Permutation (uniq vs) (uniq vs').
Proof.
  intros Hp. apply NoDup_Permutation; try apply uniq_NoDup.
  intros x. rewrite !uniq_In. split; intros H.
  - eapply Permutation_in; eauto.
  - eapply Permutation_in; [apply Permutation_sym |]; eauto.
Qed.

Lemma filter_Permutation {A} (f : A -> bool) l l' :
  Permutation l l' -> Permutation (filter f l) (filter f l').
Proof.
  induction 1 as [| x l l' Hp IH | x y l | l1 l2 l3 H1 IH1 H2 IH2]; cbn.
  - constructor.
  - destruct (f x); [constructor |]; exact IH.
  - destruct (f x), (f y); try reflexivity. constructor.
  - eapply Permutation_trans; eauto.
Qed.

Lemma sharers_Permutation attacker hist vs vs' x :
  Permutation vs vs' ->
  sharers attacker hist vs x = sharers attacker hist vs' x.
Proof.
  intros Hp. unfold sharers.
  apply Permutation_length, filter_Permutation, uniq_Permutation, Hp.
Qed.

(** X14. When the explorer answers every victim's query with that victim's
    history, the result of [haveInteractedWithSameAddress] does not depend on
    the order of the victims, hence not on the order in which the concurrent
    fetches are served. *)
Theorem victims_order_does_not_matter
    env attacker victims victims' chainId hist w w' :
  etherscanApis env chainId = true ->
  stable_histories env chainId hist ->
  Permutation victims victims' ->
  fst (haveInteractedWithSameAddress env attacker victims chainId w)
  = fst (haveInteractedWithSameAddress env attacker victims' chainId w').
Proof.
  intros Hcfg Hst Hp.
  rewrite (haveInteractedWithSameAddress_fetched
             env attacker victims chainId hist w Hcfg
             (stable_all_fetched env chainId hist Hst _ _)).
  rewrite (haveInteractedWithSameAddress_fetched
             env attacker victims' chainId hist w' Hcfg
             (stable_all_fetched env chainId hist Hst _ _)).
  f_equal.
  assert (Hth : majorityThreshold victims = majorityThreshold victims').
  { unfold majorityThreshold. rewrite (Permutation_length Hp). reflexivity. }
  match goal with
  | |- ?b1 = ?b2 =>
      assert (Hiff : b1 = true <-> b2 = true);
      [| destruct b1, b2; intuition congruence]
  end.
  rewrite !majority_iff. rewrite Hth.
  split; intros (x & Hpos & Hle); exists x.
  - rewrite <- (sharers_Permutation attacker hist victims victims' x Hp).
    auto.
  - rewrite (sharers_Permutation attacker hist victims victims' x Hp).
    auto.
Qed.

Lemma victims_order_does_not_matter_witness :
  fst (haveInteractedWithSameAddress
         (env_answering "0x" victims_history) "0xbad"
         ["0xv1"; "0xv2"; "0xv3"; "0xv4"] 1 new_DataFetcher)
  = fst (haveInteractedWithSameAddress
           (env_answering "0x" victims_history) "0xbad"
           ["0xv4"; "0xv2"; "0xv3"; "0xv1"] 1 new_DataFetcher).
Proof.
  apply (victims_order_does_not_matter
           (env_answering "0x" victims_history) "0xbad"
           ["0xv1"; "0xv2"; "0xv3"; "0xv4"]
           ["0xv4"; "0xv2"; "0xv3"; "0xv1"] 1 victims_history).
  - reflexivity.
  - intros n v. exists (mkResponse "OK" (victims_history v)).
    repeat split.
  - apply (Permutation_trans (l' := ["0xv2"; "0xv3"; "0xv4"; "0xv1"]%string)).
    + apply (Permutation_cons_append ["0xv2"; "0xv3"; "0xv4"]%string
                                     "0xv1"%string).
    + apply (Permutation_trans
               (l' := ["0xv4"; "0xv2"; "0xv3"; "0xv1"]%string));
        [| apply Permutation_refl].
      apply (Permutation_app_tail ["0xv1"%string]
               (l := ["0xv2"; "0xv3"; "0xv4"]%string)
               (l' := ["0xv4"; "0xv2"; "0xv3"]%string)).
      apply Permutation_sym.
      apply (Permutation_cons_append ["0xv2"; "0xv3"]%string "0xv4"%string).
Defined.

(** * Further properties of the large-position bot *)

Module LargePositionFacts.
Import LargePosition.

(** ** Reading a [uint256] through a double *)

Lemma Number_small z : Z.abs z < 2 ^ 53 -> Number_of_Z z = z.
Proof.
  intros H. unfold Number_of_Z. cbv zeta.
  destruct (Z.ltb_spec (Z.log2 (Z.abs z)) 53) as [Hlt | Hge]; [reflexivity |].
  exfalso.
  assert (0 < Z.abs z).
  { destruct (Z.eq_dec (Z.abs z) 0) as [E | E]; [| lia].
    rewrite E in Hge. cbn in Hge. lia. }
  pose proof (Z.log2_spec (Z.abs z) ltac:(lia)) as [Hlo _].
  assert (2 ^ 53 <= 2 ^ Z.log2 (Z.abs z))
    by (apply Z.pow_le_mono_r; lia).
  lia.
Qed.

(** The parts of a number of at least [2^53]: exponent, unit in the last
    place, quotient and remainder. *)
Lemma double_parts n :
  2 ^ 53 <= n ->
  let e := Z.log2 n in
  let u := 2 ^ (e - 52) in
  53 <= e /\ 0 < u
  /\ 2 ^ e = 2 ^ 52 * u /\ 2 ^ (e + 1) = 2 ^ 53 * u
  /\ 2 ^ 52 <= n / u < 2 ^ 53
  /\ 0 <= n mod u < u
  /\ n = u * (n / u) + n mod u.
Proof.
  intros Hn e u.
  assert (Hpos : 0 < n) by (pose proof (Z.pow_pos_nonneg 2 53); lia).
  assert (He : 53 <= e).
  { subst e. rewrite <- (Z.log2_pow2 53) by lia.
    apply Z.log2_le_mono. exact Hn. }
  assert (Hu : 0 < u) by (subst u; apply Z.pow_pos_nonneg; lia).
  assert (H1 : 2 ^ e = 2 ^ 52 * u).
  { subst u. rewrite <- Z.pow_add_r by lia. f_equal. lia. }
  assert (H2 : 2 ^ (e + 1) = 2 ^ 53 * u).
  { subst u. rewrite <- Z.pow_add_r by lia. f_equal. lia. }
  pose proof (Z.log2_spec n Hpos) as [Hlo Hhi]. fold e in Hlo, Hhi.
  replace (Z.succ e) with (e + 1) in Hhi by lia.
  repeat split; try assumption.
  - apply Z.div_le_lower_bound; lia.
  - apply Z.div_lt_upper_bound; lia.
  - apply Z.mod_pos_bound; lia.
  - apply Z.mod_pos_bound; lia.
  - apply Z.div_mod; lia.
Qed.

Lemma Number_large n :
  2 ^ 53 <= n ->
  Number_of_Z n
  = round_quotient (n / 2 ^ (Z.log2 n - 52)) (n mod 2 ^ (Z.log2 n - 52))
                   (2 ^ (Z.log2 n - 52))
    * 2 ^ (Z.log2 n - 52).
Proof.
  intros Hn. destruct (double_parts n Hn) as (He & Hu & _).
  assert (Hpos : 0 < n) by (pose proof (Z.pow_pos_nonneg 2 53); lia).
  unfold Number_of_Z, round_quotient. cbv zeta.
  rewrite (Z.abs_eq n) by lia. rewrite (Z.sgn_pos n) by lia.
  destruct (Z.ltb_spec (Z.log2 n) 53); [lia |].
  rewrite Z.mul_1_l. reflexivity.
Qed.

Lemma round_quotient_range q r u :
  q <= round_quotient q r u <= q + 1.
Proof.
  unfold round_quotient.
  destruct (2 * r <? u), (u <? 2 * r), (Z.even q); lia.
Qed.

Lemma round_quotient_mono q r r' u :
  r <= r' -> round_quotient q r u <= round_quotient q r' u.
Proof.
  intros H. unfold round_quotient.
  destruct (Z.ltb_spec (2 * r) u), (Z.ltb_spec u (2 * r)),
    (Z.ltb_spec (2 * r') u), (Z.ltb_spec u (2 * r')), (Z.even q); lia.
Qed.

(** A number of at least [2^53] is rounded within its binade. *)
Lemma Number_large_bounds n :
  2 ^ 53 <= n ->
  2 ^ Z.log2 n <= Number_of_Z n <= 2 ^ (Z.log2 n + 1).
Proof.
  intros Hn. rewrite (Number_large n Hn).
  destruct (double_parts n Hn) as (He & Hu & H1 & H2 & Hq & Hr & Hdiv).
  cbv zeta in *.
  pose proof (round_quotient_range (n / 2 ^ (Z.log2 n - 52))
                                   (n mod 2 ^ (Z.log2 n - 52))
                                   (2 ^ (Z.log2 n - 52))) as Hrq.
  rewrite H1, H2. split; apply Z.mul_le_mono_nonneg_r; lia.
Qed.

Lemma Number_mono a b : 0 <= a -> a <= b -> Number_of_Z a <= Number_of_Z b.
Proof.
  intros Ha Hab.
  destruct (Z.lt_ge_cases b (2 ^ 53)) as [Hb | Hb].
  - rewrite !Number_small by lia. exact Hab.
  - pose proof (Number_large_bounds b Hb) as [Hblo Hbhi].
    destruct (double_parts b Hb) as (Heb & _).
    cbv zeta in Heb.
    destruct (Z.lt_ge_cases a (2 ^ 53)) as [Ha' | Ha'].
    + rewrite (Number_small a) by lia.
      assert (2 ^ 53 <= 2 ^ Z.log2 b) by (apply Z.pow_le_mono_r; lia).
      lia.
    + pose proof (Number_large_bounds a Ha') as [Halo Hahi].
      assert (Hle : Z.log2 a <= Z.log2 b) by (apply Z.log2_le_mono; lia).
      destruct (Z.eq_dec (Z.log2 a) (Z.log2 b)) as [Heq | Hne].
      * rewrite (Number_large a Ha'), (Number_large b Hb).
        destruct (double_parts a Ha') as (_ & Hu & _ & _ & _ & Hra & Hda).
        destruct (double_parts b Hb) as (_ & _ & _ & _ & _ & Hrb & Hdb).
        cbv zeta in *. rewrite Heq in *.
        set (u := 2 ^ (Z.log2 b - 52)) in *.
        assert (Hq : a / u <= b / u) by (apply Z.div_le_mono; lia).
        apply Z.mul_le_mono_nonneg_r; [lia |].
        destruct (Z.eq_dec (a / u) (b / u)) as [Hqe | Hqne].
        -- rewrite Hqe. apply round_quotient_mono.
           rewrite Hqe in Hda. nia.
        -- pose proof (round_quotient_range (a / u) (a mod u) u).
           pose proof (round_quotient_range (b / u) (b mod u) u).
           lia.
      * assert (2 ^ (Z.log2 a + 1) <= 2 ^ Z.log2 b)
          by (apply Z.pow_le_mono_r; lia).
        lia.
Qed.

Lemma round_quotient_error q r u :
  0 <= r < u ->
  2 * Z.abs (round_quotient q r u * u - (u * q + r)) <= u.
Proof.
  intros Hr. unfold round_quotient.
  destruct (Z.ltb_spec (2 * r) u), (Z.ltb_spec u (2 * r)), (Z.even q);
    try lia;
    rewrite ?Z.mul_add_distr_r; lia.
Qed.

(** A [uint256] is read with an error of at most half a unit in the last
    place. *)
Lemma Number_error n :
  0 <= n -> 2 * Z.abs (Number_of_Z n - n) <= ulp n.
Proof.
  intros Hn. unfold ulp.
  destruct (Z.ltb_spec (Z.log2 n) 53) as [Hlt | Hge].
  - rewrite Number_small; [lia |].
    destruct (Z.eq_dec n 0) as [-> | Hne]; [reflexivity |].
    rewrite Z.abs_eq by lia.
    apply Z.log2_lt_pow2; lia.
  - assert (Hbig : 2 ^ 53 <= n).
    { assert (0 < n).
      { destruct (Z.eq_dec n 0) as [-> | Hne]; [cbn in Hge; lia | lia]. }
      pose proof (Z.log2_spec n ltac:(lia)) as [Hlo _].
      assert (2 ^ 53 <= 2 ^ Z.log2 n) by (apply Z.pow_le_mono_r; lia).
      lia. }
    rewrite (Number_large n Hbig).
    destruct (double_parts n Hbig) as (_ & Hu & _ & _ & _ & Hr & Hdiv).
    cbv zeta in *.
    set (u := 2 ^ (Z.log2 n - 52)) in *.
    rewrite Hdiv at 3.
    apply round_quotient_error. exact Hr.
Qed.

Lemma Number_idempotent_thresholds k t :
  Map_get k VAULTS_MAP = Some t ->
  Number_of_Z t = t /\ 0 < t /\ toLowerCase k = k.
Proof.
  unfold Map_get. remember VAULTS_MAP as m eqn:Hm.
  vm_compute in Hm. subst m. cbn [obj_get].
  repeat match goal with
         | |- context [(?s =? k)%string] =>
             destruct (String.eqb_spec s k) as [<- | ?];
             [intros [= <-]; vm_compute; auto |]
         end.
  discriminate.
Qed.

(** ** When the bot alerts *)

(** X16. A Work event of a vault with a non-zero threshold yields exactly
    one finding, for that vault, as soon as the loan exceeds the threshold
    by more than half the spacing of the doubles around the loan (by
    anything at all below [2^53]); the loan amount it reports is the loan as
    read through [parseInt], at most half a spacing away from the loan. *)
Theorem loan_clearly_above_threshold_alerts vaultsMap ev threshold :
  0 <= args_loan ev ->
  Map_get (address ev) vaultsMap = Some threshold ->
  threshold <> 0 ->
  ulp (args_loan ev) < 2 * (args_loan ev - threshold) ->
  provideHandleTransaction vaultsMap [ev]
  = [createFinding (parseInt_BigNumber (args_id ev))
                   (parseInt_BigNumber (args_loan ev)) (address ev)]
  /\ 2 * Z.abs (parseInt_BigNumber (args_loan ev) - args_loan ev)
     <= ulp (args_loan ev).
Proof.
  intros Hloan Hget Hnz Hclear.
  pose proof (Number_error (args_loan ev) Hloan) as Herr.
  split; [| exact Herr].
  unfold provideHandleTransaction, handleWorkEvent, parseInt_BigNumber,
    BigInt, truthy_bigint.
  cbn [flat_map]. rewrite Hget, app_nil_r.
  destruct (Z.eqb_spec threshold 0) as [| _]; [contradiction |].
  destruct (Z.ltb_spec threshold (Number_of_Z (args_loan ev))) as [_ | Hle];
    [reflexivity | lia].
Qed.

Lemma loan_clearly_above_threshold_alerts_witness :
  handleTransaction [mkWork eth_vault 7 30000000000000004096]
  = [createFinding 7 30000000000000004096 eth_vault].
Proof.
  apply (loan_clearly_above_threshold_alerts
           VAULTS_MAP (mkWork eth_vault 7 30000000000000004096)
           30000000000000000000).
  - cbn. lia.
  - reflexivity.
  - discriminate.
  - vm_compute. reflexivity.
Defined.

(** X17. A loan at or below the threshold never alerts, provided the
    threshold is itself a double, as every threshold of [VAULTS_MAP] is:
    reading the loan through [parseInt] is monotone. *)
Theorem loan_at_or_below_threshold_is_silent vaultsMap ev threshold :
  0 <= args_loan ev ->
  Map_get (address ev) vaultsMap = Some threshold ->
  args_loan ev <= threshold ->
  (Number_of_Z threshold = threshold ->
   provideHandleTransaction vaultsMap [ev] = [])
  /\ (vaultsMap = VAULTS_MAP -> handleTransaction [ev] = []).
Proof.
  intros Hloan Hget Hle.
  assert (Hgen : Number_of_Z threshold = threshold ->
                 provideHandleTransaction vaultsMap [ev] = []).
  { intros Hrep.
    pose proof (Number_mono (args_loan ev) threshold Hloan Hle) as Hmono.
    rewrite Hrep in Hmono.
    unfold provideHandleTransaction, handleWorkEvent, parseInt_BigNumber,
      BigInt.
    cbn [flat_map]. rewrite Hget, app_nil_r.
    destruct (Z.ltb_spec threshold (Number_of_Z (args_loan ev)));
      [lia |].
    rewrite andb_false_r. reflexivity. }
  split; [exact Hgen |].
  intros ->. apply Hgen.
  apply (Number_idempotent_thresholds (address ev) threshold Hget).
Qed.

Lemma loan_at_or_below_threshold_is_silent_witness :
  handleTransaction [mkWork busd_vault 7 99999999999999991611392] = [].
Proof.
  apply (loan_at_or_below_threshold_is_silent
           VAULTS_MAP (mkWork busd_vault 7 99999999999999991611392)
           99999999999999991611392).
  - cbn. lia.
  - reflexivity.
  - cbn. lia.
  - reflexivity.
Defined.

(** ** What the bot never does *)

(** X18. The handler returns at most one finding per Work event, and every
    finding stems from an event whose address is a key of the map with a
    non-zero threshold below the reported loan amount: an address that is
    not in the map, or one with threshold zero, never alerts. *)
Theorem findings_come_from_mapped_vaults vaultsMap workEvents :
  (List.length (provideHandleTransaction vaultsMap workEvents)
   <= List.length workEvents)%nat
  /\ forall finding,
      In finding (provideHandleTransaction vaultsMap workEvents) ->
      exists ev threshold,
        In ev workEvents
        /\ Map_get (address ev) vaultsMap = Some threshold
        /\ threshold <> 0
        /\ threshold < loanAmount (metadata finding)
        /\ finding = createFinding (parseInt_BigNumber (args_id ev))
                                   (parseInt_BigNumber (args_loan ev))
                                   (address ev).
Proof.
  unfold provideHandleTransaction. split.
  - induction workEvents as [| ev evs IH]; cbn [flat_map List.length];
      [lia |].
    rewrite length_app. unfold handleWorkEvent at 1.
    destruct (Map_get (address ev) vaultsMap) as [t |]; [| cbn; lia].
    destruct (truthy_bigint t && _); cbn; lia.
  - intros finding Hin. apply in_flat_map in Hin.
    destruct Hin as (ev & Hev & Hf). unfold handleWorkEvent in Hf.
    destruct (Map_get (address ev) vaultsMap) as [t |] eqn:Hget;
      [| destruct Hf].
    destruct (truthy_bigint t
              && (t <? BigInt (parseInt_BigNumber (args_loan ev)))) eqn:Hc;
      [| destruct Hf].
    destruct Hf as [<- | []].
    apply andb_true_iff in Hc. destruct Hc as [Hnz Hlt].
    unfold truthy_bigint in Hnz. apply negb_true_iff, Z.eqb_neq in Hnz.
    apply Z.ltb_lt in Hlt.
    exists ev, t. repeat split; auto.
Qed.

(** X19. The lookup of the vault is by exact string, and the keys of
    [VAULTS_MAP] are lower-cased: an event whose address contains an
    upper-case letter, such as a checksummed address, never alerts. *)
Theorem address_with_upper_case_never_alerts ev :
  toLowerCase (address ev) <> address ev ->
  handleTransaction [ev] = [].
Proof.
  intros Hcase. unfold handleTransaction, provideHandleTransaction,
    handleWorkEvent.
  cbn [flat_map].
  destruct (Map_get (address ev) VAULTS_MAP) as [t |] eqn:Hget;
    [| reflexivity].
  destruct (Number_idempotent_thresholds (address ev) t Hget)
    as (_ & _ & Hlow).
  contradiction.
Qed.

Lemma address_with_upper_case_never_alerts_witness :
  handleTransaction
    [mkWork "0x7C9e73d4C71dae564d41F78d56439bB4ba87592f" 7
            200000000000000000000000]
  = [].
Proof.
  apply (address_with_upper_case_never_alerts
           (mkWork "0x7C9e73d4C71dae564d41F78d56439bB4ba87592f" 7
                   200000000000000000000000)).
  discriminate.
Defined.

End LargePositionFacts.

(** * Properties of the admin-operations bot *)

Module FunctionCallListenerFacts.
Import FunctionCallListener.








End FunctionCallListenerFacts.
